(** * QMap: a SABRE-style qubit router, embedded from its Python source

    The development follows the repository file by file:
    - [qmap_dialect.py]   : qubits, operations, the IR
    - [hardware_configs.py]: coupling graphs, breadth-first search, fidelities
    - [optimizer.py]      : layout, front layer, candidate swaps, scoring,
                            swap selection and the routing loop
    - [openqasm_exporter.py], [compare_algorithms.py], [main.py] and
      [test_esame.py]     : what they do with a routed IR (the OpenQASM text,
                            the counts of swaps) and the adder circuit

    Conventions of the embedding.
    - Python [int] is [Z]; Python [float] is idealised as the exact
      rational [Q] (every float that occurs is a short decimal).
    - A Python [dict] is an association list in insertion order, because
      the router iterates over [dict.items()].
    - A Python [set] is the log of the values added to it.  Membership reads
      the log; iteration goes through [set_iter], an arbitrary enumeration
      without repetition, because Python leaves the order unspecified.
    - An exception is an [outcome]; the inner [while] of the router may not
      end, so it takes fuel and answers [OutOfFuel] when it is used up. *)

From Stdlib Require Import List ListDec ZArith QArith Lia Lqa Bool String Ascii.
From Stdlib Require Import DecimalString DecimalZ Permutation.
Import ListNotations.

Set Implicit Arguments.

(* ------------------------------------------------------------------ *)
(** ** Python runtime *)

Inductive PyExn : Type := KeyError | IndexError | ValueError.

Inductive outcome (A : Type) : Type :=
| Return (a : A)
| Raise (e : PyExn)
| OutOfFuel.

Arguments Return {A} a.
Arguments Raise {A} e.
Arguments OutOfFuel {A}.

Definition bind {A B : Type} (m : outcome A) (k : A -> outcome B) : outcome B :=
  match m with
  | Return a => k a
  | Raise e => Raise e
  | OutOfFuel => OutOfFuel
  end.

Notation "x <- m ;; k" := (bind m (fun x => k))
  (at level 61, m at next level, right associativity).

(** [str(n)] for an [int]. *)
Definition str_of_int (n : Z) : string := NilZero.string_of_int (Z.to_int n).

(** [int(c)] for a one-character string [c]. *)
Definition int_of_char (c : ascii) : outcome Z :=
  let n := nat_of_ascii c in
  if (48 <=? n)%nat && (n <=? 57)%nat then Return (Z.of_nat (n - 48)) else Raise ValueError.

(** [s[i]] on a string. *)
Definition str_index (s : string) (i : nat) : outcome ascii :=
  match String.get i s with
  | Some c => Return c
  | None => Raise IndexError
  end.

(** [range(n)]. *)
Definition range (n : Z) : list Z := map Z.of_nat (seq 0 (Z.to_nat n)).

(** The line feed and the double quote of string literals. *)
Definition newline : string := String "010"%char EmptyString.
Definition dquote : string := String "034"%char EmptyString.

(** [sub in s] for two strings. *)
Fixpoint str_in (sub s : string) : bool :=
  String.prefix sub s
  || match s with
     | EmptyString => false
     | String _ s' => str_in sub s'
     end.

(** [s.lower()] on a string of ASCII characters. *)
Definition ascii_lower (c : ascii) : ascii :=
  let n := nat_of_ascii c in
  if (65 <=? n)%nat && (n <=? 90)%nat then ascii_of_nat (n + 32) else c.

Fixpoint lower (s : string) : string :=
  match s with
  | EmptyString => EmptyString
  | String c s' => String (ascii_lower c) (lower s')
  end.

(** The digits of a positive number in base 2, and [format(value, '0{width}b')]:
    the sign, then zeros up to the width, then the digits. *)
Fixpoint bin_of_pos (p : positive) : string :=
  match p with
  | xH => "1"
  | xO p' => bin_of_pos p' ++ "0"
  | xI p' => bin_of_pos p' ++ "1"
  end%string.

Fixpoint zeros (n : nat) : string :=
  match n with
  | O => EmptyString
  | S n' => String "0" (zeros n')
  end.

Definition format_0b (value : Z) (width : nat) : string :=
  let sign := if (value <? 0)%Z then "-"%string else EmptyString in
  let digits := match value with
                | Z0 => "0"%string
                | Zpos p | Zneg p => bin_of_pos p
                end in
  (sign ++ zeros (width - String.length sign - String.length digits) ++ digits)%string.

Section PyDict.
Variables K V : Type.
Variable K_eqb : K -> K -> bool.

(** [d.get(k)] *)
Fixpoint dict_get (d : list (K * V)) (k : K) : option V :=
  match d with
  | [] => None
  | (k', v) :: d' => if K_eqb k k' then Some v else dict_get d' k
  end.

(** [d.get(k, default)] *)
Definition dict_get_default (d : list (K * V)) (k : K) (default : V) : V :=
  match dict_get d k with
  | Some v => v
  | None => default
  end.

(** [d[k] = v]: an existing key keeps its place. *)
Fixpoint dict_set (d : list (K * V)) (k : K) (v : V) : list (K * V) :=
  match d with
  | [] => [(k, v)]
  | (k', v') :: d' => if K_eqb k k' then (k', v) :: d' else (k', v') :: dict_set d' k v
  end.

(** [k in d] *)
Definition dict_mem (d : list (K * V)) (k : K) : bool :=
  match dict_get d k with
  | Some _ => true
  | None => false
  end.

Definition dict_keys (d : list (K * V)) : list K := map fst d.

End PyDict.

Section PySet.
Variable A : Type.
Variable A_eqb : A -> A -> bool.

(** [x in s] *)
Definition set_mem (x : A) (s : list A) : bool := existsb (A_eqb x) s.

(** [s.add(x)] *)
Definition set_add (s : list A) (x : A) : list A := s ++ [x].

End PySet.

(** The order in which a [for] loop meets the elements of a set. *)
Class SetOrder : Type := {
  set_iter : forall A : Type, (forall x y : A, {x = y} + {x <> y}) -> list A -> list A;
  set_iter_NoDup : forall A dec (l : list A), NoDup (set_iter dec l);
  set_iter_In : forall A dec (l : list A) (x : A), In x (set_iter dec l) <-> In x l
}.

(** One such order: each element where it was first added. *)
Definition first_added (A : Type) (dec : forall x y : A, {x = y} + {x <> y})
  (l : list A) : list A :=
  rev (nodup dec (rev l)).

(* ------------------------------------------------------------------ *)
(** ** qmap_dialect.py *)

Module LogicalQubit.
Record t : Type := mk { id : Z }.
Definition eqb (a b : t) : bool := Z.eqb (id a) (id b).
Definition str (q : t) : string := ("q" ++ str_of_int (id q))%string.
End LogicalQubit.

Module PhysicalQubit.
Record t : Type := mk { id : Z }.
Definition eqb (a b : t) : bool := Z.eqb (id a) (id b).
Definition str (q : t) : string := ("P" ++ str_of_int (id q))%string.
End PhysicalQubit.

Definition Layout : Type := list (LogicalQubit.t * PhysicalQubit.t).

Module SingleQubitGateOp.
Record t : Type := mk { gate : string; qubit : LogicalQubit.t }.
Definition to_mlir (self : t) : string :=
  (gate self ++ " " ++ LogicalQubit.str (qubit self))%string.
End SingleQubitGateOp.

Module TryTwoQubitOp.
Record t : Type := mk { gate : string; control : LogicalQubit.t; target : LogicalQubit.t }.
Definition to_mlir (self : t) : string :=
  ("qmap.try_two_qubit @" ++ gate self ++ "(%" ++ LogicalQubit.str (control self)
   ++ ", %" ++ LogicalQubit.str (target self) ++ ")")%string.
End TryTwoQubitOp.

Module InsertSwapOp.
Record t : Type := mk { qubit1 : PhysicalQubit.t; qubit2 : PhysicalQubit.t; cost : Q }.

Section Printing.
(** [f"{x:.2f}"]: how Python prints a float with two decimals is not
    modelled; what is proved about [to_mlir] holds for every such printer. *)
Variable format_2f : Q -> string.

Definition to_mlir (self : t) : string :=
  if negb (Qle_bool (cost self) 0)
  then ("qmap.insert_swap %" ++ PhysicalQubit.str (qubit1 self) ++ ", %"
        ++ PhysicalQubit.str (qubit2 self) ++ " {cost=" ++ format_2f (cost self) ++ "}")%string
  else ("qmap.insert_swap %" ++ PhysicalQubit.str (qubit1 self) ++ ", %"
        ++ PhysicalQubit.str (qubit2 self))%string.
End Printing.
End InsertSwapOp.

Module CurrentLayoutOp.
Record t : Type := mk { layout : Layout }.

(** [sorted(self.layout.items(), key=lambda x: x[0].id)]; the sort is stable. *)
Fixpoint insert_by_id (x : LogicalQubit.t * PhysicalQubit.t) (l : Layout) : Layout :=
  match l with
  | [] => [x]
  | y :: l' => if (LogicalQubit.id (fst x) <=? LogicalQubit.id (fst y))%Z
               then x :: l else y :: insert_by_id x l'
  end.

Definition sorted_items (l : Layout) : Layout := fold_right insert_by_id [] l.

Definition to_mlir (self : t) : string :=
  let mappings :=
    String.concat ", "
      (map (fun x => (LogicalQubit.str (fst x) ++ "->" ++ PhysicalQubit.str (snd x))%string)
           (sorted_items (layout self))) in
  ("qmap.current_layout {" ++ mappings ++ "}")%string.

Definition get_physical_qubit (self : t) (logical : LogicalQubit.t) :
  option PhysicalQubit.t :=
  dict_get LogicalQubit.eqb (layout self) logical.

(** The first logical qubit that [items()] shows on [physical]. *)
Fixpoint first_on (items : Layout) (physical : PhysicalQubit.t) : option LogicalQubit.t :=
  match items with
  | [] => None
  | (lq, pq) :: items' =>
      if PhysicalQubit.eqb pq physical then Some lq else first_on items' physical
  end.

Definition get_logical_qubit (self : t) (physical : PhysicalQubit.t) :
  option LogicalQubit.t :=
  first_on (layout self) physical.

Definition swap_physical_qubits (self : t) (p1 p2 : PhysicalQubit.t) : t :=
  let lq1 := get_logical_qubit self p1 in
  let lq2 := get_logical_qubit self p2 in
  let layout1 := match lq1 with
                 | Some lq1 => dict_set LogicalQubit.eqb (layout self) lq1 p2
                 | None => layout self
                 end in
  mk (match lq2 with
      | Some lq2 => dict_set LogicalQubit.eqb layout1 lq2 p1
      | None => layout1
      end).
End CurrentLayoutOp.

(** The subclasses of [Operation]; [isinstance] is a match on the constructor. *)
Inductive Operation : Type :=
| OpSingle (op : SingleQubitGateOp.t)
| OpTryTwo (op : TryTwoQubitOp.t)
| OpSwap (op : InsertSwapOp.t)
| OpLayout (op : CurrentLayoutOp.t).

(** [QMapIR.operations] *)
Definition QMapIR : Type := list Operation.

(** [QMapIR.add_operation] *)
Definition add_operation (ir : QMapIR) (op : Operation) : QMapIR := ir ++ [op].

Section Printing.
Variable format_2f : Q -> string.

(** [op.to_mlir()], by the class of [op]. *)
Definition to_mlir (op : Operation) : string :=
  match op with
  | OpSingle g => SingleQubitGateOp.to_mlir g
  | OpTryTwo g => TryTwoQubitOp.to_mlir g
  | OpSwap s => InsertSwapOp.to_mlir format_2f s
  | OpLayout m => CurrentLayoutOp.to_mlir m
  end.

(** [QMapIR.to_mlir] *)
Definition QMapIR_to_mlir (ir : QMapIR) : string :=
  String.concat newline (map to_mlir ir).

End Printing.

(* ------------------------------------------------------------------ *)
(** ** hardware_configs.py *)

Record Topology : Type := mkTopology {
  physical_qubits : list string;
  coupling_graph : list (string * list string);
  get_fidelity : string -> string -> Q
}.

Definition graph_get (g : list (string * list string)) (q : string) : option (list string) :=
  dict_get String.eqb g q.

(** [LinearTopology.are_adjacent] *)
Definition are_adjacent (topo : Topology) (qubit1 qubit2 : string) : bool :=
  match graph_get (coupling_graph topo) qubit1 with
  | None => false
  | Some s => set_mem String.eqb qubit2 s
  end.

(** [LinearTopology.get_neighbors] *)
Definition get_neighbors (topo : Topology) (qubit : string) : list string :=
  dict_get_default String.eqb (coupling_graph topo) qubit [].

Section Bfs.
Context {SO : SetOrder}.

Definition BfsQueue : Type := list (string * list string).

(** The [for neighbor in ...] loop of [shortest_path]: [inl p] when it
    returns the path [p], [inr] with the new [visited] and [queue] when it
    runs to its end. *)
Fixpoint bfs_for (end_ : string) (path : list string) (neighbors : list string)
  (visited : list string) (queue : BfsQueue) : list string + (list string * BfsQueue) :=
  match neighbors with
  | [] => inr (visited, queue)
  | neighbor :: rest =>
      if String.eqb neighbor end_ then inl (path ++ [neighbor])
      else if negb (set_mem String.eqb neighbor visited)
           then bfs_for end_ path rest (set_add visited neighbor)
                        (queue ++ [(neighbor, path ++ [neighbor])])
           else bfs_for end_ path rest visited queue
  end.

(** The [while queue:] loop; [None] only when the fuel is used up. *)
Fixpoint bfs_while (fuel : nat) (topo : Topology) (end_ : string)
  (visited : list string) (queue : BfsQueue) : option (list string) :=
  match queue with
  | [] => Some []
  | (current, path) :: queue' =>
      match fuel with
      | O => None
      | S fuel' =>
          match bfs_for end_ path (set_iter string_dec (get_neighbors topo current))
                        visited queue' with
          | inl p => Some p
          | inr (visited', queue'') => bfs_while fuel' topo end_ visited' queue''
          end
      end
  end.

(** Every label a search can reach, with repetitions. *)
Definition graph_labels (topo : Topology) : list string :=
  flat_map snd (coupling_graph topo).

(** More rounds than the loop can make (see [bfs_while_fuel]). *)
Definition bfs_fuel (topo : Topology) : nat := S (List.length (graph_labels topo)).

(** [LinearTopology.shortest_path] *)
Definition shortest_path (topo : Topology) (start end_ : string) : list string :=
  if String.eqb start end_ then [start]
  else match bfs_while (bfs_fuel topo) topo end_ [start] [(start, [start])] with
       | Some p => p
       | None => []
       end.

End Bfs.

(** The three devices of the repository.  [LinearTopology] is the base
    class; the other two inherit its graph queries. *)

Definition LinearTopology : Topology := {|
  physical_qubits := ["P0"; "P1"; "P2"]%string;
  coupling_graph :=
    [("P0", ["P1"]); ("P1", ["P0"; "P2"]); ("P2", ["P1"])]%string;
  get_fidelity := fun _ _ => 1%Q
|}.

Definition Grid2x2Topology : Topology := {|
  physical_qubits := ["P0"; "P1"; "P2"; "P3"]%string;
  coupling_graph :=
    [("P0", ["P1"; "P2"]); ("P1", ["P0"; "P3"]);
     ("P2", ["P0"; "P3"]); ("P3", ["P1"; "P2"])]%string;
  get_fidelity := get_fidelity LinearTopology
|}.

(** [f'P{i}'] *)
Definition P_label (i : Z) : string := ("P" ++ str_of_int i)%string.

Definition pair_eqb (a b : string * string) : bool :=
  String.eqb (fst a) (fst b) && String.eqb (snd a) (snd b).

Definition heavy_hex_connections : list (Z * Z) :=
  [(0, 1); (1, 2);
   (0, 4); (2, 6);
   (3, 4); (4, 5); (5, 6); (6, 7);
   (4, 8); (6, 10);
   (8, 9); (9, 10);
   (9, 11);
   (11, 12);
   (12, 13)]%Z.

(** [graph[k].add(x)]; every [k] used below is a key. *)
Definition graph_add (g : list (string * list string)) (k x : string) :
  list (string * list string) :=
  dict_set String.eqb g k (set_add (dict_get_default String.eqb g k []) x).

(** The two loops of [HeavyHexTopology.__init__] over [coupling_graph],
    run once here: the constant holds the dictionary they build. *)
Definition heavy_hex_graph : list (string * list string) :=
  Eval vm_compute in
    (let empty := fold_left (fun g i => dict_set String.eqb g (P_label i) [])
                            (range 14) [] in
     fold_left (fun g uv => let p_u := P_label (fst uv) in
                            let p_v := P_label (snd uv) in
                            graph_add (graph_add g p_u p_v) p_v p_u)
               heavy_hex_connections empty).

Section HeavyHex.
Context {SO : SetOrder}.

(** [{(u, v): 0.99 for u in graph for v in graph[u]}] *)
Definition uniform_fidelities (graph : list (string * list string)) :
  list ((string * string) * Q) :=
  fold_left (fun d uv => dict_set pair_eqb d uv (99 # 100))
            (flat_map (fun us => map (fun v => (fst us, v))
                                     (set_iter string_dec (snd us))) graph)
            [].

Definition heavy_hex_fidelities : list ((string * string) * Q) :=
  let d := uniform_fidelities heavy_hex_graph in
  let d := dict_set pair_eqb d ("P4", "P5")%string (92 # 100) in
  let d := dict_set pair_eqb d ("P5", "P4")%string (92 # 100) in
  let d := dict_set pair_eqb d ("P9", "P11")%string (95 # 100) in
  dict_set pair_eqb d ("P11", "P9")%string (95 # 100).

Definition HeavyHexTopology : Topology := {|
  physical_qubits := map P_label (range 14);
  coupling_graph := heavy_hex_graph;
  get_fidelity := fun q1 q2 => dict_get_default pair_eqb heavy_hex_fidelities (q1, q2) 0%Q
|}.

End HeavyHex.

(* ------------------------------------------------------------------ *)
(** ** optimizer.py *)

(** [float('inf')] and the finite scores compared with it. *)
Inductive PyFloat : Type := Finite (q : Q) | PosInf.

(** [x < best] for a finite [x]. *)
Definition score_lt (x : Q) (best : PyFloat) : bool :=
  match best with
  | PosInf => true
  | Finite b => negb (Qle_bool b x)
  end.

Definition LogicalQubit_dec (x y : LogicalQubit.t) : {x = y} + {x <> y}.
Proof. decide equality; apply Z.eq_dec. Defined.

Definition PhysicalQubit_dec (x y : PhysicalQubit.t) : {x = y} + {x <> y}.
Proof. decide equality; apply Z.eq_dec. Defined.

Definition swap_tuple_dec (x y : Z * Z) : {x = y} + {x <> y}.
Proof. decide equality; apply Z.eq_dec. Defined.

(** A [for] loop whose body may raise. *)
Fixpoint for_each {A S : Type} (body : S -> A -> outcome S) (l : list A) (s : S) :
  outcome S :=
  match l with
  | [] => Return s
  | x :: l' => s' <- body s x ;; for_each body l' s'
  end.

(** The variables the inner [while] of [optimize] reads and writes. *)
Module RouteState.
Record t : Type := mk {
  current_layout : Layout;
  pq1 : PhysicalQubit.t;
  pq2 : PhysicalQubit.t;
  front_layer : list TryTwoQubitOp.t;
  num_swaps_for_gate : nat;
  optimized_ops : list Operation
}.
End RouteState.

Section QMapOptimizerPass.
Context {SO : SetOrder}.
Variable topology : Topology.

(** [initialize_layout]: the new [self.current_layout]. *)
Definition initialize_layout (num_qubits : Z) : Layout :=
  map (fun i => (LogicalQubit.mk i, PhysicalQubit.mk i)) (range num_qubits).

Definition layout_get (layout : Layout) (lq : LogicalQubit.t) : option PhysicalQubit.t :=
  dict_get LogicalQubit.eqb layout lq.

(** [get_physical_qubits]: [self.current_layout[lq]] raises on a missing key. *)
Definition get_physical_qubits (layout : Layout) (lq1 lq2 : LogicalQubit.t) :
  outcome (PhysicalQubit.t * PhysicalQubit.t) :=
  match layout_get layout lq1 with
  | None => Raise KeyError
  | Some pq1 =>
      match layout_get layout lq2 with
      | None => Raise KeyError
      | Some pq2 => Return (pq1, pq2)
      end
  end.

(** The scan of [items()] in [_apply_swap]: the last logical qubit found on
    [pq1], and the last one found on [pq2] (when [pq2] differs from [pq1]). *)
Definition find_occupants (layout : Layout) (pq1 pq2 : PhysicalQubit.t) :
  option LogicalQubit.t * option LogicalQubit.t :=
  fold_left (fun found item =>
               if PhysicalQubit.eqb (snd item) pq1 then (Some (fst item), snd found)
               else if PhysicalQubit.eqb (snd item) pq2 then (fst found, Some (fst item))
               else found)
            layout (None, None).

(** [_apply_swap], and the same lines run on a copy in [_select_best_swap]. *)
Definition apply_swap (layout : Layout) (pq1 pq2 : PhysicalQubit.t) : Layout :=
  let found := find_occupants layout pq1 pq2 in
  let layout1 := match fst found with
                 | Some lq1 => dict_set LogicalQubit.eqb layout lq1 pq2
                 | None => layout
                 end in
  match snd found with
  | Some lq2 => dict_set LogicalQubit.eqb layout1 lq2 pq1
  | None => layout1
  end.

(** The loop of [_build_front_layer]; [break] returns what was collected. *)
Fixpoint build_front_layer_loop (remaining_ops : list Operation)
  (front_layer : list TryTwoQubitOp.t) (used_qubits : list LogicalQubit.t) :
  list TryTwoQubitOp.t :=
  match remaining_ops with
  | [] => front_layer
  | OpTryTwo op :: rest =>
      if negb (set_mem LogicalQubit.eqb (TryTwoQubitOp.control op) used_qubits)
         && negb (set_mem LogicalQubit.eqb (TryTwoQubitOp.target op) used_qubits)
      then build_front_layer_loop rest (front_layer ++ [op])
             (set_add (set_add used_qubits (TryTwoQubitOp.control op))
                      (TryTwoQubitOp.target op))
      else front_layer
  | _ :: rest => build_front_layer_loop rest front_layer used_qubits
  end.

Definition build_front_layer (remaining_ops : list Operation) : list TryTwoQubitOp.t :=
  build_front_layer_loop remaining_ops [] [].

(** [len(path) - 1 if path else 0] *)
Definition path_distance (path : list string) : Z :=
  match path with
  | [] => 0
  | _ => Z.of_nat (List.length path) - 1
  end.

(** [_calculate_score] *)
Definition calculate_score (potential_layout : Layout)
  (front_layer : list TryTwoQubitOp.t) : Z :=
  fold_left (fun total_distance gate =>
               match layout_get potential_layout (TryTwoQubitOp.control gate),
                     layout_get potential_layout (TryTwoQubitOp.target gate) with
               | Some pq1, Some pq2 =>
                   total_distance
                   + path_distance (shortest_path topology (PhysicalQubit.str pq1)
                                                  (PhysicalQubit.str pq2))
               | _, _ => total_distance
               end)%Z
            front_layer 0%Z.

(** [_get_candidate_swaps] *)
Definition logical_qubits_in_front (front_layer : list TryTwoQubitOp.t) :
  list LogicalQubit.t :=
  fold_left (fun s gate => set_add (set_add s (TryTwoQubitOp.control gate))
                                   (TryTwoQubitOp.target gate))
            front_layer [].

Definition physical_qubits_in_front (layout : Layout)
  (front_layer : list TryTwoQubitOp.t) : list PhysicalQubit.t :=
  fold_left (fun s lq => match layout_get layout lq with
                         | Some pq => set_add s pq
                         | None => s
                         end)
            (set_iter LogicalQubit_dec (logical_qubits_in_front front_layer)) [].

(** [tuple(sorted([a, b]))] *)
Definition sorted_pair (a b : Z) : Z * Z := (Z.min a b, Z.max a b).

(** [int(neighbor_str[1])] *)
Definition neighbor_id (neighbor_str : string) : outcome Z :=
  c <- str_index neighbor_str 1 ;; int_of_char c.

Definition add_candidate (pq : PhysicalQubit.t) (candidate_swaps : list (Z * Z))
  (neighbor_str : string) : outcome (list (Z * Z)) :=
  n <- neighbor_id neighbor_str ;;
  let neighbor_pq := PhysicalQubit.mk n in
  let swap_tuple := sorted_pair (PhysicalQubit.id pq) (PhysicalQubit.id neighbor_pq) in
  Return (set_add candidate_swaps swap_tuple).

Definition candidate_swaps (layout : Layout) (front_layer : list TryTwoQubitOp.t) :
  outcome (list (Z * Z)) :=
  for_each (fun candidates pq =>
              for_each (add_candidate pq)
                       (set_iter string_dec (get_neighbors topology (PhysicalQubit.str pq)))
                       candidates)
           (set_iter PhysicalQubit_dec (physical_qubits_in_front layout front_layer))
           [].

Definition get_candidate_swaps (layout : Layout) (front_layer : list TryTwoQubitOp.t) :
  outcome (list (PhysicalQubit.t * PhysicalQubit.t)) :=
  candidates <- candidate_swaps layout front_layer ;;
  Return (map (fun ab => (PhysicalQubit.mk (fst ab), PhysicalQubit.mk (snd ab)))
              (set_iter swap_tuple_dec candidates)).

(** [combined_score] of one candidate in [_select_best_swap]. *)
Definition fidelity_cost (pq1 pq2 : PhysicalQubit.t) : Q :=
  1 - get_fidelity topology (PhysicalQubit.str pq1) (PhysicalQubit.str pq2).

Definition combined_score (layout : Layout) (front_layer : list TryTwoQubitOp.t)
  (pq1 pq2 : PhysicalQubit.t) : Q :=
  let potential_layout := apply_swap layout pq1 pq2 in
  let dist_score := calculate_score potential_layout front_layer in
  inject_Z dist_score + fidelity_cost pq1 pq2 * 10.

(** One round of the [for pq1, pq2 in candidate_swaps] loop. *)
Definition select_step (layout : Layout) (front_layer : list TryTwoQubitOp.t)
  (best : option InsertSwapOp.t * PyFloat) (candidate : PhysicalQubit.t * PhysicalQubit.t) :
  option InsertSwapOp.t * PyFloat :=
  let pq1 := fst candidate in
  let pq2 := snd candidate in
  let score := combined_score layout front_layer pq1 pq2 in
  if score_lt score (snd best)
  then (Some (InsertSwapOp.mk pq1 pq2 (fidelity_cost pq1 pq2)), Finite score)
  else best.

(** [_select_best_swap] *)
Definition select_best_swap (layout : Layout) (front_layer : list TryTwoQubitOp.t) :
  outcome (option InsertSwapOp.t) :=
  match front_layer with
  | [] => Return None
  | _ =>
      candidates <- get_candidate_swaps layout front_layer ;;
      match candidates with
      | [] => Return None
      | _ => Return (fst (fold_left (select_step layout front_layer) candidates
                                    (None, PosInf)))
      end
  end.

(** One pass through the body of the inner [while] of [optimize], for the
    gate [op] whose suffix of the program is [remaining]: [None] is [break]. *)
Definition swap_round (remaining : list Operation) (op : TryTwoQubitOp.t)
  (st : RouteState.t) : outcome (option RouteState.t) :=
  best <- select_best_swap (RouteState.current_layout st) (RouteState.front_layer st) ;;
  match best with
  | None => Return None
  | Some best_swap =>
      let optimized_ops := RouteState.optimized_ops st ++ [OpSwap best_swap] in
      let layout := apply_swap (RouteState.current_layout st)
                               (InsertSwapOp.qubit1 best_swap)
                               (InsertSwapOp.qubit2 best_swap) in
      let num_swaps_for_gate := S (RouteState.num_swaps_for_gate st) in
      pqs <- get_physical_qubits layout (TryTwoQubitOp.control op)
                                 (TryTwoQubitOp.target op) ;;
      let front_layer := build_front_layer remaining in
      Return (Some (RouteState.mk layout (fst pqs) (snd pqs) front_layer
                                  num_swaps_for_gate optimized_ops))
  end.

(** [while not self.topology.are_adjacent(str(pq1), str(pq2)): ...] *)
Fixpoint swap_loop (fuel : nat) (remaining : list Operation) (op : TryTwoQubitOp.t)
  (st : RouteState.t) : outcome RouteState.t :=
  if are_adjacent topology (PhysicalQubit.str (RouteState.pq1 st))
                  (PhysicalQubit.str (RouteState.pq2 st))
  then Return st
  else
    match fuel with
    | O => OutOfFuel
    | S fuel' =>
        match swap_round remaining op st with
        | Return None => Return st
        | Return (Some st') => swap_loop fuel' remaining op st'
        | Raise e => Raise e
        | OutOfFuel => OutOfFuel
        end
    end.

(** What [optimize] does with a [TryTwoQubitOp] once the inner loop is over. *)
Definition emit_gate (op : TryTwoQubitOp.t) (st : RouteState.t) : list Operation :=
  let out := if (0 <? RouteState.num_swaps_for_gate st)%nat
             then RouteState.optimized_ops st
                  ++ [OpLayout (CurrentLayoutOp.mk (RouteState.current_layout st))]
             else RouteState.optimized_ops st in
  out ++ [OpTryTwo op].

(** The outer [while op_index < len(remaining_ops)]; [remaining] is
    [remaining_ops[op_index:]]. *)
Fixpoint optimize_loop (fuel : nat) (remaining : list Operation) (layout : Layout)
  (out : list Operation) : outcome (list Operation) :=
  match remaining with
  | [] => Return out
  | OpSingle _ as op :: rest => optimize_loop fuel rest layout (out ++ [op])
  | OpTryTwo op :: rest =>
      match get_physical_qubits layout (TryTwoQubitOp.control op)
                                (TryTwoQubitOp.target op) with
      | Return (pq1, pq2) =>
          match swap_loop fuel remaining op
                          (RouteState.mk layout pq1 pq2 (build_front_layer remaining)
                                         0 out) with
          | Return st =>
              optimize_loop fuel rest (RouteState.current_layout st) (emit_gate op st)
          | Raise e => Raise e
          | OutOfFuel => OutOfFuel
          end
      | Raise e => Raise e
      | OutOfFuel => OutOfFuel
      end
  | op :: rest => optimize_loop fuel rest layout (out ++ [op])
  end.

(** The qubits the first scan of [optimize] collects. *)
Definition referenced_qubits (ir : QMapIR) : list LogicalQubit.t :=
  fold_left (fun s op =>
               match op with
               | OpTryTwo g => set_add (set_add s (TryTwoQubitOp.control g))
                                       (TryTwoQubitOp.target g)
               | OpSingle g => set_add s (SingleQubitGateOp.qubit g)
               | _ => s
               end)
            ir [].

(** [max(l)] *)
Definition py_max (l : list Z) : outcome Z :=
  match l with
  | [] => Raise ValueError
  | x :: l' => Return (fold_left Z.max l' x)
  end.

(** [max([lq.id for lq in logical_qubits]) + 1 if logical_qubits else 0] *)
Definition count_qubits (logical_qubits : list LogicalQubit.t) : outcome Z :=
  match logical_qubits with
  | [] => Return 0%Z
  | _ => m <- py_max (map LogicalQubit.id (set_iter LogicalQubit_dec logical_qubits)) ;;
         Return (m + 1)%Z
  end.

(** [QMapOptimizerPass.optimize] *)
Definition optimize (fuel : nat) (ir : QMapIR) : outcome QMapIR :=
  num_qubits <- count_qubits (referenced_qubits ir) ;;
  let layout := initialize_layout num_qubits in
  optimize_loop fuel ir layout [OpLayout (CurrentLayoutOp.mk layout)].

(** [run_optimizer]: a fresh pass on [topology]. *)
Definition run_optimizer (fuel : nat) (ir : QMapIR) : outcome QMapIR :=
  optimize fuel ir.

End QMapOptimizerPass.

(* ------------------------------------------------------------------ *)
(** ** openqasm_exporter.py *)

Module OpenQASMExporter.

Record t : Type := mk {
  num_physical_qubits : Z;
  qasm_lines : list string;
  logical_to_physical : list (Z * Z)
}.

(** [OpenQASMExporter(num_physical_qubits)]; the default is 20. *)
Definition new (num_physical_qubits : Z) : t := mk num_physical_qubits [] [].

Definition default : t := new 20.

(** The three lines [export] starts from. *)
Definition header (self : t) : list string :=
  ["OPENQASM 3.0;";
   "include " ++ dquote ++ "stdgates.inc" ++ dquote ++ ";";
   "qubit[" ++ str_of_int (num_physical_qubits self) ++ "] p;"]%string.

(** [self.logical_to_physical.get(lid, lid)] *)
Definition physical_of (self : t) (lid : Z) : Z :=
  dict_get_default Z.eqb (logical_to_physical self) lid lid.

Definition append_line (self : t) (line : string) : t :=
  mk (num_physical_qubits self) (qasm_lines self ++ [line]) (logical_to_physical self).

(** [_process_operation] *)
Definition process_operation (self : t) (op : Operation) : t :=
  match op with
  | OpLayout m =>
      fold_left (fun (self : t) item =>
                   mk (num_physical_qubits self) (qasm_lines self)
                      (dict_set Z.eqb (logical_to_physical self)
                                (LogicalQubit.id (fst item)) (PhysicalQubit.id (snd item))))
                (CurrentLayoutOp.layout m) self
  | OpSwap s =>
      let p1 := PhysicalQubit.id (InsertSwapOp.qubit1 s) in
      let p2 := PhysicalQubit.id (InsertSwapOp.qubit2 s) in
      append_line self ("swap p[" ++ str_of_int p1 ++ "], p[" ++ str_of_int p2 ++ "];")%string
  | OpSingle g =>
      let lid := LogicalQubit.id (SingleQubitGateOp.qubit g) in
      let pid := physical_of self lid in
      let gate := lower (SingleQubitGateOp.gate g) in
      append_line self (gate ++ " p[" ++ str_of_int pid ++ "];")%string
  | OpTryTwo g =>
      let c_lid := LogicalQubit.id (TryTwoQubitOp.control g) in
      let t_lid := LogicalQubit.id (TryTwoQubitOp.target g) in
      let c_pid := physical_of self c_lid in
      let t_pid := physical_of self t_lid in
      let gate := lower (TryTwoQubitOp.gate g) in
      let gate := if String.eqb gate "cnot" then "cx"%string else gate in
      append_line self (gate ++ " p[" ++ str_of_int c_pid ++ "], p["
                        ++ str_of_int t_pid ++ "];")%string
  end.

(** [export]: the text, and the exporter as the call leaves it. *)
Definition export (self : t) (ir : QMapIR) : string * t :=
  let self := mk (num_physical_qubits self) (header self) (logical_to_physical self) in
  let self := fold_left process_operation ir self in
  (String.concat newline (qasm_lines self), self).

End OpenQASMExporter.

(* ------------------------------------------------------------------ *)
(** ** compare_algorithms.py *)

(** [count_swaps] *)
Definition count_swaps (ir : QMapIR) : Z :=
  fold_right Z.add 0%Z
    (map (fun _ => 1%Z)
         (filter (fun op => match op with OpSwap _ => true | _ => false end) ir)).

(** The four-qubit line [run_benchmark] defines for itself. *)
Definition Linear4Qubit : Topology := {|
  physical_qubits := ["P0"; "P1"; "P2"; "P3"]%string;
  coupling_graph :=
    [("P0", ["P1"]); ("P1", ["P0"; "P2"]); ("P2", ["P1"; "P3"]); ("P3", ["P2"])]%string;
  get_fidelity := fun _ _ => 1%Q
|}.

(* ------------------------------------------------------------------ *)
(** ** main.py *)

Section Summary.
Variable format_2f : Q -> string.

(** [sum(1 for op in optimized_ir.operations if 'insert_swap' in op.to_mlir())],
    the count [main] prints (and [test_esame.py] after it). *)
Definition swaps_inserted (optimized_ir : QMapIR) : Z :=
  fold_right Z.add 0%Z
    (map (fun _ => 1%Z)
         (filter (fun op => str_in "insert_swap" (to_mlir format_2f op)) optimized_ir)).

End Summary.

(* ------------------------------------------------------------------ *)
(** ** test_esame.py *)

(** [int_to_bin_qubits]: [format(value, f'0{num_bits}b')]; a negative
    [num_bits] makes the format specifier invalid. *)
Definition int_to_bin_qubits (value num_bits : Z) : outcome string :=
  if (num_bits <? 0)%Z then Raise ValueError
  else Return (format_0b value (Z.to_nat num_bits)).

(** [generate_adder_circuit] *)
Definition generate_adder_circuit (a b : Z) : outcome QMapIR :=
  let ir : QMapIR := [] in
  a_bits <- int_to_bin_qubits (a mod 4) 2 ;;
  b_bits <- int_to_bin_qubits (b mod 4) 2 ;;
  let X q := OpSingle (SingleQubitGateOp.mk "X" (LogicalQubit.mk q)) in
  let CNOT c t := OpTryTwo (TryTwoQubitOp.mk "CNOT" (LogicalQubit.mk c) (LogicalQubit.mk t)) in
  a0 <- str_index a_bits 0 ;;
  let ir := if Ascii.eqb a0 "1" then add_operation ir (X 0%Z) else ir in
  a1 <- str_index a_bits 1 ;;
  let ir := if Ascii.eqb a1 "1" then add_operation ir (X 1%Z) else ir in
  b0 <- str_index b_bits 0 ;;
  let ir := if Ascii.eqb b0 "1" then add_operation ir (X 2%Z) else ir in
  b1 <- str_index b_bits 1 ;;
  let ir := if Ascii.eqb b1 "1" then add_operation ir (X 3%Z) else ir in
  let ir := add_operation ir (CNOT 0 2)%Z in
  let ir := add_operation ir (CNOT 1 3)%Z in
  let ir := add_operation ir (OpSingle (SingleQubitGateOp.mk "H" (LogicalQubit.mk 0))) in
  let ir := add_operation ir (CNOT 0 3)%Z in
  Return ir.

(* ------------------------------------------------------------------ *)
(** ** Vocabulary of the specification *)

(** An input IR holds gates only; [InsertSwapOp] and [CurrentLayoutOp] are
    the router's own. *)
Definition is_router_op (op : Operation) : bool :=
  match op with
  | OpSwap _ | OpLayout _ => true
  | _ => false
  end.

Definition is_swap (op : Operation) : bool :=
  match op with
  | OpSwap _ => true
  | _ => false
  end.

Definition only_gates (ir : QMapIR) : Prop :=
  forall op, In op ir -> is_router_op op = false.

(** The routed IR without the router's own operations. *)
Definition gates_of (ir : QMapIR) : QMapIR :=
  filter (fun op => negb (is_router_op op)) ir.

(** The most recent layout annotation of a prefix of the routed IR. *)
Fixpoint last_layout (prefix : list Operation) : option Layout :=
  match prefix with
  | [] => None
  | op :: rest =>
      match last_layout rest with
      | Some l => Some l
      | None => match op with
                | OpLayout m => Some (CurrentLayoutOp.layout m)
                | _ => None
                end
      end
  end.

(** [l1] is [l2] with some elements left out. *)
Inductive subseq (A : Type) : list A -> list A -> Prop :=
| subseq_nil : subseq [] []
| subseq_keep x l1 l2 : subseq l1 l2 -> subseq (x :: l1) (x :: l2)
| subseq_skip x l1 l2 : subseq l1 l2 -> subseq l1 (x :: l2).

(** The logical qubits of the two-qubit gates of an IR, and of all its gates. *)
Definition two_qubit_operands (ir : QMapIR) : list LogicalQubit.t :=
  flat_map (fun op => match op with
                      | OpTryTwo g => [TryTwoQubitOp.control g; TryTwoQubitOp.target g]
                      | _ => []
                      end) ir.

Definition gate_operands (ir : QMapIR) : list LogicalQubit.t :=
  flat_map (fun op => match op with
                      | OpTryTwo g => [TryTwoQubitOp.control g; TryTwoQubitOp.target g]
                      | OpSingle g => [SingleQubitGateOp.qubit g]
                      | _ => []
                      end) ir.

(** The front-layer walk of the specification, in its words: [U] is the
    set of used logical qubits, [F] the layer collected so far.  A
    single-qubit gate is skipped; a two-qubit gate on unused qubits is
    appended and its qubits join [U]; any other two-qubit gate stops the
    walk. *)
Inductive front_walk : list LogicalQubit.t -> list TryTwoQubitOp.t ->
                       list Operation -> list TryTwoQubitOp.t -> Prop :=
| walk_done U F :
    front_walk U F [] F
| walk_skip U F g rest R :
    front_walk U F rest R ->
    front_walk U F (OpSingle g :: rest) R
| walk_append U F g rest R :
    ~ In (TryTwoQubitOp.control g) U ->
    ~ In (TryTwoQubitOp.target g) U ->
    front_walk (TryTwoQubitOp.control g :: TryTwoQubitOp.target g :: U) (F ++ [g]) rest R ->
    front_walk U F (OpTryTwo g :: rest) R
| walk_stop U F g rest :
    In (TryTwoQubitOp.control g) U \/ In (TryTwoQubitOp.target g) U ->
    front_walk U F (OpTryTwo g :: rest) F.

(** A two-qubit gate read through the layout [l]: its operands sit on
    adjacent physical qubits, or on two physical qubits without any
    neighbour (then no swap can move them and the gate is left as it is). *)
Definition gate_placed (topo : Topology) (l : Layout) (g : TryTwoQubitOp.t) : Prop :=
  exists pq1 pq2,
    dict_get LogicalQubit.eqb l (TryTwoQubitOp.control g) = Some pq1 /\
    dict_get LogicalQubit.eqb l (TryTwoQubitOp.target g) = Some pq2 /\
    (are_adjacent topo (PhysicalQubit.str pq1) (PhysicalQubit.str pq2) = true \/
     (get_neighbors topo (PhysicalQubit.str pq1) = [] /\
      get_neighbors topo (PhysicalQubit.str pq2) = [])).

(** Every two-qubit gate of [out] is placed by the most recent layout
    annotation before it. *)
Definition placed_by_marks (topo : Topology) (out : list Operation) : Prop :=
  forall pre g post,
    out = pre ++ OpTryTwo g :: post ->
    exists l, last_layout pre = Some l /\ gate_placed topo l g.

(** Edges and paths of the coupling graph. *)
Definition edge (topo : Topology) (a b : string) : Prop := In b (get_neighbors topo a).

Inductive path (topo : Topology) (a : string) : string -> list string -> Prop :=
| path_start : path topo a a [a]
| path_step b c p : path topo a b p -> edge topo b c -> path topo a c (p ++ [c]).

Definition connected (topo : Topology) (a b : string) : Prop :=
  exists p, path topo a b p.

(** A label the graph does not know: neither a key nor a neighbour. *)
Definition unknown (topo : Topology) (q : string) : Prop :=
  graph_get (coupling_graph topo) q = None /\ ~ In q (graph_labels topo).

Section CostVocabulary.
Context {SO : SetOrder}.

(** [shortest_path_length] of the specification as the router reads it off
    the topology: the number of edges of the path found, 0 when none is. *)
Definition shortest_path_length (topo : Topology) (a b : string) : Z :=
  path_distance (shortest_path topo a b).


(** Modelled from the spec: [diameter(topology)] of the safety bound of
    section 4.8, which the source does not define; here the largest
    [shortest_path_length] between two physical qubits of the device. *)
Definition diameter (topo : Topology) : Z :=
  fold_right Z.max 0%Z
    (map (fun ab => shortest_path_length topo (fst ab) (snd ab))
         (list_prod (physical_qubits topo) (physical_qubits topo))).

End CostVocabulary.

(* ------------------------------------------------------------------ *)
(** ** Vocabulary of the further properties *)

(** A layout as the router keeps it: a dictionary, no key twice, that puts
    no two logical qubits on one physical qubit. *)
Definition one_to_one (l : Layout) : Prop :=
  NoDup (dict_keys l) /\ NoDup (map snd l).

(** The transposition of two physical qubits. *)
Definition exchange (pq1 pq2 x : PhysicalQubit.t) : PhysicalQubit.t :=
  if PhysicalQubit.eqb x pq1 then pq2
  else if PhysicalQubit.eqb x pq2 then pq1
  else x.

(** The last logical qubit that [items()] shows on [physical]. *)
Fixpoint last_on (items : Layout) (physical : PhysicalQubit.t) : option LogicalQubit.t :=
  match items with
  | [] => None
  | (lq, pq) :: items' =>
      match last_on items' physical with
      | Some x => Some x
      | None => if PhysicalQubit.eqb pq physical then Some lq else None
      end
  end.

(** The layout a reader of the routed IR keeps while walking through it:
    an annotation sets it, a swap exchanges two physical qubits in it. *)
Definition replay_step (l : option Layout) (op : Operation) : option Layout :=
  match op with
  | OpLayout m => Some (CurrentLayoutOp.layout m)
  | OpSwap s => option_map (fun l => apply_swap l (InsertSwapOp.qubit1 s)
                                                  (InsertSwapOp.qubit2 s)) l
  | _ => l
  end.

Definition replay (ops : list Operation) : option Layout :=
  fold_left replay_step ops None.

(** [Q prefix op] holds at every operation [op] of [emitted], [prefix]
    being all that stands before it, [out] included. *)
Definition each_position (Q : list Operation -> Operation -> Prop)
  (out emitted : list Operation) : Prop :=
  forall pre op post, emitted = pre ++ op :: post -> Q (out ++ pre) op.

(** The two-qubit gates of a program, in program order. *)
Definition two_qubit_gates (ops : list Operation) : list TryTwoQubitOp.t :=
  flat_map (fun op => match op with OpTryTwo g => [g] | _ => [] end) ops.

(** Two gates that act on a common logical qubit. *)
Definition shares_qubit (g h : TryTwoQubitOp.t) : Prop :=
  TryTwoQubitOp.control g = TryTwoQubitOp.control h \/
  TryTwoQubitOp.control g = TryTwoQubitOp.target h \/
  TryTwoQubitOp.target g = TryTwoQubitOp.control h \/
  TryTwoQubitOp.target g = TryTwoQubitOp.target h.

(** The loop of [_process_operation] over the items of an annotation. *)
Definition record_layout (self : OpenQASMExporter.t) (items : Layout) : OpenQASMExporter.t :=
  fold_left (fun (self : OpenQASMExporter.t) item =>
               OpenQASMExporter.mk (OpenQASMExporter.num_physical_qubits self)
                 (OpenQASMExporter.qasm_lines self)
                 (dict_set Z.eqb (OpenQASMExporter.logical_to_physical self)
                           (LogicalQubit.id (fst item)) (PhysicalQubit.id (snd item))))
            items self.

(** Two exporters that print every qubit alike. *)
Definition same_mapping (s1 s2 : OpenQASMExporter.t) : Prop :=
  forall k, dict_get Z.eqb (OpenQASMExporter.logical_to_physical s1) k
            = dict_get Z.eqb (OpenQASMExporter.logical_to_physical s2) k.

(** The character [c] occurs in [s]. *)
Fixpoint has_char (c : ascii) (s : string) : bool :=
  match s with
  | EmptyString => false
  | String x s' => Ascii.eqb x c || has_char c s'
  end.

(** The [n] low bits of [v], the highest first. *)
Fixpoint bits_msb (n : nat) (v : Z) : string :=
  match n with
  | O => EmptyString
  | S n' => (bits_msb n' (Z.div2 v) ++ (if Z.odd v then "1" else "0"))%string
  end.

(* ------------------------------------------------------------------ *)
(** * Properties *)

(** ** The runtime: equality tests, dictionaries, sets *)

Lemma LogicalQubit_eqb_eq (a b : LogicalQubit.t) :
  LogicalQubit.eqb a b = true <-> a = b.
Proof.
  destruct a as [x], b as [y]; unfold LogicalQubit.eqb; simpl.
  rewrite Z.eqb_eq. split; [intros -> | intros [=]]; auto.
Qed.

Lemma PhysicalQubit_eqb_eq (a b : PhysicalQubit.t) :
  PhysicalQubit.eqb a b = true <-> a = b.
Proof.
  destruct a as [x], b as [y]; unfold PhysicalQubit.eqb; simpl.
  rewrite Z.eqb_eq. split; [intros -> | intros [=]]; auto.
Qed.

Lemma pair_eqb_eq (a b : string * string) : pair_eqb a b = true <-> a = b.
Proof.
  destruct a as [a1 a2], b as [b1 b2]; unfold pair_eqb; simpl.
  rewrite andb_true_iff, !String.eqb_eq.
  split; [intros [-> ->] | intros [=]]; auto.
Qed.

Section DictFacts.
Variables K V : Type.
Variable K_eqb : K -> K -> bool.
Hypothesis K_eqb_eq : forall a b, K_eqb a b = true <-> a = b.

Lemma K_eqb_refl (k : K) : K_eqb k k = true.
Proof. now apply K_eqb_eq. Qed.

Lemma dict_get_In (d : list (K * V)) (k : K) (v : V) :
  dict_get K_eqb d k = Some v -> In (k, v) d.
Proof.
  induction d as [|[k' v'] d IH]; simpl; [discriminate|].
  destruct (K_eqb k k') eqn:E.
  - apply K_eqb_eq in E. intros [= ->]. subst. now left.
  - intros H. right. now apply IH.
Qed.

Lemma dict_get_None_iff (d : list (K * V)) (k : K) :
  dict_get K_eqb d k = None <-> ~ In k (dict_keys d).
Proof.
  unfold dict_keys. induction d as [|[k' v'] d IH]; simpl; [tauto|].
  destruct (K_eqb k k') eqn:E.
  - apply K_eqb_eq in E. subst. split; [discriminate | intros H; exfalso; apply H; now left].
  - rewrite IH. split.
    + intros H [->|H']; [rewrite K_eqb_refl in E; discriminate | tauto].
    + tauto.
Qed.

Lemma dict_get_Some_iff (d : list (K * V)) (k : K) :
  (exists v, dict_get K_eqb d k = Some v) <-> In k (dict_keys d).
Proof.
  destruct (dict_get K_eqb d k) as [v|] eqn:E.
  - split; [intros _ | intros _; now exists v].
    apply dict_get_In in E. unfold dict_keys.
    change k with (fst (k, v)). now apply in_map.
  - split; [intros [v [=]] | intros H]. now apply dict_get_None_iff in E.
Qed.

(** An assignment to a key never removes a key, and adds none when the key
    is already there. *)
Lemma dict_keys_set_present (d : list (K * V)) (k : K) (v : V) :
  In k (dict_keys d) -> dict_keys (dict_set K_eqb d k v) = dict_keys d.
Proof.
  unfold dict_keys. induction d as [|[k' v'] d IH]; simpl; [tauto|].
  intros H. destruct (K_eqb k k') eqn:E; simpl; [reflexivity|].
  f_equal. apply IH. destruct H as [->|H]; [|assumption].
  rewrite K_eqb_refl in E. discriminate.
Qed.

Lemma dict_get_set_same (d : list (K * V)) (k : K) (v : V) :
  dict_get K_eqb (dict_set K_eqb d k v) k = Some v.
Proof.
  induction d as [|[k' v'] d IH]; simpl.
  - now rewrite K_eqb_refl.
  - destruct (K_eqb k k') eqn:E; simpl; rewrite E; auto.
Qed.

Lemma dict_get_set_other (d : list (K * V)) (k k' : K) (v : V) :
  k' <> k -> dict_get K_eqb (dict_set K_eqb d k v) k' = dict_get K_eqb d k'.
Proof.
  intros Hne. induction d as [|[k0 v0] d IH]; simpl.
  - destruct (K_eqb k' k) eqn:E; [apply K_eqb_eq in E; contradiction | reflexivity].
  - destruct (K_eqb k k0) eqn:E; simpl.
    + apply K_eqb_eq in E. subst k0.
      destruct (K_eqb k' k) eqn:E'; [apply K_eqb_eq in E'; contradiction | reflexivity].
    + now rewrite IH.
Qed.

End DictFacts.

Lemma set_mem_In (A : Type) (A_eqb : A -> A -> bool)
  (A_eqb_eq : forall a b, A_eqb a b = true <-> a = b) (x : A) (s : list A) :
  set_mem A_eqb x s = true <-> In x s.
Proof.
  unfold set_mem. rewrite existsb_exists. split.
  - intros [y [Hy E]]. apply A_eqb_eq in E. now subst.
  - intros H. exists x. split; [assumption | now apply A_eqb_eq].
Qed.

Lemma set_mem_string (x : string) (s : list string) :
  set_mem String.eqb x s = true <-> In x s.
Proof. apply set_mem_In, String.eqb_eq. Qed.

Lemma set_mem_LogicalQubit (x : LogicalQubit.t) (s : list LogicalQubit.t) :
  set_mem LogicalQubit.eqb x s = true <-> In x s.
Proof. apply set_mem_In, LogicalQubit_eqb_eq. Qed.

Lemma first_added_NoDup (A : Type) (dec : forall x y : A, {x = y} + {x <> y})
  (l : list A) : NoDup (first_added dec l).
Proof. unfold first_added. apply NoDup_rev, NoDup_nodup. Qed.

Lemma first_added_In (A : Type) (dec : forall x y : A, {x = y} + {x <> y})
  (l : list A) (x : A) : In x (first_added dec l) <-> In x l.
Proof. unfold first_added. now rewrite <- in_rev, nodup_In, <- in_rev. Qed.

(** The order used to run the model on concrete inputs. *)
Definition insertion_order : SetOrder := {|
  set_iter := first_added;
  set_iter_NoDup := first_added_NoDup;
  set_iter_In := first_added_In
|}.

Lemma set_iter_nil (SO : SetOrder) (A : Type) (dec : forall x y : A, {x = y} + {x <> y}) :
  set_iter dec [] = [].
Proof.
  destruct (set_iter dec []) as [|x l] eqn:E; [reflexivity|].
  exfalso. apply (proj1 (set_iter_In dec [] x)). rewrite E. now left.
Qed.

Lemma set_iter_nonempty (SO : SetOrder) (A : Type)
  (dec : forall x y : A, {x = y} + {x <> y}) (l : list A) :
  l <> [] -> set_iter dec l <> [].
Proof.
  destruct l as [|x l]; [congruence|]. intros _ E.
  assert (H : In x (set_iter dec (x :: l))) by (apply set_iter_In; now left).
  rewrite E in H. destruct H.
Qed.

(* ------------------------------------------------------------------ *)
(** ** Front layer *)

Lemma only_gates_cons (op : Operation) (ir : QMapIR) :
  only_gates (op :: ir) -> is_router_op op = false /\ only_gates ir.
Proof.
  intros H. split; [apply H; now left | intros o Ho; apply H; now right].
Qed.

Lemma front_walk_loop (ops : list Operation) :
  only_gates ops ->
  forall F U U', (forall x, In x U <-> In x U') ->
  front_walk U F ops (build_front_layer_loop ops F U').
Proof.
  induction ops as [|op rest IH]; intros Hg F U U' HU; simpl.
  - constructor.
  - apply only_gates_cons in Hg as [Hop Hrest].
    destruct op as [g|g|g|g]; simpl in Hop; try discriminate.
    + apply walk_skip. now apply IH.
    + destruct (set_mem LogicalQubit.eqb (TryTwoQubitOp.control g) U') eqn:Ec; simpl.
      { apply walk_stop. left. apply HU. now apply set_mem_LogicalQubit. }
      destruct (set_mem LogicalQubit.eqb (TryTwoQubitOp.target g) U') eqn:Et; simpl.
      { apply walk_stop. right. apply HU. now apply set_mem_LogicalQubit. }
      assert (Hc : ~ In (TryTwoQubitOp.control g) U').
      { rewrite <- set_mem_LogicalQubit. congruence. }
      assert (Ht : ~ In (TryTwoQubitOp.target g) U').
      { rewrite <- set_mem_LogicalQubit. congruence. }
      apply walk_append; [now rewrite HU | now rewrite HU |].
      apply IH; [assumption|]. intros x. unfold set_add.
      rewrite !in_app_iff. simpl. rewrite HU. tauto.
Qed.

Lemma front_walk_functional U F ops R1 R2 :
  front_walk U F ops R1 -> front_walk U F ops R2 -> R1 = R2.
Proof.
  intros H1. revert R2.
  induction H1 as [U F|U F g rest R H IH|U F g rest R Hc Ht H IH|U F g rest Hu];
    intros R2 H2; inversion H2; subst; auto; tauto.
Qed.

(** C6.  On an input IR the front layer the router builds is exactly the
    result of the walk of the specification: single-qubit gates are skipped
    without touching the used set, a two-qubit gate on two unused qubits is
    appended and marks both, and the first two-qubit gate that meets a used
    qubit ends the walk. *)
Theorem build_front_layer_walk (ops : list Operation) (R : list TryTwoQubitOp.t) :
  only_gates ops ->
  (front_walk [] [] ops R <-> build_front_layer ops = R).
Proof.
  intros Hg.
  assert (Hw : front_walk [] [] ops (build_front_layer ops)).
  { apply front_walk_loop; [assumption | tauto]. }
  split.
  - intros H. eapply front_walk_functional; eassumption.
  - now intros <-.
Qed.

(* ------------------------------------------------------------------ *)
(** ** Layout *)

Lemma layout_get_Some_iff (l : Layout) (lq : LogicalQubit.t) :
  (exists pq, layout_get l lq = Some pq) <-> In lq (dict_keys l).
Proof. apply dict_get_Some_iff, LogicalQubit_eqb_eq. Qed.

Lemma layout_get_keys (l l' : Layout) (lq : LogicalQubit.t) (pq : PhysicalQubit.t) :
  dict_keys l' = dict_keys l -> layout_get l lq = Some pq ->
  exists pq', layout_get l' lq = Some pq'.
Proof.
  intros Hk H. apply layout_get_Some_iff. rewrite Hk.
  apply layout_get_Some_iff. now exists pq.
Qed.

Lemma find_occupants_keys (l : Layout) (pq1 pq2 : PhysicalQubit.t) :
  (forall lq, fst (find_occupants l pq1 pq2) = Some lq -> In lq (dict_keys l)) /\
  (forall lq, snd (find_occupants l pq1 pq2) = Some lq -> In lq (dict_keys l)).
Proof.
  unfold find_occupants.
  assert (G : forall (items : Layout) found,
             (forall lq, fst found = Some lq -> In lq (dict_keys l)) ->
             (forall lq, snd found = Some lq -> In lq (dict_keys l)) ->
             (forall item, In item items -> In (fst item) (dict_keys l)) ->
             let r := fold_left
                        (fun found item =>
                           if PhysicalQubit.eqb (snd item) pq1
                           then (Some (fst item), snd found)
                           else if PhysicalQubit.eqb (snd item) pq2
                                then (fst found, Some (fst item))
                                else found) items found in
             (forall lq, fst r = Some lq -> In lq (dict_keys l)) /\
             (forall lq, snd r = Some lq -> In lq (dict_keys l))).
  { induction items as [|item items IH]; intros found H1 H2 Hin; simpl; [auto|].
    apply IH.
    - destruct (PhysicalQubit.eqb (snd item) pq1); simpl.
      + intros lq [= <-]. apply Hin. now left.
      + destruct (PhysicalQubit.eqb (snd item) pq2); simpl; auto.
    - destruct (PhysicalQubit.eqb (snd item) pq1); simpl; auto.
      destruct (PhysicalQubit.eqb (snd item) pq2); simpl; auto.
      intros lq [= <-]. apply Hin. now left.
    - intros it Hit. apply Hin. now right. }
  apply G; simpl; try discriminate.
  intros item Hin. unfold dict_keys. now apply in_map.
Qed.

(** A swap rewrites values of the layout and leaves its keys as they are. *)
Lemma apply_swap_keys (l : Layout) (pq1 pq2 : PhysicalQubit.t) :
  dict_keys (apply_swap l pq1 pq2) = dict_keys l.
Proof.
  unfold apply_swap.
  destruct (find_occupants_keys l pq1 pq2) as [H1 H2].
  destruct (find_occupants l pq1 pq2) as [[lq1|] [lq2|]]; simpl in *.
  - rewrite !dict_keys_set_present; auto using LogicalQubit_eqb_eq.
    rewrite dict_keys_set_present; auto using LogicalQubit_eqb_eq.
  - rewrite dict_keys_set_present; auto using LogicalQubit_eqb_eq.
  - rewrite dict_keys_set_present; auto using LogicalQubit_eqb_eq.
  - reflexivity.
Qed.

Lemma range_In (n i : Z) : In i (range n) <-> (0 <= i < n)%Z.
Proof.
  unfold range. rewrite in_map_iff. split.
  - intros [k [<- Hk]]. apply in_seq in Hk. lia.
  - intros H. exists (Z.to_nat i). split; [lia | apply in_seq; lia].
Qed.

(** The initial layout is the identity on [[0, num_qubits)]. *)
Lemma initialize_layout_keys (n : Z) :
  dict_keys (initialize_layout n) = map LogicalQubit.mk (range n).
Proof. unfold initialize_layout, dict_keys. rewrite map_map. reflexivity. Qed.

Lemma initialize_layout_get (n i : Z) :
  (0 <= i < n)%Z ->
  layout_get (initialize_layout n) (LogicalQubit.mk i) = Some (PhysicalQubit.mk i).
Proof.
  intros Hi. apply range_In in Hi. unfold initialize_layout, layout_get.
  induction (range n) as [|j l IH]; simpl in *; [contradiction|].
  unfold LogicalQubit.eqb at 1; simpl.
  destruct (Z.eqb_spec i j) as [->|Hne]; [reflexivity|].
  apply IH. destruct Hi; [congruence | assumption].
Qed.

Lemma initialize_layout_get_inv (n : Z) (lq : LogicalQubit.t) (pq : PhysicalQubit.t) :
  layout_get (initialize_layout n) lq = Some pq ->
  (0 <= LogicalQubit.id lq < n)%Z /\ pq = PhysicalQubit.mk (LogicalQubit.id lq).
Proof.
  intros H.
  assert (Hk : In lq (dict_keys (initialize_layout n))).
  { apply layout_get_Some_iff. now exists pq. }
  rewrite initialize_layout_keys in Hk. apply in_map_iff in Hk as [i [<- Hi]].
  apply range_In in Hi. simpl. split; [assumption|].
  rewrite (initialize_layout_get Hi) in H. congruence.
Qed.

(* ------------------------------------------------------------------ *)
(** ** Candidate swaps and selection *)

Section Selection.
Context {SO : SetOrder}.
Variable topology : Topology.

Lemma for_each_app (A S : Type) (body : S -> A -> outcome S) (l1 l2 : list A) (s : S) :
  for_each body (l1 ++ l2) s = (s' <- for_each body l1 s ;; for_each body l2 s').
Proof.
  revert s. induction l1 as [|x l1 IH]; intros s; simpl; [reflexivity|].
  destruct (body s x); simpl; auto.
Qed.

Lemma add_candidate_Return pq cs n cs' :
  add_candidate pq cs n = Return cs' ->
  exists k, cs' = cs ++ [sorted_pair (PhysicalQubit.id pq) k] /\
            neighbor_id n = Return k.
Proof.
  unfold add_candidate.
  destruct (neighbor_id n) as [k| |]; simpl; try discriminate.
  intros [= <-]. now exists k.
Qed.

Lemma neighbor_id_outcome n :
  neighbor_id n <> Raise KeyError /\ neighbor_id n <> OutOfFuel.
Proof.
  unfold neighbor_id, str_index.
  destruct (String.get 1 n) as [c|]; cbn [bind]; [|split; congruence].
  unfold int_of_char.
  destruct ((48 <=? nat_of_ascii c)%nat && (nat_of_ascii c <=? 57)%nat);
    split; congruence.
Qed.

Lemma add_candidate_not_KeyError pq cs n :
  add_candidate pq cs n <> Raise KeyError /\ add_candidate pq cs n <> OutOfFuel.
Proof.
  unfold add_candidate. destruct (neighbor_id_outcome n) as [H1 H2].
  destruct (neighbor_id n); cbn [bind]; split; congruence.
Qed.

Lemma for_each_neighbors_length pq ns cs cs' :
  for_each (add_candidate pq) ns cs = Return cs' ->
  List.length cs' = (List.length cs + List.length ns)%nat.
Proof.
  revert cs. induction ns as [|n ns IH]; intros cs; simpl.
  - intros [= <-]. lia.
  - destruct (add_candidate pq cs n) as [c1| |] eqn:E; simpl; try discriminate.
    intros H. apply IH in H. apply add_candidate_Return in E as [k [-> _]].
    rewrite length_app in H. simpl in H. lia.
Qed.

Lemma for_each_neighbors_not_KeyError pq ns cs :
  for_each (add_candidate pq) ns cs <> Raise KeyError /\
  for_each (add_candidate pq) ns cs <> OutOfFuel.
Proof.
  revert cs. induction ns as [|n ns IH]; intros cs; simpl; [split; discriminate|].
  destruct (add_candidate_not_KeyError pq cs n) as [H1 H2].
  destruct (add_candidate pq cs n) as [c1| |]; simpl; auto; split; congruence.
Qed.

Lemma candidates_of_length pqs cs cs' :
  for_each (fun candidates pq =>
              for_each (add_candidate pq)
                       (set_iter string_dec (get_neighbors topology (PhysicalQubit.str pq)))
                       candidates) pqs cs = Return cs' ->
  List.length cs' =
  (List.length cs
   + list_sum (map (fun pq => List.length
                                (set_iter string_dec
                                   (get_neighbors topology (PhysicalQubit.str pq)))) pqs))%nat.
Proof.
  revert cs. induction pqs as [|p pqs IH]; intros cs; simpl.
  - intros [= <-]. lia.
  - destruct (for_each (add_candidate p) _ cs) as [c1| |] eqn:E; simpl; try discriminate.
    intros H. apply IH in H. apply for_each_neighbors_length in E. lia.
Qed.

Lemma candidates_of_not_KeyError pqs cs :
  for_each (fun candidates pq =>
              for_each (add_candidate pq)
                       (set_iter string_dec (get_neighbors topology (PhysicalQubit.str pq)))
                       candidates) pqs cs <> Raise KeyError /\
  for_each (fun candidates pq =>
              for_each (add_candidate pq)
                       (set_iter string_dec (get_neighbors topology (PhysicalQubit.str pq)))
                       candidates) pqs cs <> OutOfFuel.
Proof.
  revert cs. induction pqs as [|p pqs IH]; intros cs; simpl; [split; discriminate|].
  destruct (for_each_neighbors_not_KeyError p
              (set_iter string_dec (get_neighbors topology (PhysicalQubit.str p))) cs)
    as [H1 H2].
  destruct (for_each (add_candidate p) _ cs) as [c1| |]; simpl; auto; split; congruence.
Qed.

Lemma list_sum_zero (l : list nat) : list_sum l = 0%nat -> forall n, In n l -> n = 0%nat.
Proof.
  induction l as [|m l IH]; simpl; [intros _ n []|].
  intros H n [<-|Hin]; [lia | apply IH; [lia | assumption]].
Qed.

(** No candidate at all: no physical qubit of the front layer has a neighbour. *)
Lemma candidate_swaps_empty (layout : Layout) (front_layer : list TryTwoQubitOp.t) :
  candidate_swaps topology layout front_layer = Return [] ->
  forall pq, In pq (physical_qubits_in_front layout front_layer) ->
             get_neighbors topology (PhysicalQubit.str pq) = [].
Proof.
  unfold candidate_swaps. intros H pq Hin.
  apply candidates_of_length in H. simpl in H. symmetry in H.
  apply (proj2 (set_iter_In PhysicalQubit_dec _ _)) in Hin.
  pose proof (list_sum_zero _ H) as Hz.
  specialize (Hz (List.length (set_iter string_dec
                                 (get_neighbors topology (PhysicalQubit.str pq))))).
  destruct (get_neighbors topology (PhysicalQubit.str pq)) as [|n ns] eqn:E; [reflexivity|].
  exfalso.
  assert (Hne : set_iter string_dec (n :: ns) <> []) by (apply set_iter_nonempty; discriminate).
  apply Hne, length_zero_iff_nil, Hz.
  apply in_map_iff. exists pq. rewrite E. auto.
Qed.

Lemma fold_set_add_pairs (A B : Type) (f g : A -> B) (l : list A) (init : list B) :
  fold_left (fun s x => set_add (set_add s (f x)) (g x)) l init
  = init ++ flat_map (fun x => [f x; g x]) l.
Proof.
  revert init. induction l as [|x l IH]; intros init; simpl.
  - now rewrite app_nil_r.
  - rewrite IH. unfold set_add. now rewrite <- !app_assoc.
Qed.

Lemma logical_qubits_in_front_In (front_layer : list TryTwoQubitOp.t) (lq : LogicalQubit.t) :
  In lq (logical_qubits_in_front front_layer) <->
  exists g, In g front_layer /\ (lq = TryTwoQubitOp.control g \/ lq = TryTwoQubitOp.target g).
Proof.
  unfold logical_qubits_in_front. rewrite fold_set_add_pairs. simpl.
  rewrite in_flat_map. split.
  - intros [g [Hg [H|[H|[]]]]]; exists g; auto.
  - intros [g [Hg [->| ->]]]; exists g; simpl; auto.
Qed.

Lemma physical_qubits_in_front_In (layout : Layout) (front_layer : list TryTwoQubitOp.t)
  (pq : PhysicalQubit.t) :
  In pq (physical_qubits_in_front layout front_layer) <->
  exists lq, In lq (logical_qubits_in_front front_layer) /\ layout_get layout lq = Some pq.
Proof.
  unfold physical_qubits_in_front.
  assert (G : forall lqs init,
             In pq (fold_left (fun s lq => match layout_get layout lq with
                                           | Some p => set_add s p
                                           | None => s
                                           end) lqs init)
             <-> In pq init \/ exists lq, In lq lqs /\ layout_get layout lq = Some pq).
  { induction lqs as [|lq lqs IH]; intros init; simpl.
    - split; [auto | intros [H|[lq [[] _]]]; assumption].
    - rewrite IH. destruct (layout_get layout lq) as [p|] eqn:E.
      + unfold set_add. rewrite in_app_iff. simpl. split.
        * intros [[H|[<-|[]]]|[lq' [H1 H2]]]; eauto.
        * intros [H|[lq' [[<-|H1] H2]]]; eauto.
          rewrite E in H2. injection H2 as <-. auto.
      + split.
        * intros [H|[lq' [H1 H2]]]; eauto.
        * intros [H|[lq' [[<-|H1] H2]]]; eauto. congruence. }
  rewrite G. simpl. split.
  - intros [[]|[lq [H1 H2]]]. exists lq. split; [|assumption].
    exact (proj1 (set_iter_In LogicalQubit_dec _ _) H1).
  - intros [lq [H1 H2]]. right. exists lq. split; [|assumption].
    exact (proj2 (set_iter_In LogicalQubit_dec _ _) H1).
Qed.

Lemma get_candidate_swaps_not_KeyError layout front_layer :
  get_candidate_swaps topology layout front_layer <> Raise KeyError /\
  get_candidate_swaps topology layout front_layer <> OutOfFuel.
Proof.
  unfold get_candidate_swaps, candidate_swaps.
  destruct (candidates_of_not_KeyError
              (set_iter PhysicalQubit_dec (physical_qubits_in_front layout front_layer)) [])
    as [H1 H2].
  destruct (for_each _ _ []) as [cs| |]; simpl; split; congruence.
Qed.

Lemma get_candidate_swaps_empty layout front_layer :
  get_candidate_swaps topology layout front_layer = Return [] ->
  candidate_swaps topology layout front_layer = Return [].
Proof.
  unfold get_candidate_swaps.
  destruct (candidate_swaps topology layout front_layer) as [cs| |]; simpl; try discriminate.
  intros [= H]. apply map_eq_nil in H. f_equal.
  destruct cs as [|c cs]; [reflexivity|].
  exfalso. revert H. apply set_iter_nonempty. discriminate.
Qed.

(** What the selection loop has found after the candidates [seen]: nothing
    yet, or a candidate of least score among them. *)
Definition best_so_far (layout : Layout) (front_layer : list TryTwoQubitOp.t)
  (seen : list (PhysicalQubit.t * PhysicalQubit.t))
  (best : option InsertSwapOp.t * PyFloat) : Prop :=
  match best with
  | (None, PosInf) => seen = []
  | (Some swap, Finite s) =>
      In (InsertSwapOp.qubit1 swap, InsertSwapOp.qubit2 swap) seen /\
      InsertSwapOp.cost swap
      = fidelity_cost topology (InsertSwapOp.qubit1 swap) (InsertSwapOp.qubit2 swap) /\
      s = combined_score topology layout front_layer
                         (InsertSwapOp.qubit1 swap) (InsertSwapOp.qubit2 swap) /\
      forall c, In c seen ->
                s <= combined_score topology layout front_layer (fst c) (snd c)
  | _ => False
  end.

Lemma select_step_best layout front_layer seen best c :
  best_so_far layout front_layer seen best ->
  best_so_far layout front_layer (seen ++ [c]) (select_step topology layout front_layer best c).
Proof.
  unfold select_step. destruct best as [[swap|] [s|]]; simpl; try tauto.
  - intros (Hin & Hcost & Hs & Hmin).
    destruct (Qle_bool s (combined_score topology layout front_layer (fst c) (snd c)))
      eqn:E; simpl.
    + apply Qle_bool_iff in E. repeat split; auto.
      * apply in_or_app. now left.
      * intros c' Hc'. apply in_app_or in Hc' as [Hc'|[<-|[]]]; auto.
    + assert (Hlt : combined_score topology layout front_layer (fst c) (snd c) < s).
      { apply Qnot_le_lt. intros H. apply Qle_bool_iff in H. congruence. }
      repeat split; auto.
      * apply in_or_app. right. destruct c. now left.
      * intros c' Hc'. apply in_app_or in Hc' as [Hc'|[<-|[]]].
        -- apply Qle_trans with s; [now apply Qlt_le_weak | auto].
        -- apply Qle_refl.
  - intros ->. simpl. repeat split; auto.
    + destruct c. now left.
    + intros c' [<-|[]]. apply Qle_refl.
Qed.

Lemma select_fold_best layout front_layer cands :
  forall seen best,
  best_so_far layout front_layer seen best ->
  best_so_far layout front_layer (seen ++ cands)
              (fold_left (select_step topology layout front_layer) cands best).
Proof.
  induction cands as [|c cands IH]; intros seen best H; simpl.
  - now rewrite app_nil_r.
  - replace (seen ++ c :: cands) with ((seen ++ [c]) ++ cands)
      by (now rewrite <- app_assoc).
    apply IH. now apply select_step_best.
Qed.

(** A returned swap is a candidate, carries the fidelity cost of its edge,
    and no candidate scores less. *)
Lemma select_best_swap_Some layout front_layer swap :
  select_best_swap topology layout front_layer = Return (Some swap) ->
  exists cands,
    get_candidate_swaps topology layout front_layer = Return cands /\
    In (InsertSwapOp.qubit1 swap, InsertSwapOp.qubit2 swap) cands /\
    InsertSwapOp.cost swap
    = fidelity_cost topology (InsertSwapOp.qubit1 swap) (InsertSwapOp.qubit2 swap) /\
    forall c, In c cands ->
      combined_score topology layout front_layer
                     (InsertSwapOp.qubit1 swap) (InsertSwapOp.qubit2 swap)
      <= combined_score topology layout front_layer (fst c) (snd c).
Proof.
  unfold select_best_swap. destruct front_layer as [|g front]; [discriminate|].
  destruct (get_candidate_swaps topology layout (g :: front)) as [cands| |];
    simpl; try discriminate.
  destruct cands as [|c cands]; [discriminate|].
  intros [= H]. exists (c :: cands). split; [reflexivity|].
  pose proof (@select_fold_best layout (g :: front) (c :: cands) [] (None, PosInf) eq_refl)
    as Hb.
  simpl app in Hb. cbn [fold_left] in H, Hb.
  destruct (fold_left _ cands _) as [[sw|] [s|]];
    simpl in H, Hb; try discriminate; try contradiction.
  injection H as ->. destruct Hb as (Hin & Hcost & -> & Hmin). auto.
Qed.

(** With a front layer, no swap is returned only when there is no candidate. *)
Lemma select_best_swap_None layout front_layer :
  front_layer <> [] ->
  select_best_swap topology layout front_layer = Return None ->
  candidate_swaps topology layout front_layer = Return [].
Proof.
  unfold select_best_swap. destruct front_layer as [|g front]; [congruence|]. intros _.
  destruct (get_candidate_swaps topology layout (g :: front)) as [cands| |] eqn:E;
    simpl; try discriminate.
  destruct cands as [|c cands]; [intros _; now apply get_candidate_swaps_empty|].
  intros [= H]. exfalso.
  pose proof (@select_fold_best layout (g :: front) (c :: cands) [] (None, PosInf) eq_refl)
    as Hb.
  simpl app in Hb. cbn [fold_left] in H, Hb.
  destruct (fold_left _ cands _) as [[sw|] [s|]];
    simpl in H, Hb; try discriminate; try contradiction.
Qed.

Lemma select_best_swap_not_KeyError layout front_layer :
  select_best_swap topology layout front_layer <> Raise KeyError /\
  select_best_swap topology layout front_layer <> OutOfFuel.
Proof.
  unfold select_best_swap. destruct front_layer as [|g front]; [split; congruence|].
  destruct (get_candidate_swaps_not_KeyError layout (g :: front)) as [H1 H2].
  destruct (get_candidate_swaps topology layout (g :: front)) as [cands| |];
    simpl; try (split; congruence).
  destruct cands; split; congruence.
Qed.

End Selection.

(* ------------------------------------------------------------------ *)
(** ** The inner loop *)

Section Routing.
Context {SO : SetOrder}.
Variable topology : Topology.

(** [pq1, pq2] are where the layout puts the operands of [op]. *)
Definition tracks (op : TryTwoQubitOp.t) (st : RouteState.t) : Prop :=
  layout_get (RouteState.current_layout st) (TryTwoQubitOp.control op)
  = Some (RouteState.pq1 st) /\
  layout_get (RouteState.current_layout st) (TryTwoQubitOp.target op)
  = Some (RouteState.pq2 st).

Lemma get_physical_qubits_Return (l : Layout) (lq1 lq2 : LogicalQubit.t)
  (pq1 pq2 : PhysicalQubit.t) :
  get_physical_qubits l lq1 lq2 = Return (pq1, pq2) <->
  layout_get l lq1 = Some pq1 /\ layout_get l lq2 = Some pq2.
Proof.
  unfold get_physical_qubits.
  destruct (layout_get l lq1) as [p1|]; [|split; [discriminate | intros [[=] _]]].
  destruct (layout_get l lq2) as [p2|]; [|split; [discriminate | intros [_ [=]]]].
  split; [intros [= -> ->]; auto | intros [[= ->] [= ->]]; reflexivity].
Qed.

Lemma get_physical_qubits_keys (l : Layout) (lq1 lq2 : LogicalQubit.t) :
  In lq1 (dict_keys l) -> In lq2 (dict_keys l) ->
  exists pqs, get_physical_qubits l lq1 lq2 = Return pqs.
Proof.
  intros H1 H2. apply layout_get_Some_iff in H1 as [p1 H1], H2 as [p2 H2].
  exists (p1, p2). now apply get_physical_qubits_Return.
Qed.

Lemma get_physical_qubits_outcome (l : Layout) (lq1 lq2 : LogicalQubit.t) :
  (exists pqs, get_physical_qubits l lq1 lq2 = Return pqs) \/
  get_physical_qubits l lq1 lq2 = Raise KeyError.
Proof.
  unfold get_physical_qubits.
  destruct (layout_get l lq1); [|now right].
  destruct (layout_get l lq2); [left; eauto | now right].
Qed.

(** One round that goes on: it appends the selected swap, applies it to the
    layout, counts it, and looks the operands up again. *)
Lemma swap_round_Some remaining op st st' :
  swap_round topology remaining op st = Return (Some st') ->
  exists swap,
    select_best_swap topology (RouteState.current_layout st) (RouteState.front_layer st)
    = Return (Some swap) /\
    RouteState.current_layout st'
    = apply_swap (RouteState.current_layout st)
                 (InsertSwapOp.qubit1 swap) (InsertSwapOp.qubit2 swap) /\
    RouteState.optimized_ops st' = RouteState.optimized_ops st ++ [OpSwap swap] /\
    RouteState.num_swaps_for_gate st' = S (RouteState.num_swaps_for_gate st) /\
    RouteState.front_layer st' = build_front_layer remaining /\
    tracks op st'.
Proof.
  unfold swap_round.
  destruct (select_best_swap topology _ _) as [[swap|]| |]; simpl; try discriminate.
  destruct (get_physical_qubits _ _ _) as [[p1 p2]| |] eqn:E; simpl; try discriminate.
  intros [= <-]. exists swap. simpl.
  apply get_physical_qubits_Return in E. unfold tracks. simpl. tauto.
Qed.

Lemma swap_round_None remaining op st :
  swap_round topology remaining op st = Return None ->
  select_best_swap topology (RouteState.current_layout st) (RouteState.front_layer st)
  = Return None.
Proof.
  unfold swap_round.
  destruct (select_best_swap topology _ _) as [[swap|]| |]; simpl; try discriminate; auto.
  destruct (get_physical_qubits _ _ _) as [[p1 p2]| |]; simpl; discriminate.
Qed.

Lemma swap_round_not_KeyError remaining op st :
  In (TryTwoQubitOp.control op) (dict_keys (RouteState.current_layout st)) ->
  In (TryTwoQubitOp.target op) (dict_keys (RouteState.current_layout st)) ->
  swap_round topology remaining op st <> Raise KeyError /\
  swap_round topology remaining op st <> OutOfFuel.
Proof.
  intros Hc Ht. unfold swap_round.
  destruct (select_best_swap_not_KeyError topology (RouteState.current_layout st)
              (RouteState.front_layer st)) as [H1 H2].
  destruct (select_best_swap topology _ _) as [[swap|]| |]; simpl;
    try (split; congruence).
  destruct (@get_physical_qubits_keys
              (apply_swap (RouteState.current_layout st) (InsertSwapOp.qubit1 swap)
                          (InsertSwapOp.qubit2 swap))
              (TryTwoQubitOp.control op) (TryTwoQubitOp.target op)) as [pqs E];
    try (now rewrite apply_swap_keys).
  rewrite E. simpl. split; discriminate.
Qed.

(** What is known when the inner loop is over. *)
Record loop_exit (remaining : list Operation) (op : TryTwoQubitOp.t)
  (st st' : RouteState.t) (swaps : list Operation) : Prop := {
  exit_ops : RouteState.optimized_ops st' = RouteState.optimized_ops st ++ swaps;
  exit_swaps : forall o, In o swaps -> is_swap o = true;
  exit_count : RouteState.num_swaps_for_gate st'
               = (RouteState.num_swaps_for_gate st + List.length swaps)%nat;
  exit_keys : dict_keys (RouteState.current_layout st')
              = dict_keys (RouteState.current_layout st);
  exit_same : swaps = [] -> st' = st;
  exit_tracks : tracks op st -> tracks op st';
  exit_front : RouteState.front_layer st = build_front_layer remaining ->
               RouteState.front_layer st' = build_front_layer remaining;
  exit_why : are_adjacent topology (PhysicalQubit.str (RouteState.pq1 st'))
                          (PhysicalQubit.str (RouteState.pq2 st')) = true
             \/ select_best_swap topology (RouteState.current_layout st')
                                 (RouteState.front_layer st') = Return None
}.

Lemma loop_exit_now remaining op st :
  are_adjacent topology (PhysicalQubit.str (RouteState.pq1 st))
               (PhysicalQubit.str (RouteState.pq2 st)) = true
  \/ select_best_swap topology (RouteState.current_layout st)
                      (RouteState.front_layer st) = Return None ->
  loop_exit remaining op st st [].
Proof.
  intros H. constructor; auto using app_nil_r; try (intros o []); simpl; lia.
Qed.

Lemma swap_loop_Return remaining op fuel :
  forall st st',
  swap_loop topology fuel remaining op st = Return st' ->
  exists swaps, loop_exit remaining op st st' swaps.
Proof.
  induction fuel as [|fuel IH]; intros st st'; simpl;
    destruct (are_adjacent topology _ _) eqn:Eadj; try discriminate.
  - intros [= <-]. exists []. apply loop_exit_now. now left.
  - intros [= <-]. exists []. apply loop_exit_now. now left.
  - destruct (swap_round topology remaining op st) as [[st1|]| |] eqn:Er; try discriminate.
    + intros H. apply IH in H as [swaps Hx].
      apply swap_round_Some in Er as (swap & Hsel & Hl & Ho & Hn & Hf & Ht).
      exists (OpSwap swap :: swaps). destruct Hx. constructor.
      * rewrite exit_ops0, Ho. now rewrite <- app_assoc.
      * intros o [<-|Hin]; auto.
      * rewrite exit_count0, Hn. simpl. lia.
      * rewrite exit_keys0, Hl. apply apply_swap_keys.
      * discriminate.
      * auto.
      * auto.
      * assumption.
    + intros [= <-]. apply swap_round_None in Er.
      exists []. apply loop_exit_now. now right.
Qed.

Lemma swap_loop_not_KeyError remaining op fuel :
  forall st,
  In (TryTwoQubitOp.control op) (dict_keys (RouteState.current_layout st)) ->
  In (TryTwoQubitOp.target op) (dict_keys (RouteState.current_layout st)) ->
  swap_loop topology fuel remaining op st <> Raise KeyError.
Proof.
  induction fuel as [|fuel IH]; intros st Hc Ht; simpl;
    destruct (are_adjacent topology _ _); try discriminate.
  destruct (swap_round_not_KeyError remaining op st Hc Ht) as [H1 H2].
  destruct (swap_round topology remaining op st) as [[st1|]| |] eqn:Er;
    try congruence.
  apply swap_round_Some in Er as (swap & _ & Hl & _).
  apply IH; rewrite Hl, apply_swap_keys; assumption.
Qed.

(** The loop is not entered when the operands are adjacent. *)
Lemma swap_loop_adjacent remaining op fuel st :
  are_adjacent topology (PhysicalQubit.str (RouteState.pq1 st))
               (PhysicalQubit.str (RouteState.pq2 st)) = true ->
  swap_loop topology fuel remaining op st = Return st.
Proof. intros H. destruct fuel; simpl; now rewrite H. Qed.

(** More fuel does not change a result. *)
Lemma swap_loop_more_fuel remaining op fuel :
  forall st st' extra,
  swap_loop topology fuel remaining op st = Return st' ->
  swap_loop topology (fuel + extra) remaining op st = Return st'.
Proof.
  induction fuel as [|fuel IH]; intros st st' extra; simpl.
  - destruct (are_adjacent topology _ _) eqn:E; [|discriminate].
    intros [= <-]. now apply swap_loop_adjacent.
  - destruct (are_adjacent topology _ _) eqn:E; [auto|].
    destruct (swap_round topology remaining op st) as [[st1|]| |]; auto; discriminate.
Qed.

(* ------------------------------------------------------------------ *)
(** ** The outer loop *)

Lemma subseq_refl (A : Type) (l : list A) : subseq l l.
Proof. induction l; constructor; assumption. Qed.

Lemma subseq_skip_app (A : Type) (pre l1 l2 : list A) :
  subseq l1 l2 -> subseq l1 (pre ++ l2).
Proof. intros H. induction pre; simpl; [assumption | now constructor]. Qed.

Lemma gates_of_app (l1 l2 : QMapIR) : gates_of (l1 ++ l2) = gates_of l1 ++ gates_of l2.
Proof. apply filter_app. Qed.

Lemma gates_of_swaps (swaps : list Operation) :
  (forall o, In o swaps -> is_swap o = true) -> gates_of swaps = [].
Proof.
  induction swaps as [|o swaps IH]; intros H; simpl; [reflexivity|].
  assert (Ho : is_swap o = true) by (apply H; now left).
  destruct o; simpl in Ho; try discriminate. simpl.
  apply IH. intros o' Hin. apply H. now right.
Qed.

Lemma gates_of_only_gates (ir : QMapIR) : only_gates ir -> gates_of ir = ir.
Proof.
  induction ir as [|op ir IH]; intros H; simpl; [reflexivity|].
  apply only_gates_cons in H as [Hop Hir]. rewrite Hop. simpl. now rewrite IH.
Qed.

(** What [optimize] appends for a two-qubit gate: the swaps of the inner
    loop, a layout annotation when there was a swap, and the gate. *)
Definition annotation (swaps : list Operation) (layout : Layout) : list Operation :=
  match swaps with
  | [] => []
  | _ => [OpLayout (CurrentLayoutOp.mk layout)]
  end.

Lemma emit_gate_shape remaining op st st' swaps :
  RouteState.num_swaps_for_gate st = 0%nat ->
  loop_exit remaining op st st' swaps ->
  emit_gate op st'
  = RouteState.optimized_ops st
    ++ swaps ++ annotation swaps (RouteState.current_layout st') ++ [OpTryTwo op].
Proof.
  intros H0 [Hops _ Hcount _ _ _ _ _]. unfold emit_gate. rewrite Hops, Hcount, H0.
  destruct swaps as [|s swaps]; simpl.
  - now rewrite app_nil_r.
  - rewrite <- !app_assoc. reflexivity.
Qed.

Lemma gates_of_annotation swaps layout : gates_of (annotation swaps layout) = [].
Proof. destruct swaps; reflexivity. Qed.

(** The routed IR extends what was emitted before, keeps every operation of
    the input in order, and adds router operations only. *)
Lemma optimize_loop_Return fuel remaining :
  forall layout out res,
  optimize_loop topology fuel remaining layout out = Return res ->
  exists emitted,
    res = out ++ emitted /\ subseq remaining emitted /\
    gates_of emitted = gates_of remaining.
Proof.
  induction remaining as [|op rest IH]; intros layout out res.
  - simpl. intros [= <-]. exists []. rewrite app_nil_r. repeat split. constructor.
  - assert (Hother : optimize_loop topology fuel rest layout (out ++ [op]) = Return res ->
                     exists emitted,
                       res = out ++ emitted /\ subseq (op :: rest) emitted /\
                       gates_of emitted = gates_of (op :: rest)).
    { intros H. apply IH in H as (em & -> & Hsub & Hg).
      exists (op :: em). rewrite <- app_assoc. repeat split.
      - now constructor.
      - simpl. destruct (is_router_op op); simpl; now rewrite Hg. }
    destruct op as [g|g|g|g]; try exact Hother. clear Hother. simpl.
    destruct (get_physical_qubits layout _ _) as [[p1 p2]| |]; try discriminate.
    destruct (swap_loop topology fuel _ g _) as [st| |] eqn:El; try discriminate.
    apply swap_loop_Return in El as [swaps Hx].
    rewrite (emit_gate_shape (st:=RouteState.mk _ _ _ _ _ _) (eq_refl 0%nat) Hx).
    simpl RouteState.optimized_ops.
    intros H. apply IH in H as (em & -> & Hsub & Hg).
    exists (swaps ++ annotation swaps (RouteState.current_layout st) ++ OpTryTwo g :: em).
    repeat split.
    + rewrite <- !app_assoc. reflexivity.
    + apply subseq_skip_app, subseq_skip_app. now constructor.
    + rewrite !gates_of_app, gates_of_annotation, (@gates_of_swaps swaps (exit_swaps Hx)).
      simpl. now rewrite Hg.
Qed.

Lemma last_layout_app (l1 l2 : list Operation) :
  last_layout (l1 ++ l2)
  = match last_layout l2 with
    | Some l => Some l
    | None => last_layout l1
    end.
Proof.
  induction l1 as [|op l1 IH]; simpl.
  - now destruct (last_layout l2).
  - rewrite IH. now destruct (last_layout l2).
Qed.

Lemma last_layout_swaps (swaps : list Operation) :
  (forall o, In o swaps -> is_swap o = true) -> last_layout swaps = None.
Proof.
  induction swaps as [|o swaps IH]; intros H; simpl; [reflexivity|].
  rewrite IH by (intros o' Ho'; apply H; now right).
  assert (Ho : is_swap o = true) by (apply H; now left).
  destruct o; simpl in Ho; try discriminate. reflexivity.
Qed.

Lemma snoc_split (A : Type) (out pre post : list A) (x y : A) :
  out ++ [x] = pre ++ y :: post ->
  (post = [] /\ pre = out /\ y = x) \/
  (exists post', post = post' ++ [x] /\ out = pre ++ y :: post').
Proof.
  destruct (exists_last (l := y :: post)) as [post' [z E]]; [discriminate|].
  destruct post as [|p post].
  - intros H. apply app_inj_tail in H as [-> ->]. now left.
  - intros H. right.
    destruct (exists_last (l := p :: post)) as [post2 [z2 E2]]; [discriminate|].
    rewrite E2 in H. change (pre ++ y :: post2 ++ [z2]) with (pre ++ (y :: post2) ++ [z2]) in H.
    rewrite app_assoc in H. apply app_inj_tail in H as [-> ->].
    exists post2. split; [assumption | reflexivity].
Qed.

Lemma placed_snoc_other out op :
  placed_by_marks topology out -> (forall g, op <> OpTryTwo g) ->
  placed_by_marks topology (out ++ [op]).
Proof.
  intros H Hop pre g post E.
  apply snoc_split in E as [(_ & _ & E) | (post' & _ & E)].
  - exfalso. now apply (Hop g).
  - now apply (H pre g post').
Qed.

Lemma placed_snoc_gate out l g :
  placed_by_marks topology out -> last_layout out = Some l -> gate_placed topology l g ->
  placed_by_marks topology (out ++ [OpTryTwo g]).
Proof.
  intros H Hl Hg pre g' post E.
  apply snoc_split in E as [(_ & -> & E) | (post' & _ & E)].
  - injection E as ->. now exists l.
  - now apply (H pre g' post').
Qed.

Lemma placed_app_others out others :
  placed_by_marks topology out -> (forall o g, In o others -> o <> OpTryTwo g) ->
  placed_by_marks topology (out ++ others).
Proof.
  revert out. induction others as [|o others IH]; intros out H Ho.
  - now rewrite app_nil_r.
  - replace (out ++ o :: others) with ((out ++ [o]) ++ others)
      by (now rewrite <- app_assoc).
    apply IH.
    + apply placed_snoc_other; [assumption|]. intros g. apply Ho. now left.
    + intros o' g Hin. apply Ho. now right.
Qed.

Lemma build_front_layer_loop_prefix (ops : list Operation) :
  forall F U, exists more, build_front_layer_loop ops F U = F ++ more.
Proof.
  induction ops as [|op ops IH]; intros F U; simpl.
  - exists []. now rewrite app_nil_r.
  - destruct op as [g|g|g|g]; auto.
    destruct (negb _ && negb _).
    + destruct (IH (F ++ [g]) (set_add (set_add U (TryTwoQubitOp.control g))
                                        (TryTwoQubitOp.target g))) as [more ->].
      exists (g :: more). now rewrite <- app_assoc.
    + exists []. now rewrite app_nil_r.
Qed.

(** The gate under the cursor always leads its own front layer. *)
Lemma build_front_layer_head (g : TryTwoQubitOp.t) (rest : list Operation) :
  exists more, build_front_layer (OpTryTwo g :: rest) = g :: more.
Proof.
  unfold build_front_layer. simpl.
  match goal with
  | |- exists more, build_front_layer_loop rest ?F ?U = _ =>
      destruct (build_front_layer_loop_prefix rest F U) as [more ->]
  end.
  now exists more.
Qed.

(** When the inner loop is over, the gate is placed by the current layout. *)
Lemma loop_exit_placed g rest st st' swaps :
  loop_exit (OpTryTwo g :: rest) g st st' swaps ->
  tracks g st ->
  RouteState.front_layer st = build_front_layer (OpTryTwo g :: rest) ->
  gate_placed topology (RouteState.current_layout st') g.
Proof.
  intros Hx Ht Hf.
  destruct (exit_tracks Hx Ht) as [Hc Htg].
  exists (RouteState.pq1 st'), (RouteState.pq2 st'). repeat split; try assumption.
  destruct (exit_why Hx) as [Hadj|Hnone]; [now left | right].
  rewrite (exit_front Hx Hf) in Hnone.
  destruct (build_front_layer_head g rest) as [more Hfront].
  rewrite Hfront in Hnone.
  apply select_best_swap_None in Hnone; [|discriminate].
  pose proof (candidate_swaps_empty _ _ _ Hnone) as Hempty.
  split; apply Hempty; apply physical_qubits_in_front_In.
  - exists (TryTwoQubitOp.control g). split; [|assumption].
    apply logical_qubits_in_front_In. exists g. split; [now left | now left].
  - exists (TryTwoQubitOp.target g). split; [|assumption].
    apply logical_qubits_in_front_In. exists g. split; [now left | now right].
Qed.

(** The invariant of the outer loop behind adjacency on output. *)
Lemma optimize_loop_placed fuel remaining :
  only_gates remaining ->
  forall layout out res,
  placed_by_marks topology out -> last_layout out = Some layout ->
  optimize_loop topology fuel remaining layout out = Return res ->
  placed_by_marks topology res.
Proof.
  induction remaining as [|op rest IH]; intros Hg layout out res Hout Hl.
  - simpl. now intros [= <-].
  - apply only_gates_cons in Hg as [Hop Hrest].
    destruct op as [g|g|g|g]; simpl in Hop; try discriminate; simpl.
    + apply (IH Hrest).
      * apply placed_snoc_other; [assumption | discriminate].
      * now rewrite last_layout_app.
    + destruct (get_physical_qubits layout _ _) as [[p1 p2]| |] eqn:Eq; try discriminate.
      destruct (swap_loop topology fuel _ g _) as [st| |] eqn:El; try discriminate.
      apply swap_loop_Return in El as [swaps Hx].
      apply get_physical_qubits_Return in Eq.
      pose proof (loop_exit_placed Hx Eq eq_refl) as Hplaced.
      rewrite (emit_gate_shape (st:=RouteState.mk _ _ _ _ _ _) (eq_refl 0%nat) Hx).
      simpl RouteState.optimized_ops.
      assert (Hlast : last_layout (out ++ swaps
                                       ++ annotation swaps (RouteState.current_layout st))
                      = Some (RouteState.current_layout st)).
      { destruct swaps as [|s swaps].
        - simpl. rewrite app_nil_r. rewrite (exit_same Hx eq_refl). assumption.
        - rewrite app_assoc, last_layout_app. reflexivity. }
      assert (Hplaced' : placed_by_marks topology
                           (out ++ swaps
                                ++ annotation swaps (RouteState.current_layout st))).
      { apply placed_app_others; [assumption|].
        intros o g' Hin. apply in_app_or in Hin as [Hin|Hin].
        - apply (exit_swaps Hx) in Hin. destruct o; simpl in Hin; discriminate.
        - destruct swaps; simpl in Hin; [contradiction|].
          destruct Hin as [<-|[]]. discriminate. }
      replace (out ++ swaps ++ annotation swaps (RouteState.current_layout st)
                   ++ [OpTryTwo g])
        with ((out ++ swaps ++ annotation swaps (RouteState.current_layout st))
                ++ [OpTryTwo g])
        by (now rewrite <- !app_assoc).
      apply (IH Hrest).
      * eapply placed_snoc_gate; eassumption.
      * now rewrite last_layout_app.
Qed.

(** The only exception a layout lookup can raise is kept away by a layout
    whose keys hold the operands of every two-qubit gate. *)
Lemma optimize_loop_not_KeyError fuel remaining :
  forall layout out,
  (forall lq, In lq (two_qubit_operands remaining) -> In lq (dict_keys layout)) ->
  optimize_loop topology fuel remaining layout out <> Raise KeyError.
Proof.
  induction remaining as [|op rest IH]; intros layout out Hk; [discriminate|].
  destruct op as [g|g|g|g]; simpl; try (apply IH; intros lq Hin; apply Hk; exact Hin).
  assert (Hc : In (TryTwoQubitOp.control g) (dict_keys layout)) by (apply Hk; simpl; auto).
  assert (Ht : In (TryTwoQubitOp.target g) (dict_keys layout)) by (apply Hk; simpl; auto).
  destruct (get_physical_qubits_keys _ _ _ Hc Ht) as [[p1 p2] ->].
  pose proof (@swap_loop_not_KeyError (OpTryTwo g :: rest) g fuel
                (RouteState.mk layout p1 p2 (build_front_layer (OpTryTwo g :: rest)) 0 out)
                Hc Ht) as Hl.
  destruct (swap_loop topology fuel _ g _) as [st| |] eqn:El; try congruence.
  apply swap_loop_Return in El as [swaps Hx].
  apply IH. intros lq Hin. rewrite (exit_keys Hx). simpl.
  apply Hk. simpl. auto.
Qed.

(** With every two-qubit gate already on adjacent qubits the inner loop is
    never entered and the input is copied. *)
Lemma optimize_loop_adjacent fuel remaining :
  forall layout out,
  only_gates remaining ->
  (forall g, In (OpTryTwo g) remaining ->
     exists pq1 pq2,
       layout_get layout (TryTwoQubitOp.control g) = Some pq1 /\
       layout_get layout (TryTwoQubitOp.target g) = Some pq2 /\
       are_adjacent topology (PhysicalQubit.str pq1) (PhysicalQubit.str pq2) = true) ->
  optimize_loop topology fuel remaining layout out = Return (out ++ remaining).
Proof.
  induction remaining as [|op rest IH]; intros layout out Hg Hadj.
  - simpl. now rewrite app_nil_r.
  - apply only_gates_cons in Hg as [Hop Hrest].
    assert (Hadj' : forall g, In (OpTryTwo g) rest ->
              exists pq1 pq2,
                layout_get layout (TryTwoQubitOp.control g) = Some pq1 /\
                layout_get layout (TryTwoQubitOp.target g) = Some pq2 /\
                are_adjacent topology (PhysicalQubit.str pq1) (PhysicalQubit.str pq2) = true).
    { intros g Hin. apply Hadj. now right. }
    destruct op as [g|g|g|g]; simpl in Hop; try discriminate; simpl.
    + rewrite (IH layout (out ++ [OpSingle g]) Hrest Hadj').
      now rewrite <- app_assoc.
    + destruct (Hadj g (or_introl eq_refl)) as (p1 & p2 & Hc & Ht & Ha).
      rewrite (proj2 (get_physical_qubits_Return layout _ _ p1 p2) (conj Hc Ht)).
      rewrite swap_loop_adjacent by exact Ha.
      unfold emit_gate. simpl.
      rewrite (IH layout (out ++ [OpTryTwo g]) Hrest Hadj').
      now rewrite <- app_assoc.
Qed.

End Routing.

(* ------------------------------------------------------------------ *)
(** ** Counting the qubits *)

Lemma referenced_qubits_operands (ir : QMapIR) :
  referenced_qubits ir = gate_operands ir.
Proof.
  unfold referenced_qubits, gate_operands.
  assert (G : forall init,
             fold_left (fun s op =>
                          match op with
                          | OpTryTwo g => set_add (set_add s (TryTwoQubitOp.control g))
                                                  (TryTwoQubitOp.target g)
                          | OpSingle g => set_add s (SingleQubitGateOp.qubit g)
                          | _ => s
                          end) ir init
             = init ++ flat_map (fun op =>
                                   match op with
                                   | OpTryTwo g => [TryTwoQubitOp.control g;
                                                    TryTwoQubitOp.target g]
                                   | OpSingle g => [SingleQubitGateOp.qubit g]
                                   | _ => []
                                   end) ir).
  { induction ir as [|op ir IH]; intros init; simpl.
    - now rewrite app_nil_r.
    - rewrite IH. destruct op; unfold set_add; simpl; now rewrite <- ?app_assoc. }
  apply (G []).
Qed.

Lemma two_qubit_operands_incl (ir : QMapIR) (lq : LogicalQubit.t) :
  In lq (two_qubit_operands ir) -> In lq (gate_operands ir).
Proof.
  unfold two_qubit_operands, gate_operands. rewrite !in_flat_map.
  intros [op [Hin H]]. exists op. split; [assumption|]. destruct op; auto. destruct H.
Qed.

Lemma fold_max_ge (l : list Z) (x : Z) :
  (x <= fold_left Z.max l x)%Z /\ forall y, In y l -> (y <= fold_left Z.max l x)%Z.
Proof.
  revert x. induction l as [|z l IH]; intros x; simpl.
  - split; [lia | intros y []].
  - destruct (IH (Z.max x z)) as [H1 H2]. split; [lia|].
    intros y [<-|Hy]; [lia | auto].
Qed.

Lemma py_max_ge (l : list Z) (m : Z) :
  py_max l = Return m -> forall y, In y l -> (y <= m)%Z.
Proof.
  destruct l as [|x l]; simpl; [discriminate|]. intros [= <-] y [<-|Hy].
  - exact (proj1 (fold_max_ge l x)).
  - exact (proj2 (fold_max_ge l x) y Hy).
Qed.

Section Counting.
Context {SO : SetOrder}.

(** The count is defined, and every referenced qubit lies below it. *)
Lemma count_qubits_covers (logical_qubits : list LogicalQubit.t) :
  exists n, count_qubits logical_qubits = Return n /\
            forall lq, In lq logical_qubits -> (LogicalQubit.id lq < n)%Z.
Proof.
  unfold count_qubits. destruct logical_qubits as [|q qs].
  - exists 0%Z. split; [reflexivity | intros lq []].
  - destruct (py_max (map LogicalQubit.id (set_iter LogicalQubit_dec (q :: qs))))
      as [m| |] eqn:E.
    + exists (m + 1)%Z. split; [reflexivity|]. intros lq Hin.
      assert (LogicalQubit.id lq <= m)%Z; [|lia].
      apply (py_max_ge _ E). apply in_map.
      exact (proj2 (set_iter_In LogicalQubit_dec _ _) Hin).
    + exfalso. unfold py_max in E.
      destruct (set_iter LogicalQubit_dec (q :: qs)) eqn:Es; [|discriminate].
      revert Es. apply set_iter_nonempty. discriminate.
    + exfalso. unfold py_max in E.
      destruct (map _ _); discriminate.
Qed.

End Counting.

(* ------------------------------------------------------------------ *)
(** ** The routing pass *)

(** Shorthands for the gates of the examples. *)
Definition CNOT (control target : Z) : Operation :=
  OpTryTwo (TryTwoQubitOp.mk "CNOT" (LogicalQubit.mk control) (LogicalQubit.mk target)).

Definition gate1 (name : string) (qubit : Z) : Operation :=
  OpSingle (SingleQubitGateOp.mk name (LogicalQubit.mk qubit)).

Section Pass.
Context {SO : SetOrder}.
Variable topology : Topology.

Lemma optimize_Return (fuel : nat) (ir out : QMapIR) :
  optimize topology fuel ir = Return out ->
  exists n,
    count_qubits (referenced_qubits ir) = Return n /\
    optimize_loop topology fuel ir (initialize_layout n)
                  [OpLayout (CurrentLayoutOp.mk (initialize_layout n))] = Return out.
Proof.
  unfold optimize. destruct (count_qubits (referenced_qubits ir)) as [n| |];
    simpl; try discriminate.
  intros H. now exists n.
Qed.

(** C1, amended.  In every IR the pass returns for an input of gates, each
    two-qubit gate read through the most recent layout annotation sits on
    two adjacent physical qubits, unless neither of its two physical qubits
    has any neighbour in the topology: then no candidate swap exists and the
    gate is emitted as it is. *)
Theorem routed_gates_adjacent_or_isolated (fuel : nat) (ir out : QMapIR) :
  only_gates ir ->
  optimize topology fuel ir = Return out ->
  forall pre g post,
    out = pre ++ OpTryTwo g :: post ->
    exists l pq1 pq2,
      last_layout pre = Some l /\
      layout_get l (TryTwoQubitOp.control g) = Some pq1 /\
      layout_get l (TryTwoQubitOp.target g) = Some pq2 /\
      (are_adjacent topology (PhysicalQubit.str pq1) (PhysicalQubit.str pq2) = true \/
       (get_neighbors topology (PhysicalQubit.str pq1) = [] /\
        get_neighbors topology (PhysicalQubit.str pq2) = [])).
Proof.
  intros Hg H pre g post E.
  apply optimize_Return in H as (n & _ & H).
  assert (Hp : placed_by_marks topology out).
  { eapply optimize_loop_placed; try eassumption; [|reflexivity].
    intros pre' g' post' E'. destruct pre' as [|o [|o' pre']]; simpl in E'; discriminate. }
  destruct (Hp pre g post E) as (l & Hl & pq1 & pq2 & H1 & H2 & H3).
  now exists l, pq1, pq2.
Qed.

(** C2.  For an input of gates, the routed IR without its [InsertSwapOp] and
    [CurrentLayoutOp] operations is the input IR: the same operations, with
    the same names and operands, in the same order. *)
Theorem gate_preservation (fuel : nat) (ir out : QMapIR) :
  only_gates ir ->
  optimize topology fuel ir = Return out ->
  gates_of out = ir.
Proof.
  intros Hg H. apply optimize_Return in H as (n & _ & H).
  apply optimize_loop_Return in H as (emitted & -> & _ & He).
  rewrite gates_of_app. simpl. rewrite He. now apply gates_of_only_gates.
Qed.

(** C8.  When every two-qubit gate of an input of gates sits on adjacent
    physical qubits under the identity layout, the pass returns, whatever
    the fuel, the identity layout annotation followed by the input, and the
    routed IR holds no [InsertSwapOp]. *)
Theorem identity_pass_through (fuel : nat) (ir : QMapIR) :
  only_gates ir ->
  (forall g, In (OpTryTwo g) ir ->
     (0 <= LogicalQubit.id (TryTwoQubitOp.control g))%Z /\
     (0 <= LogicalQubit.id (TryTwoQubitOp.target g))%Z /\
     are_adjacent topology
       (PhysicalQubit.str (PhysicalQubit.mk (LogicalQubit.id (TryTwoQubitOp.control g))))
       (PhysicalQubit.str (PhysicalQubit.mk (LogicalQubit.id (TryTwoQubitOp.target g))))
     = true) ->
  exists n out,
    optimize topology fuel ir = Return out /\
    out = OpLayout (CurrentLayoutOp.mk (initialize_layout n)) :: ir /\
    filter is_swap out = [].
Proof.
  intros Hg Hadj.
  destruct (count_qubits_covers (referenced_qubits ir)) as (n & Hn & Hcover).
  exists n, (OpLayout (CurrentLayoutOp.mk (initialize_layout n)) :: ir).
  split; [|split; [reflexivity|]].
  - unfold optimize. rewrite Hn. simpl.
    rewrite optimize_loop_adjacent; [reflexivity | assumption |].
    intros g Hin. destruct (Hadj g Hin) as (Hc & Ht & Ha).
    exists (PhysicalQubit.mk (LogicalQubit.id (TryTwoQubitOp.control g))),
           (PhysicalQubit.mk (LogicalQubit.id (TryTwoQubitOp.target g))).
    assert (Hin' : forall lq, In lq [TryTwoQubitOp.control g; TryTwoQubitOp.target g] ->
                              (LogicalQubit.id lq < n)%Z).
    { intros lq Hlq. apply Hcover. rewrite referenced_qubits_operands.
      unfold gate_operands. apply in_flat_map. exists (OpTryTwo g). now split. }
    split; [|split; [|exact Ha]].
    + destruct (TryTwoQubitOp.control g) as [c] eqn:Ec. simpl in *.
      apply initialize_layout_get. split; [assumption|].
      apply (Hin' (LogicalQubit.mk c)). now left.
    + destruct (TryTwoQubitOp.target g) as [t] eqn:Et. simpl in *.
      apply initialize_layout_get. split; [assumption|].
      apply (Hin' (LogicalQubit.mk t)). right. now left.
  - simpl. clear Hadj Hn Hcover. induction ir as [|op ir IH]; [reflexivity|].
    apply only_gates_cons in Hg as [Hop Hir]. simpl.
    destruct op; simpl in Hop; try discriminate; simpl; auto.
Qed.

(** C9, amended.  The pass checks no well-formedness rule and has no error
    of its own: whenever it returns, the routed IR is the identity layout
    annotation followed by a sequence that holds every operation of the
    input, router operations and gates with equal operands included, in
    input order. *)
Theorem input_emitted_unchecked (fuel : nat) (ir out : QMapIR) :
  optimize topology fuel ir = Return out ->
  exists n emitted,
    out = OpLayout (CurrentLayoutOp.mk (initialize_layout n)) :: emitted /\
    subseq ir emitted.
Proof.
  intros H. apply optimize_Return in H as (n & _ & H).
  apply optimize_loop_Return in H as (emitted & -> & Hsub & _).
  now exists n, emitted.
Qed.

(** C10.  When no gate names a negative logical qubit, no layout lookup of
    the pass fails.  The initial layout is the identity on [[0, n)] with
    [n] one more than the largest referenced id, so its keys hold every
    qubit of every gate, single-qubit gates included; and a swap never
    changes the keys of a layout. *)
Theorem layout_lookups_succeed (fuel : nat) (ir : QMapIR) :
  only_gates ir ->
  (forall lq, In lq (gate_operands ir) -> (0 <= LogicalQubit.id lq)%Z) ->
  optimize topology fuel ir <> Raise KeyError /\
  (exists n,
     count_qubits (referenced_qubits ir) = Return n /\
     dict_keys (initialize_layout n) = map LogicalQubit.mk (range n) /\
     (forall i, (0 <= i < n)%Z ->
        layout_get (initialize_layout n) (LogicalQubit.mk i) = Some (PhysicalQubit.mk i)) /\
     (forall lq, In lq (gate_operands ir) -> In lq (dict_keys (initialize_layout n)))) /\
  (forall l pq1 pq2, dict_keys (apply_swap l pq1 pq2) = dict_keys l).
Proof.
  intros _ Hpos.
  destruct (count_qubits_covers (referenced_qubits ir)) as (n & Hn & Hcover).
  assert (Hkeys : forall lq, In lq (gate_operands ir) ->
                             In lq (dict_keys (initialize_layout n))).
  { intros lq Hin. rewrite initialize_layout_keys. apply in_map_iff.
    exists (LogicalQubit.id lq). split; [now destruct lq|].
    apply range_In. split; [now apply Hpos|].
    apply Hcover. now rewrite referenced_qubits_operands. }
  split; [|split].
  - unfold optimize. rewrite Hn. simpl.
    apply optimize_loop_not_KeyError.
    intros lq Hin. now apply Hkeys, two_qubit_operands_incl.
  - exists n. repeat split; auto using initialize_layout_keys.
    intros i Hi. now apply initialize_layout_get.
  - apply apply_swap_keys.
Qed.

End Pass.

(* ------------------------------------------------------------------ *)
(** ** The pass on concrete circuits *)

Definition layout_of (l : list (Z * Z)) : Layout :=
  map (fun ab => (LogicalQubit.mk (fst ab), PhysicalQubit.mk (snd ab))) l.

Definition MARK (l : list (Z * Z)) : Operation :=
  OpLayout (CurrentLayoutOp.mk (layout_of l)).

Definition SWAP (a b : Z) (cost : Q) : Operation :=
  OpSwap (InsertSwapOp.mk (PhysicalQubit.mk a) (PhysicalQubit.mk b) cost).

Ltac only_gates_now :=
  let op := fresh "op" in
  let H := fresh "H" in
  intros op H; simpl in H;
  repeat (destruct H as [<-|H]; [reflexivity|]); destruct H.

(** C1 fails as stated: on the three-qubit line, [CNOT(3,4)] names two
    physical qubits outside the device.  They have no neighbour, so no swap
    is a candidate, the inner loop breaks at once, and the gate is emitted on
    the non-adjacent pair P3, P4 of the only layout annotation. *)
Lemma unrouted_gate_on_output :
  optimize (SO := insertion_order) LinearTopology 5 [CNOT 3 4]
  = Return [MARK [(0, 0); (1, 1); (2, 2); (3, 3); (4, 4)]; CNOT 3 4]%Z /\
  last_layout [MARK [(0, 0); (1, 1); (2, 2); (3, 3); (4, 4)]%Z]
  = Some (layout_of [(0, 0); (1, 1); (2, 2); (3, 3); (4, 4)]%Z) /\
  layout_get (layout_of [(0, 0); (1, 1); (2, 2); (3, 3); (4, 4)]%Z) (LogicalQubit.mk 3)
  = Some (PhysicalQubit.mk 3) /\
  layout_get (layout_of [(0, 0); (1, 1); (2, 2); (3, 3); (4, 4)]%Z) (LogicalQubit.mk 4)
  = Some (PhysicalQubit.mk 4) /\
  are_adjacent LinearTopology (PhysicalQubit.str (PhysicalQubit.mk 3))
               (PhysicalQubit.str (PhysicalQubit.mk 4)) = false.
Proof. repeat split; vm_compute; reflexivity. Qed.

(** The amended C1 on the line: [CNOT(0,2)] is routed with one swap, and the
    gate is adjacent under the annotation that follows the swap. *)
Lemma routed_gates_adjacent_or_isolated_witness :
  exists l pq1 pq2,
    last_layout [MARK [(0, 0); (1, 1); (2, 2)]; SWAP 0 1 (1 - 1);
                 MARK [(0, 1); (1, 0); (2, 2)]]%Z = Some l /\
    layout_get l (LogicalQubit.mk 0) = Some pq1 /\
    layout_get l (LogicalQubit.mk 2) = Some pq2 /\
    (are_adjacent LinearTopology (PhysicalQubit.str pq1) (PhysicalQubit.str pq2) = true \/
     (get_neighbors LinearTopology (PhysicalQubit.str pq1) = [] /\
      get_neighbors LinearTopology (PhysicalQubit.str pq2) = [])).
Proof.
  apply (@routed_gates_adjacent_or_isolated insertion_order LinearTopology 5
           [CNOT 0 2]
           [MARK [(0, 0); (1, 1); (2, 2)]; SWAP 0 1 (1 - 1);
            MARK [(0, 1); (1, 0); (2, 2)]; CNOT 0 2]%Z
           ltac:(only_gates_now) ltac:(vm_compute; reflexivity)
           [MARK [(0, 0); (1, 1); (2, 2)]; SWAP 0 1 (1 - 1);
            MARK [(0, 1); (1, 0); (2, 2)]]%Z
           (TryTwoQubitOp.mk "CNOT" (LogicalQubit.mk 0) (LogicalQubit.mk 2)) []).
  reflexivity.
Defined.

Lemma gate_preservation_witness :
  gates_of [MARK [(0, 0); (1, 1); (2, 2)]; gate1 "H" 0; SWAP 0 1 (1 - 1);
            MARK [(0, 1); (1, 0); (2, 2)]; CNOT 0 2]%Z
  = [gate1 "H" 0; CNOT 0 2].
Proof.
  apply (@gate_preservation insertion_order LinearTopology 5 [gate1 "H" 0; CNOT 0 2]).
  - only_gates_now.
  - vm_compute. reflexivity.
Defined.

Lemma identity_pass_through_witness :
  exists n out,
    optimize (SO := insertion_order) LinearTopology 0 [CNOT 0 1; CNOT 1 2] = Return out /\
    out = OpLayout (CurrentLayoutOp.mk (initialize_layout n)) :: [CNOT 0 1; CNOT 1 2] /\
    filter is_swap out = [].
Proof.
  apply (@identity_pass_through insertion_order LinearTopology 0 [CNOT 0 1; CNOT 1 2]).
  - only_gates_now.
  - intros g H. simpl in H.
    destruct H as [[= <-]|[[= <-]|[]]]; simpl; repeat split; try lia; reflexivity.
Defined.

(** C9 fails as stated: [CNOT(3,3)] has equal control and target, yet the
    pass raises nothing and returns a routed IR that holds the gate. *)
Lemma malformed_input_is_routed :
  optimize (SO := insertion_order) LinearTopology 5 [CNOT 3 3]
  = Return [MARK [(0, 0); (1, 1); (2, 2); (3, 3)]; CNOT 3 3]%Z /\
  TryTwoQubitOp.control (TryTwoQubitOp.mk "CNOT" (LogicalQubit.mk 3) (LogicalQubit.mk 3))
  = TryTwoQubitOp.target (TryTwoQubitOp.mk "CNOT" (LogicalQubit.mk 3) (LogicalQubit.mk 3)).
Proof. split; vm_compute; reflexivity. Qed.

(** The amended C9 on an input that holds a router operation. *)
Lemma input_emitted_unchecked_witness :
  exists n emitted,
    [MARK [(0, 0); (1, 1)]; SWAP 0 1 0; CNOT 0 1]%Z
    = OpLayout (CurrentLayoutOp.mk (initialize_layout n)) :: emitted /\
    subseq [SWAP 0 1 0; CNOT 0 1] emitted.
Proof.
  apply (@input_emitted_unchecked insertion_order LinearTopology 5
           [SWAP 0 1 0; CNOT 0 1]).
  vm_compute. reflexivity.
Defined.

Lemma layout_lookups_succeed_witness :
  optimize (SO := insertion_order) LinearTopology 5 [gate1 "H" 4; CNOT 0 2]
  <> Raise KeyError /\
  (exists n,
     count_qubits (SO := insertion_order) (referenced_qubits [gate1 "H" 4; CNOT 0 2])
     = Return n /\
     dict_keys (initialize_layout n) = map LogicalQubit.mk (range n) /\
     (forall i, (0 <= i < n)%Z ->
        layout_get (initialize_layout n) (LogicalQubit.mk i) = Some (PhysicalQubit.mk i)) /\
     (forall lq, In lq (gate_operands [gate1 "H" 4; CNOT 0 2]) ->
                 In lq (dict_keys (initialize_layout n)))) /\
  (forall l pq1 pq2, dict_keys (apply_swap l pq1 pq2) = dict_keys l).
Proof.
  apply (@layout_lookups_succeed insertion_order LinearTopology 5
           [gate1 "H" 4; CNOT 0 2]).
  - only_gates_now.
  - intros lq H. simpl in H. destruct H as [<-|[<-|[<-|[]]]]; simpl; lia.
Defined.

Lemma build_front_layer_walk_witness :
  front_walk [] []
    [gate1 "H" 0; CNOT 0 1; gate1 "X" 1; CNOT 2 3; CNOT 1 2; CNOT 4 5]
    [TryTwoQubitOp.mk "CNOT" (LogicalQubit.mk 0) (LogicalQubit.mk 1);
     TryTwoQubitOp.mk "CNOT" (LogicalQubit.mk 2) (LogicalQubit.mk 3)].
Proof.
  apply (proj2 (@build_front_layer_walk
                  [gate1 "H" 0; CNOT 0 1; gate1 "X" 1; CNOT 2 3; CNOT 1 2; CNOT 4 5]
                  _ ltac:(only_gates_now))).
  reflexivity.
Defined.

(* ------------------------------------------------------------------ *)
(** ** Topology queries *)

Lemma are_adjacent_edge (topo : Topology) (a b : string) :
  are_adjacent topo a b = true <-> edge topo a b.
Proof.
  unfold are_adjacent, edge, get_neighbors, dict_get_default, graph_get.
  destruct (dict_get String.eqb (coupling_graph topo) a) as [s|].
  - apply set_mem_string.
  - simpl. split; [discriminate | tauto].
Qed.

Lemma get_neighbors_labels (topo : Topology) (q n : string) :
  In n (get_neighbors topo q) -> In n (graph_labels topo).
Proof.
  unfold get_neighbors, dict_get_default, graph_labels.
  destruct (dict_get String.eqb (coupling_graph topo) q) as [s|] eqn:E; [|intros []].
  intros H. apply in_flat_map. exists (q, s). split; [|assumption].
  apply (@dict_get_In _ _ String.eqb String.eqb_eq _ _ _ E).
Qed.

(** Queries on a label the graph does not know. *)
Lemma unknown_neighbors (topo : Topology) (q : string) :
  unknown topo q -> get_neighbors topo q = [].
Proof.
  intros [H _]. unfold get_neighbors, dict_get_default.
  unfold graph_get in H. now rewrite H.
Qed.

Lemma unknown_not_adjacent (topo : Topology) (a b : string) :
  unknown topo a \/ unknown topo b -> are_adjacent topo a b = false.
Proof.
  intros H. destruct (are_adjacent topo a b) eqn:E; [|reflexivity].
  apply are_adjacent_edge in E. unfold edge in E. destruct H as [H|H].
  - rewrite (unknown_neighbors H) in E. destruct E.
  - destruct H as [_ H]. exfalso. apply H. eapply get_neighbors_labels; eassumption.
Qed.

Lemma path_nonempty (topo : Topology) (a b : string) (p : list string) :
  path topo a b p -> p <> [].
Proof. intros [|c d q _ _]; [discriminate | now destruct q]. Qed.

Lemma path_not_from_unknown (topo : Topology) (a b : string) (p : list string) :
  path topo a b p -> unknown topo a \/ unknown topo b -> a = b.
Proof.
  intros Hp Hu. induction Hp as [|b c p Hp IH He]; [reflexivity|].
  exfalso. destruct Hu as [Hu|Hu].
  - assert (a = b) by (apply IH; now left). subst b.
    unfold edge in He. rewrite (unknown_neighbors Hu) in He. destruct He.
  - destruct Hu as [_ Hu]. apply Hu. eapply get_neighbors_labels; eassumption.
Qed.

Section BfsFacts.
Context {SO : SetOrder}.
Variable topo : Topology.


Lemma bfs_for_inl (end_ : string) (path0 : list string) (neighbors : list string) :
  forall visited queue r,
  bfs_for end_ path0 neighbors visited queue = inl r ->
  r = path0 ++ [end_] /\ In end_ neighbors.
Proof.
  induction neighbors as [|n ns IH]; intros visited queue r; simpl; [discriminate|].
  destruct (String.eqb_spec n end_) as [->|Hne].
  - intros [= <-]. auto.
  - destruct (negb (set_mem String.eqb n visited)); intros H; apply IH in H; tauto.
Qed.

(** A full round of the [for] loop: the labels met for the first time are
    marked visited and queued with their paths, in the same order. *)
Lemma bfs_for_inr (end_ : string) (path0 : list string) (neighbors : list string) :
  forall visited queue visited' queue',
  bfs_for end_ path0 neighbors visited queue = inr (visited', queue') ->
  exists added,
    visited' = visited ++ added /\
    queue' = queue ++ map (fun n => (n, path0 ++ [n])) added /\
    incl added neighbors /\
    (NoDup visited -> NoDup visited').
Proof.
  induction neighbors as [|n ns IH]; intros visited queue visited' queue'; simpl.
  - intros [= <- <-]. exists []. rewrite !app_nil_r. repeat split; auto. intros x [].
  - destruct (String.eqb n end_); [discriminate|].
    destruct (set_mem String.eqb n visited) eqn:Em; simpl; intros H;
      apply IH in H as (added & -> & -> & Hincl & Hnd).
    + exists added. repeat split; auto. intros x Hx. right. now apply Hincl.
    + exists (n :: added). unfold set_add. rewrite <- !app_assoc. simpl.
      repeat split; auto.
      * intros x [<-|Hx]; [now left | right; now apply Hincl].
      * intros Hv. unfold set_add in Hnd. rewrite <- app_assoc in Hnd. simpl in Hnd.
        apply Hnd.
        apply NoDup_app; [assumption | repeat constructor; intros [] |].
        intros x Hx [E|[]]. subst x.
        apply (proj2 (set_mem_string n visited)) in Hx. congruence.
Qed.

(** Every queued path is a path of the graph from [start]. *)
Definition queue_sound (start : string) (queue : BfsQueue) : Prop :=
  forall c p, In (c, p) queue -> path topo start c p.

Lemma bfs_while_sound (start end_ : string) (fuel : nat) :
  forall visited queue r,
  queue_sound start queue ->
  bfs_while fuel topo end_ visited queue = Some r ->
  r = [] \/ path topo start end_ r.
Proof.
  induction fuel as [|fuel IH]; intros visited queue r Hq;
    destruct queue as [|[c p] queue]; simpl; try discriminate;
    try (intros [= <-]; now left).
  assert (Hc : path topo start c p) by (apply Hq; now left).
  assert (Hnb : forall n, In n (set_iter string_dec (get_neighbors topo c)) -> edge topo c n).
  { intros n Hn. exact (proj1 (set_iter_In string_dec _ _) Hn). }
  destruct (bfs_for end_ p _ visited queue) as [found|[visited' queue']] eqn:E.
  - intros [= <-]. right. apply bfs_for_inl in E as [-> Hin].
    econstructor; [eassumption | now apply Hnb].
  - apply IH. apply bfs_for_inr in E as (added & _ & -> & Hincl & _).
    intros c' p' Hin. apply in_app_or in Hin as [Hin|Hin].
    + apply Hq. now right.
    + apply in_map_iff in Hin as (n & [= <- <-] & Hn).
      econstructor; [eassumption | now apply Hnb, Hincl].
Qed.

(** The fuel of [shortest_path] is never used up: each round takes one
    entry off the queue, and an entry is queued once per label. *)
Lemma bfs_while_fuel (end_ : string) (universe : list string) (fuel : nat) :
  forall visited queue,
  NoDup visited -> incl visited universe ->
  incl (graph_labels topo) universe ->
  (List.length queue + (List.length universe - List.length visited) <= fuel)%nat ->
  bfs_while fuel topo end_ visited queue <> None.
Proof.
  induction fuel as [|fuel IH]; intros visited queue Hnd Hincl Hlab Hlen;
    destruct queue as [|[c p] queue]; simpl; try discriminate.
  - simpl in Hlen. lia.
  - destruct (bfs_for end_ p _ visited queue) as [found|[visited' queue']] eqn:E;
      [discriminate|].
    apply bfs_for_inr in E as (added & -> & -> & Hadd & Hnd').
    specialize (Hnd' Hnd).
    assert (Hincl' : incl (visited ++ added) universe).
    { apply incl_app; [assumption|]. intros x Hx. apply Hlab.
      apply get_neighbors_labels with c.
      exact (proj1 (set_iter_In string_dec _ _) (Hadd x Hx)). }
    apply IH; try assumption.
    pose proof (NoDup_incl_length Hnd' Hincl') as Hle.
    rewrite length_app in Hle. rewrite !length_app, length_map. simpl in Hlen. lia.
Qed.

Lemma shortest_path_terminates (start end_ : string) :
  bfs_while (bfs_fuel topo) topo end_ [start] [(start, [start])] <> None.
Proof.
  apply bfs_while_fuel with (universe := start :: graph_labels topo).
  - repeat constructor. intros [].
  - intros x [<-|[]]. now left.
  - intros x Hx. now right.
  - unfold bfs_fuel. simpl. lia.
Qed.

Lemma shortest_path_same (a : string) : shortest_path topo a a = [a].
Proof. unfold shortest_path. now rewrite String.eqb_refl. Qed.


Lemma shortest_path_sound (a b : string) :
  shortest_path topo a b <> [] -> path topo a b (shortest_path topo a b).
Proof.
  unfold shortest_path. destruct (String.eqb_spec a b) as [->|Hne].
  - intros _. constructor.
  - destruct (bfs_while _ topo b [a] [(a, [a])]) as [r|] eqn:E; [|congruence].
    apply bfs_while_sound with (start := a) in E.
    + destruct E as [->|E]; [congruence | auto].
    + intros c p [[= <- <-]|[]]. constructor.
Qed.

Lemma shortest_path_disconnected (a b : string) :
  ~ connected topo a b -> shortest_path topo a b = [].
Proof.
  intros H. destruct (shortest_path topo a b) as [|x p] eqn:E; [reflexivity|].
  exfalso. apply H. exists (x :: p). rewrite <- E. apply shortest_path_sound.
  rewrite E. discriminate.
Qed.

Lemma shortest_path_unknown (a b : string) :
  a <> b -> unknown topo a \/ unknown topo b -> shortest_path topo a b = [].
Proof.
  intros Hne Hu. apply shortest_path_disconnected. intros [p Hp].
  apply Hne. eapply path_not_from_unknown; eassumption.
Qed.

End BfsFacts.

(* ------------------------------------------------------------------ *)
(** ** The search finds a shortest path *)

(** The proof follows the levels of the search: [d] is the number of edges
    of the paths at the front of the queue, [P] the labels already taken
    off the queue. *)

Section BfsShortest.
Context {SO : SetOrder}.
Variable topo : Topology.

Lemma bfs_for_rest (end_ : string) (path0 : list string) (neighbors : list string) :
  forall visited queue visited' queue',
  bfs_for end_ path0 neighbors visited queue = inr (visited', queue') ->
  ~ In end_ neighbors /\
  (forall n, In n visited -> In n visited') /\
  (forall n, In n neighbors -> In n visited').
Proof.
  induction neighbors as [|n ns IH]; intros visited queue visited' queue'; simpl.
  - intros [= <- <-]. split; [intros [] | split; [auto | intros n []]].
  - destruct (String.eqb_spec n end_) as [->|Hne]; [discriminate|].
    destruct (set_mem String.eqb n visited) eqn:Em; simpl; intros H;
      apply IH in H as (He & Hv & Hn).
    + repeat split; auto.
      * intros [->|Hin]; [congruence | contradiction].
      * intros m [<-|Hm]; auto. apply Hv. now apply set_mem_string.
    + repeat split; auto.
      * intros [->|Hin]; [congruence | contradiction].
      * intros m Hm. apply Hv. unfold set_add. apply in_or_app. now left.
      * intros m [<-|Hm]; auto. apply Hv. unfold set_add. apply in_or_app. right. now left.
Qed.

Variables s e : string.

Definition reach (n : nat) (x : string) : Prop :=
  exists p, path topo s x p /\ List.length p = S n.

Lemma reach_zero (x : string) : reach 0 x -> x = s.
Proof.
  intros (p & Hp & Hl). destruct Hp as [|b c q Hq He]; [reflexivity|].
  rewrite length_app in Hl. simpl in Hl.
  apply path_nonempty in Hq. destruct q; [congruence | simpl in Hl; lia].
Qed.

Lemma reach_pred (n : nat) (x : string) :
  reach (S n) x -> exists y, reach n y /\ edge topo y x.
Proof.
  intros (p & Hp & Hl). destruct Hp as [|b c q Hq He]; [discriminate|].
  exists b. split; [|assumption]. exists q. split; [assumption|].
  rewrite length_app in Hl. simpl in Hl. lia.
Qed.

Lemma path_reach (x : string) (p : list string) :
  path topo s x p -> exists m, List.length p = S m /\ reach m x.
Proof.
  intros Hp. pose proof (path_nonempty Hp) as Hne.
  destruct p as [|a p]; [congruence|].
  exists (List.length p). split; [reflexivity|]. exists (a :: p). auto.
Qed.

Record bfs_inv (d : nat) (P visited : list string) (q1 q2 : BfsQueue) : Prop := {
  inv_start : In s visited;
  inv_end : ~ In e visited;
  inv_q1 : forall c p, In (c, p) q1 -> path topo s c p /\ List.length p = S d;
  inv_q2 : forall c p, In (c, p) q2 -> path topo s c p /\ List.length p = S (S d);
  inv_visited : forall x, In x visited <-> In x P \/ In x (map fst (q1 ++ q2));
  inv_closed : forall y n, In y P -> edge topo y n -> In n visited;
  inv_below : forall m x, reach m x -> (m < d)%nat -> In x P;
  inv_level : forall x, reach d x -> In x P \/ In x (map fst q1)
}.

Lemma bfs_inv_init : s <> e -> bfs_inv 0 [] [s] [(s, [s])] [].
Proof.
  intros Hne. constructor; simpl.
  - now left.
  - intros [H|[]]. contradiction.
  - intros c p [[= <- <-]|[]]. split; [constructor | reflexivity].
  - intros c p [].
  - intros x. tauto.
  - intros y n [].
  - intros m x _ H. lia.
  - intros x H. right. left. symmetry. now apply reach_zero.
Qed.

Lemma bfs_inv_next_level d P visited q2 :
  bfs_inv d P visited [] q2 -> bfs_inv (S d) P visited q2 [].
Proof.
  intros [Hs He H1 H2 Hv Hc Hb Hl]. constructor; auto.
  - intros c p [].
  - intros x. rewrite Hv. simpl. now rewrite app_nil_r.
  - intros m x Hr Hm. destruct (Nat.eq_dec m d) as [->|Hne].
    + destruct (Hl x Hr) as [H|[]]. assumption.
    + apply (Hb m); [assumption | lia].
  - intros x Hr. apply reach_pred in Hr as (y & Hy & Hyx).
    destruct (Hl y Hy) as [Hy'|[]].
    apply (Hc y x Hy') in Hyx. apply Hv in Hyx. exact Hyx.
Qed.

Lemma bfs_inv_step d P visited c p q1 q2 visited' queue' :
  bfs_inv d P visited ((c, p) :: q1) q2 ->
  bfs_for e p (set_iter string_dec (get_neighbors topo c)) visited (q1 ++ q2)
  = inr (visited', queue') ->
  exists q2', queue' = q1 ++ q2' /\ bfs_inv d (c :: P) visited' q1 q2'.
Proof.
  intros [Hs He H1 H2 Hv Hc Hb Hl] E.
  pose proof (bfs_for_rest _ _ _ _ _ E) as (Hend & Hkeep & Hnb).
  apply bfs_for_inr in E as (added & -> & -> & Hincl & _).
  exists (q2 ++ map (fun n => (n, p ++ [n])) added).
  split; [now rewrite app_assoc|].
  destruct (H1 c p (or_introl eq_refl)) as [Hcp Hlen].
  constructor.
  - apply in_or_app. now left.
  - intros H. apply in_app_or in H as [H|H]; [contradiction|].
    apply Hend. now apply Hincl.
  - intros c' p' H. apply H1. now right.
  - intros c' p' H. apply in_app_or in H as [H|H]; [now apply H2|].
    apply in_map_iff in H as (n & [= <- <-] & Hn). split.
    + econstructor; [eassumption|].
      exact (proj1 (set_iter_In string_dec _ _) (Hincl n Hn)).
    + rewrite length_app. simpl. lia.
  - intros x. rewrite in_app_iff, Hv. simpl.
    rewrite !map_app, !in_app_iff, map_map. simpl. rewrite map_id. tauto.
  - intros y n [<-|Hy] Hyn.
    + apply Hnb. exact (proj2 (set_iter_In string_dec _ _) Hyn).
    + apply in_or_app. left. eapply Hc; eassumption.
  - intros m x Hr Hm. right. eapply Hb; eassumption.
  - intros x Hr. destruct (Hl x Hr) as [H|[<-|H]]; simpl; auto.
Qed.

Lemma bfs_inv_found d P visited c p q1 q2 r :
  bfs_inv d P visited ((c, p) :: q1) q2 ->
  bfs_for e p (set_iter string_dec (get_neighbors topo c)) visited (q1 ++ q2) = inl r ->
  path topo s e r /\ forall p', path topo s e p' -> (List.length r <= List.length p')%nat.
Proof.
  intros [Hs He H1 H2 Hv Hc Hb Hl] E.
  apply bfs_for_inl in E as [-> Hin].
  destruct (H1 c p (or_introl eq_refl)) as [Hcp Hlen]. split.
  - econstructor; [eassumption|]. exact (proj1 (set_iter_In string_dec _ _) Hin).
  - intros p' Hp'. rewrite length_app. simpl.
    apply path_reach in Hp' as (m & -> & Hr).
    destruct (Nat.lt_ge_cases m (S d)) as [Hlt|Hge]; [exfalso | lia].
    apply He, Hv. destruct (Nat.eq_dec m d) as [->|Hne].
    + destruct (Hl e Hr) as [H|H]; [now left | right].
      rewrite map_app. apply in_or_app. now left.
    + left. apply (Hb m); [assumption | lia].
Qed.

Lemma bfs_inv_empty d P visited :
  bfs_inv d P visited [] [] -> ~ connected topo s e.
Proof.
  intros [Hs He H1 H2 Hv Hc Hb Hl] [p Hp].
  assert (G : forall x q, path topo s x q -> In x P).
  { intros x q Hq. induction Hq as [|b c q Hq IH Hbc].
    - apply Hv in Hs. destruct Hs as [H|[]]. assumption.
    - apply (Hc b c IH) in Hbc. apply Hv in Hbc. destruct Hbc as [H|[]]. assumption. }
  apply He, Hv. left. eapply G; eassumption.
Qed.

Lemma bfs_while_shortest (fuel : nat) :
  forall visited queue r,
  (exists d P q1 q2, queue = q1 ++ q2 /\ bfs_inv d P visited q1 q2) ->
  bfs_while fuel topo e visited queue = Some r ->
  (r = [] /\ ~ connected topo s e) \/
  (path topo s e r /\
   forall p', path topo s e p' -> (List.length r <= List.length p')%nat).
Proof.
  induction fuel as [|fuel IH]; intros visited queue r (d & P & q1 & q2 & -> & Hinv).
  - destruct (q1 ++ q2) as [|[c p] q] eqn:E; simpl; [|discriminate].
    intros [= <-]. left. split; [reflexivity|].
    apply app_eq_nil in E as [-> ->]. eapply bfs_inv_empty; eassumption.
  - assert (Hnorm : q1 ++ q2 = [] \/
                    exists d' c p q1' q2', q1 ++ q2 = (c, p) :: q1' ++ q2' /\
                                           bfs_inv d' P visited ((c, p) :: q1') q2').
    { destruct q1 as [|[c p] q1].
      - destruct q2 as [|[c p] q2]; [now left | right].
        exists (S d), c, p, q2, []. split; [simpl; now rewrite app_nil_r|].
        now apply bfs_inv_next_level.
      - right. exists d, c, p, q1, q2. auto. }
    destruct Hnorm as [E|(d' & c & p & q1' & q2' & E & Hinv')].
    + rewrite E. simpl. intros [= <-]. left. split; [reflexivity|].
      apply app_eq_nil in E as [-> ->]. eapply bfs_inv_empty; eassumption.
    + rewrite E. simpl.
      destruct (bfs_for e p _ visited (q1' ++ q2')) as [found|[visited' queue']] eqn:Ef.
      * intros [= <-]. right. eapply bfs_inv_found; eassumption.
      * destruct (bfs_inv_step Hinv' Ef) as (q2'' & -> & Hinv'').
        apply IH. exists d', (c :: P), q1', q2''. auto.
Qed.

End BfsShortest.

Section ShortestPath.
Context {SO : SetOrder}.
Variable topo : Topology.

(** [shortest_path] answers [[]] exactly when no path exists, and otherwise
    a path with the fewest nodes. *)
Lemma shortest_path_minimal (a b : string) :
  (shortest_path topo a b = [] <-> ~ connected topo a b) /\
  (forall p, path topo a b p ->
     path topo a b (shortest_path topo a b) /\
     (List.length (shortest_path topo a b) <= List.length p)%nat).
Proof.
  unfold shortest_path. destruct (String.eqb_spec a b) as [->|Hne].
  - split.
    + split; [discriminate|]. intros H. exfalso. apply H. exists [b]. constructor.
    + intros p Hp. split; [constructor|].
      apply path_nonempty in Hp. destruct p; [congruence | simpl; lia].
  - pose proof (shortest_path_terminates topo a b) as Hterm.
    destruct (bfs_while (bfs_fuel topo) topo b [a] [(a, [a])]) as [r|] eqn:E;
      [|congruence].
    apply bfs_while_shortest with (s := a) in E.
    + destruct E as [[-> Hnc]|[Hp Hmin]].
      * split; [tauto|]. intros p Hp. exfalso. apply Hnc. now exists p.
      * split.
        -- split; [intros ->; apply path_nonempty in Hp; congruence|].
           intros Hnc. exfalso. apply Hnc. now exists r.
        -- intros p Hp'. auto.
    + exists 0%nat, [], [(a, [a])], []. split; [reflexivity|]. now apply bfs_inv_init.
Qed.

(** X2.  Breadth-first search is correct: the loop ends within its fuel, the
    answer is empty exactly for unconnected labels, and a non-empty answer
    is a path of the graph that no path undercuts. *)
Theorem shortest_path_correct (a b : string) :
  bfs_while (bfs_fuel topo) topo b [a] [(a, [a])] <> None /\
  (shortest_path topo a b = [] <-> ~ connected topo a b) /\
  (forall p, path topo a b p ->
     path topo a b (shortest_path topo a b) /\
     (List.length (shortest_path topo a b) <= List.length p)%nat).
Proof.
  split; [apply shortest_path_terminates | apply shortest_path_minimal].
Qed.

End ShortestPath.

(* ------------------------------------------------------------------ *)
(** ** Score and selection *)

Section Score.
Context {SO : SetOrder}.
Variable topology : Topology.


Lemma select_best_swap_exists (layout : Layout) (front_layer : list TryTwoQubitOp.t)
  (cands : list (PhysicalQubit.t * PhysicalQubit.t)) :
  front_layer <> [] -> cands <> [] ->
  get_candidate_swaps topology layout front_layer = Return cands ->
  exists swap, select_best_swap topology layout front_layer = Return (Some swap).
Proof.
  intros Hf Hc E.
  destruct (select_best_swap topology layout front_layer) as [[swap|]| |] eqn:Es.
  - now exists swap.
  - exfalso. apply select_best_swap_None in Es; [|assumption].
    unfold get_candidate_swaps in E. rewrite Es in E. simpl in E.
    injection E as <-. apply Hc. now rewrite set_iter_nil.
  - exfalso. unfold select_best_swap in Es. destruct front_layer; [discriminate|].
    rewrite E in Es. simpl in Es. destruct cands; discriminate.
  - exfalso. unfold select_best_swap in Es. destruct front_layer; [discriminate|].
    rewrite E in Es. simpl in Es. destruct cands; discriminate.
Qed.


End Score.


(* ------------------------------------------------------------------ *)
(** ** Fidelity *)

(** The graph the constructor of [HeavyHexTopology] builds. *)
Lemma heavy_hex_graph_built :
  heavy_hex_graph
  = [("P0", ["P1"; "P4"]); ("P1", ["P0"; "P2"]); ("P2", ["P1"; "P6"]);
     ("P3", ["P4"]); ("P4", ["P0"; "P3"; "P5"; "P8"]); ("P5", ["P4"; "P6"]);
     ("P6", ["P2"; "P5"; "P7"; "P10"]); ("P7", ["P6"]); ("P8", ["P4"; "P9"]);
     ("P9", ["P8"; "P10"; "P11"]); ("P10", ["P6"; "P9"]); ("P11", ["P9"; "P12"]);
     ("P12", ["P11"; "P13"]); ("P13", ["P12"])]%string.
Proof. vm_compute. reflexivity. Qed.

Lemma heavy_hex_graph_edges (u v : string) (ns : list string) :
  In (u, ns) heavy_hex_graph -> In v ns ->
  set_mem String.eqb v (dict_get_default String.eqb heavy_hex_graph u []) = true.
Proof.
  rewrite heavy_hex_graph_built. intros Hu Hv. simpl in Hu.
  repeat (destruct Hu as [[= <- <-]|Hu];
          [simpl in Hv;
           repeat (destruct Hv as [<-|Hv]; [vm_compute; reflexivity|]); destruct Hv|]).
  destruct Hu.
Qed.

Lemma heavy_hex_adjacent {SO : SetOrder} (u v : string) (ns : list string) :
  In (u, ns) heavy_hex_graph -> In v ns -> are_adjacent HeavyHexTopology u v = true.
Proof.
  intros Hu Hv. apply are_adjacent_edge. unfold edge, get_neighbors. simpl.
  apply set_mem_string. eapply heavy_hex_graph_edges; eassumption.
Qed.

Section Fidelity.
Context {SO : SetOrder}.

(** A dictionary all of whose keys are edges of the heavy-hex graph. *)
Definition keys_are_edges (d : list ((string * string) * Q)) : Prop :=
  forall a b, dict_get pair_eqb d (a, b) <> None ->
              are_adjacent HeavyHexTopology a b = true.

Lemma keys_are_edges_set (d : list ((string * string) * Q)) (u v : string) (f : Q) :
  keys_are_edges d -> are_adjacent HeavyHexTopology u v = true ->
  keys_are_edges (dict_set pair_eqb d (u, v) f).
Proof.
  intros Hd Huv a b H. destruct (pair_eqb (a, b) (u, v)) eqn:E.
  - apply pair_eqb_eq in E. injection E as -> ->. assumption.
  - apply Hd. rewrite dict_get_set_other in H; auto using pair_eqb_eq.
    intros Heq. apply pair_eqb_eq in Heq. congruence.
Qed.

Lemma uniform_fidelities_edges : keys_are_edges (uniform_fidelities heavy_hex_graph).
Proof.
  unfold uniform_fidelities.
  assert (G : forall l d,
             keys_are_edges d ->
             (forall uv, In uv l -> are_adjacent HeavyHexTopology (fst uv) (snd uv) = true) ->
             keys_are_edges (fold_left (fun d uv => dict_set pair_eqb d uv (99 # 100)) l d)).
  { induction l as [|[u v] l IH]; intros d Hd Hl; simpl; [assumption|].
    apply IH.
    - apply keys_are_edges_set; [assumption|]. apply (Hl (u, v)). now left.
    - intros uv Hin. apply Hl. now right. }
  apply G.
  - intros a b H. now contradiction H.
  - intros [u v] Hin. apply in_flat_map in Hin as [[u' ns] [Hu Hin]].
    apply in_map_iff in Hin as [v' [[= <- <-] Hv]]. simpl.
    apply heavy_hex_adjacent with ns; [assumption|].
    exact (proj1 (set_iter_In string_dec _ _) Hv).
Qed.

Lemma heavy_hex_fidelities_edges : keys_are_edges heavy_hex_fidelities.
Proof.
  unfold heavy_hex_fidelities.
  do 4 (apply keys_are_edges_set; [|vm_compute; reflexivity]).
  apply uniform_fidelities_edges.
Qed.

(** C7, amended.  On the heavy-hex device the fidelity of a pair that is not
    an edge is 0, but the line and the grid answer 1 for every pair.  On any
    topology a query that involves a label the graph does not know answers
    "no connection": not adjacent, no neighbours, and, between two distinct
    labels, no path. *)
Theorem queries_on_non_edges :
  (forall a b, are_adjacent HeavyHexTopology a b = false ->
               get_fidelity HeavyHexTopology a b = 0) /\
  (forall a b, get_fidelity LinearTopology a b = 1 /\
               get_fidelity Grid2x2Topology a b = 1) /\
  (forall topo a b, unknown topo a \/ unknown topo b -> are_adjacent topo a b = false) /\
  (forall topo a, unknown topo a -> get_neighbors topo a = []) /\
  (forall topo a b, a <> b -> unknown topo a \/ unknown topo b ->
                    shortest_path topo a b = []).
Proof.
  split; [|split; [|split; [|split]]].
  - intros a b Hadj. simpl. unfold dict_get_default.
    destruct (dict_get pair_eqb heavy_hex_fidelities (a, b)) as [f|] eqn:E; [|reflexivity].
    rewrite heavy_hex_fidelities_edges in Hadj; [discriminate | congruence].
  - intros a b. split; reflexivity.
  - apply unknown_not_adjacent.
  - apply unknown_neighbors.
  - intros topo a b. apply shortest_path_unknown.
Qed.

End Fidelity.

(** C7 fails as stated: P0 and P2 are not joined on the line, and their
    fidelity is 1, not 0. *)
Lemma linear_fidelity_of_non_edge :
  are_adjacent LinearTopology "P0" "P2" = false /\
  get_fidelity LinearTopology "P0" "P2" = 1 /\
  ~ (1 == 0)%Q.
Proof. repeat split. discriminate. Qed.

(* ------------------------------------------------------------------ *)
(** ** The candidate set the router enumerates *)

Section Candidates.
Context {SO : SetOrder}.
Variable topology : Topology.

Lemma for_each_neighbors_In pq ns :
  forall cs cs',
  for_each (add_candidate pq) ns cs = Return cs' ->
  forall x, In x cs' <->
            In x cs \/ exists n k, In n ns /\ neighbor_id n = Return k /\
                                   x = sorted_pair (PhysicalQubit.id pq) k.
Proof.
  induction ns as [|n ns IH]; intros cs cs'; simpl.
  - intros [= <-] x. split; [auto | intros [H|(n & k & [] & _)]; assumption].
  - destruct (add_candidate pq cs n) as [c1| |] eqn:E; simpl; try discriminate.
    intros H x. rewrite (IH _ _ H x).
    apply add_candidate_Return in E as (k & -> & Hk).
    rewrite in_app_iff. simpl. split.
    + intros [[Hx|[<-|[]]]|(n' & k' & Hn' & Hk' & ->)]; eauto 8.
    + intros [Hx|(n' & k' & [<-|Hn'] & Hk' & ->)]; eauto 8.
      rewrite Hk in Hk'. injection Hk' as <-. auto.
Qed.

Lemma for_each_neighbors_defined pq ns :
  (forall n, In n ns -> exists k, neighbor_id n = Return k) ->
  forall cs, exists cs', for_each (add_candidate pq) ns cs = Return cs'.
Proof.
  induction ns as [|n ns IH]; intros Hn cs; simpl; [eauto|].
  destruct (Hn n (or_introl eq_refl)) as [k Hk].
  unfold add_candidate at 1. rewrite Hk. simpl.
  apply IH. intros n' Hn'. apply Hn. now right.
Qed.

(** The set built by [_get_candidate_swaps], element by element. *)
Lemma candidate_swaps_In layout front_layer cs :
  candidate_swaps topology layout front_layer = Return cs ->
  forall x, In x cs <->
    exists pq n k,
      In pq (physical_qubits_in_front layout front_layer) /\
      In n (get_neighbors topology (PhysicalQubit.str pq)) /\
      neighbor_id n = Return k /\
      x = sorted_pair (PhysicalQubit.id pq) k.
Proof.
  unfold candidate_swaps.
  assert (G : forall pqs c0 c1,
    for_each (fun candidates pq =>
                for_each (add_candidate pq)
                         (set_iter string_dec (get_neighbors topology (PhysicalQubit.str pq)))
                         candidates) pqs c0 = Return c1 ->
    forall x, In x c1 <->
      In x c0 \/ exists pq n k,
        In pq pqs /\ In n (get_neighbors topology (PhysicalQubit.str pq)) /\
        neighbor_id n = Return k /\ x = sorted_pair (PhysicalQubit.id pq) k).
  { induction pqs as [|p pqs IH]; intros c0 c1; simpl.
    - intros [= <-] x. split; [auto | intros [H|(pq & n & k & [] & _)]; assumption].
    - destruct (for_each (add_candidate p) _ c0) as [c2| |] eqn:E; simpl; try discriminate.
      intros H x. rewrite (IH _ _ H x), (for_each_neighbors_In _ _ _ E x). split.
      + intros [[Hx|(n & k & Hn & Hk & ->)]|(pq & n & k & Hpq & Hn & Hk & ->)].
        * now left.
        * right. exists p, n, k. repeat split; auto.
          exact (proj1 (set_iter_In string_dec _ _) Hn).
        * right. exists pq, n, k. auto.
      + intros [Hx|(pq & n & k & [<-|Hpq] & Hn & Hk & ->)].
        * now left; left.
        * left; right. exists n, k. repeat split; auto.
          exact (proj2 (set_iter_In string_dec _ _) Hn).
        * right. exists pq, n, k. auto. }
  intros H x. rewrite (G _ _ _ H x). split.
  - intros [[]|(pq & n & k & Hpq & Hrest)]. exists pq, n, k. split; [|assumption].
    exact (proj1 (set_iter_In PhysicalQubit_dec _ _) Hpq).
  - intros (pq & n & k & Hpq & Hrest). right. exists pq, n, k. split; [|assumption].
    exact (proj2 (set_iter_In PhysicalQubit_dec _ _) Hpq).
Qed.

Lemma candidate_swaps_defined layout front_layer :
  (forall pq n, In pq (physical_qubits_in_front layout front_layer) ->
                In n (get_neighbors topology (PhysicalQubit.str pq)) ->
                exists k, neighbor_id n = Return k) ->
  exists cs, candidate_swaps topology layout front_layer = Return cs.
Proof.
  unfold candidate_swaps. intros Hdef.
  assert (G : forall pqs,
    (forall pq, In pq pqs -> In pq (physical_qubits_in_front layout front_layer)) ->
    forall c0, exists c1,
    for_each (fun candidates pq =>
                for_each (add_candidate pq)
                         (set_iter string_dec (get_neighbors topology (PhysicalQubit.str pq)))
                         candidates) pqs c0 = Return c1).
  { induction pqs as [|p pqs IH]; intros Hin c0; simpl; [eauto|].
    destruct (@for_each_neighbors_defined p
                (set_iter string_dec (get_neighbors topology (PhysicalQubit.str p)))) with (cs := c0)
      as [c2 ->].
    - intros n Hn. apply (Hdef p n); [apply Hin; now left|].
      exact (proj1 (set_iter_In string_dec _ _) Hn).
    - simpl. apply IH. intros pq Hpq. apply Hin. now right. }
  apply G. intros pq Hpq. exact (proj1 (set_iter_In PhysicalQubit_dec _ _) Hpq).
Qed.

(** The list [_get_candidate_swaps] returns: the pairs of the set, each once. *)
Lemma get_candidate_swaps_In layout front_layer cands :
  get_candidate_swaps topology layout front_layer = Return cands ->
  NoDup cands /\
  forall pq1 pq2, In (pq1, pq2) cands <->
    exists pq n k,
      In pq (physical_qubits_in_front layout front_layer) /\
      In n (get_neighbors topology (PhysicalQubit.str pq)) /\
      neighbor_id n = Return k /\
      (PhysicalQubit.id pq1, PhysicalQubit.id pq2) = sorted_pair (PhysicalQubit.id pq) k.
Proof.
  unfold get_candidate_swaps.
  destruct (candidate_swaps topology layout front_layer) as [cs| |] eqn:E;
    simpl; try discriminate.
  intros [= <-]. split.
  - apply Finite.Injective_map_NoDup; [|apply set_iter_NoDup].
    intros [a b] [a' b'] [= -> ->]. reflexivity.
  - intros pq1 pq2. rewrite in_map_iff. split.
    + intros ([a b] & [= <- <-] & Hin). simpl.
      apply (proj1 (set_iter_In swap_tuple_dec _ _)) in Hin.
      now apply (candidate_swaps_In _ _ E).
    + intros H. exists (PhysicalQubit.id pq1, PhysicalQubit.id pq2). simpl. split.
      * now destruct pq1, pq2.
      * apply (proj2 (set_iter_In swap_tuple_dec _ _)).
        now apply (candidate_swaps_In _ _ E).
Qed.

End Candidates.

(* ------------------------------------------------------------------ *)
(** ** A gate the inner loop never finishes *)

(** On the three-qubit line, [CNOT(0,3)] names the physical qubit P3, which
    the device does not have.  Logical qubit 0 moves along P0, P1, P2 and
    never becomes adjacent to P3, while a candidate swap always exists. *)

Definition gate_0_3 : TryTwoQubitOp.t :=
  TryTwoQubitOp.mk "CNOT" (LogicalQubit.mk 0) (LogicalQubit.mk 3).

Definition line_layouts : list Layout :=
  map layout_of
      [[(0, 0); (1, 1); (2, 2); (3, 3)]; [(0, 0); (1, 2); (2, 1); (3, 3)];
       [(0, 1); (1, 0); (2, 2); (3, 3)]; [(0, 1); (1, 2); (2, 0); (3, 3)];
       [(0, 2); (1, 0); (2, 1); (3, 3)]; [(0, 2); (1, 1); (2, 0); (3, 3)]]%Z.

Definition wandering (st : RouteState.t) : Prop :=
  In (RouteState.current_layout st) line_layouts /\
  layout_get (RouteState.current_layout st) (LogicalQubit.mk 0) = Some (RouteState.pq1 st) /\
  RouteState.pq2 st = PhysicalQubit.mk 3 /\
  RouteState.front_layer st = [gate_0_3].

Section NeverEnding.
Context {SO : SetOrder}.

Lemma line_layouts_places (l : Layout) :
  In l line_layouts ->
  layout_get l (LogicalQubit.mk 3) = Some (PhysicalQubit.mk 3) /\
  exists a, layout_get l (LogicalQubit.mk 0) = Some (PhysicalQubit.mk a) /\
            (a = 0 \/ a = 1 \/ a = 2)%Z.
Proof.
  intros H. simpl in H.
  repeat (destruct H as [<-|H];
          [split; [reflexivity | eexists; split; [reflexivity | lia]]|]).
  destruct H.
Qed.

Lemma line_front_qubits (l : Layout) (pq : PhysicalQubit.t) :
  In l line_layouts ->
  In pq (physical_qubits_in_front l [gate_0_3]) <->
  layout_get l (LogicalQubit.mk 0) = Some pq \/ pq = PhysicalQubit.mk 3.
Proof.
  intros Hl. destruct (line_layouts_places Hl) as [H3 _].
  rewrite physical_qubits_in_front_In. split.
  - intros (lq & Hlq & Hget). apply logical_qubits_in_front_In in Hlq as (g & [<-|[]] & Hg).
    simpl in Hg. destruct Hg as [-> | ->]; [now left | right; congruence].
  - intros [H| ->].
    + exists (LogicalQubit.mk 0). split; [|assumption].
      apply logical_qubits_in_front_In. exists gate_0_3. simpl. auto.
    + exists (LogicalQubit.mk 3). split; [|assumption].
      apply logical_qubits_in_front_In. exists gate_0_3. simpl. auto.
Qed.

(** On the line a swap is always selected, across P0-P1 or across P1-P2. *)
Lemma line_select (l : Layout) :
  In l line_layouts ->
  exists swap,
    select_best_swap LinearTopology l [gate_0_3] = Return (Some swap) /\
    ((InsertSwapOp.qubit1 swap = PhysicalQubit.mk 0 /\
      InsertSwapOp.qubit2 swap = PhysicalQubit.mk 1) \/
     (InsertSwapOp.qubit1 swap = PhysicalQubit.mk 1 /\
      InsertSwapOp.qubit2 swap = PhysicalQubit.mk 2)).
Proof.
  intros Hl. destruct (line_layouts_places Hl) as [H3 (a & H0 & Ha)].
  destruct (@candidate_swaps_defined SO LinearTopology l [gate_0_3]) as [cs Hcs].
  { intros pq n Hpq Hn. apply (line_front_qubits pq Hl) in Hpq as [Hpq| ->].
    - rewrite H0 in Hpq. injection Hpq as <-.
      destruct Ha as [-> |[-> | ->]]; simpl in Hn;
        repeat (destruct Hn as [<-|Hn]; [eexists; reflexivity|]); destruct Hn.
    - destruct Hn. }
  assert (Hcands : get_candidate_swaps LinearTopology l [gate_0_3]
                   = Return (map (fun ab => (PhysicalQubit.mk (fst ab),
                                             PhysicalQubit.mk (snd ab)))
                                 (set_iter swap_tuple_dec cs))).
  { unfold get_candidate_swaps. now rewrite Hcs. }
  assert (Hne : cs <> []).
  { intros ->.
    assert (Hin : In (PhysicalQubit.mk a) (physical_qubits_in_front l [gate_0_3]))
      by (apply line_front_qubits; auto).
    pose proof (candidate_swaps_empty _ _ _ Hcs _ Hin) as Hnone.
    destruct Ha as [-> |[-> | ->]]; discriminate. }
  assert (Hex : exists swap,
             select_best_swap LinearTopology l [gate_0_3] = Return (Some swap)).
  { eapply select_best_swap_exists; [discriminate | | exact Hcands].
    intros E. apply map_eq_nil in E. revert E. now apply set_iter_nonempty. }
  destruct Hex as [swap Hsel].
  exists swap. split; [assumption|].
  apply select_best_swap_Some in Hsel as (cands & Hc & Hin & _).
  apply (get_candidate_swaps_In _ _ _ Hc) in Hin as (pq & n & k & Hpq & Hn & Hk & E).
  apply (line_front_qubits pq Hl) in Hpq as [Hpq| ->]; [|destruct Hn].
  rewrite H0 in Hpq. injection Hpq as <-.
  destruct (InsertSwapOp.qubit1 swap) as [x], (InsertSwapOp.qubit2 swap) as [y].
  simpl in E.
  destruct Ha as [-> |[-> | ->]]; simpl in Hn;
    repeat (destruct Hn as [<-|Hn];
            [vm_compute in Hk; injection Hk as <-; vm_compute in E;
             injection E as -> ->; auto|]);
    destruct Hn.
Qed.

(** One round keeps the situation: still on the line, still not adjacent. *)
Lemma wandering_round (st : RouteState.t) :
  wandering st ->
  are_adjacent LinearTopology (PhysicalQubit.str (RouteState.pq1 st))
               (PhysicalQubit.str (RouteState.pq2 st)) = false /\
  exists st',
    swap_round LinearTopology [CNOT 0 3] gate_0_3 st = Return (Some st') /\
    RouteState.num_swaps_for_gate st' = S (RouteState.num_swaps_for_gate st) /\
    wandering st'.
Proof.
  intros (Hl & H0 & H3 & Hf).
  destruct (line_select Hl) as (swap & Hsel & Hswap).
  destruct st as [l pq1 pq2 front n out]. simpl in *. subst pq2 front.
  split.
  - destruct (line_layouts_places Hl) as [_ (a & Ha & Hcase)].
    rewrite H0 in Ha. injection Ha as ->.
    destruct Hcase as [-> |[-> | ->]]; reflexivity.
  - unfold swap_round. simpl. rewrite Hsel. simpl.
    destruct swap as [q1 q2 cost]. simpl in Hswap. clear Hsel H0.
    simpl in Hl.
    destruct Hswap as [[-> ->]|[-> ->]];
      repeat (destruct Hl as [<-|Hl];
              [eexists; split; [reflexivity|];
               split; [reflexivity|];
               split; [simpl; auto 10 | repeat split; reflexivity]|]);
      destruct Hl.
Qed.

Lemma wandering_forever (fuel : nat) :
  forall st, wandering st ->
  swap_loop LinearTopology fuel [CNOT 0 3] gate_0_3 st = OutOfFuel.
Proof.
  induction fuel as [|fuel IH]; intros st Hw;
    destruct (wandering_round Hw) as (Hadj & st' & Hround & _ & Hw'); simpl;
    rewrite Hadj; [reflexivity|].
  rewrite Hround. now apply IH.
Qed.

(** For every fuel and every iteration order the pass is still inside the
    inner loop of [CNOT(0,3)]. *)
Lemma line_never_routed (fuel : nat) :
  optimize LinearTopology fuel [CNOT 0 3] = OutOfFuel.
Proof.
  unfold optimize.
  assert (Hn : count_qubits (referenced_qubits [CNOT 0 3]) = Return 4%Z).
  { change (referenced_qubits [CNOT 0 3]) with [LogicalQubit.mk 0; LogicalQubit.mk 3].
    unfold count_qubits.
    destruct (set_iter LogicalQubit_dec [LogicalQubit.mk 0; LogicalQubit.mk 3])
      as [|x l] eqn:E.
    - exfalso. revert E. apply set_iter_nonempty. discriminate.
    - simpl. f_equal.
      assert (Hle : forall y, In y (x :: l) -> (LogicalQubit.id y <= 3)%Z).
      { intros y Hy. rewrite <- E in Hy.
        apply (proj1 (set_iter_In LogicalQubit_dec _ _)) in Hy.
        destruct Hy as [<-|[<-|[]]]; simpl; lia. }
      assert (H3 : In (LogicalQubit.mk 3) (x :: l)).
      { rewrite <- E. apply (proj2 (set_iter_In LogicalQubit_dec _ _)). simpl. auto. }
      assert (G : forall l0 m, (forall y, In y l0 -> (LogicalQubit.id y <= 3)%Z) ->
                               (m <= 3)%Z ->
                               (m = 3%Z \/ In (LogicalQubit.mk 3) l0) ->
                               fold_left Z.max (map LogicalQubit.id l0) m = 3%Z).
      { induction l0 as [|y l0 IHl]; intros m Hy Hm Hor; simpl.
        - destruct Hor as [->|[]]. reflexivity.
        - apply IHl.
          + intros z Hz. apply Hy. now right.
          + specialize (Hy y (or_introl eq_refl)). lia.
          + specialize (Hy y (or_introl eq_refl)).
            destruct Hor as [->|[->|Hin]]; [left; lia | left; simpl; lia | now right]. }
      rewrite (G l (LogicalQubit.id x)); [reflexivity | | |].
      + intros y Hy. apply Hle. now right.
      + apply Hle. now left.
      + destruct H3 as [->|H3]; auto. }
  rewrite Hn. simpl.
  rewrite wandering_forever; [reflexivity|].
  repeat split; simpl; auto.
Qed.

End NeverEnding.

(* ------------------------------------------------------------------ *)
(** ** No ceiling on the swaps of one gate *)

Section NoCeiling.
Context {SO : SetOrder}.
Variable topology : Topology.

(** C3, amended.  The inner loop has no ceiling.  It stops only when the
    operands have become adjacent or when no swap is selected, having
    appended one [InsertSwapOp] per round; in the second case the gate is
    emitted as it is and routing goes on with the rest of the program.
    Nothing else stops it: on the three-qubit line the loop of [CNOT(0,3)]
    is still running after any number of rounds. *)
Theorem inner_loop_has_no_ceiling :
  (forall fuel remaining op st st',
     swap_loop topology fuel remaining op st = Return st' ->
     (are_adjacent topology (PhysicalQubit.str (RouteState.pq1 st'))
                   (PhysicalQubit.str (RouteState.pq2 st')) = true \/
      select_best_swap topology (RouteState.current_layout st')
                       (RouteState.front_layer st') = Return None) /\
     exists swaps,
       RouteState.optimized_ops st' = RouteState.optimized_ops st ++ swaps /\
       (forall o, In o swaps -> is_swap o = true) /\
       RouteState.num_swaps_for_gate st'
       = (RouteState.num_swaps_for_gate st + List.length swaps)%nat) /\
  (forall fuel op rest layout out pq1 pq2,
     get_physical_qubits layout (TryTwoQubitOp.control op) (TryTwoQubitOp.target op)
     = Return (pq1, pq2) ->
     are_adjacent topology (PhysicalQubit.str pq1) (PhysicalQubit.str pq2) = false ->
     select_best_swap topology layout (build_front_layer (OpTryTwo op :: rest))
     = Return None ->
     optimize_loop topology (S fuel) (OpTryTwo op :: rest) layout out
     = optimize_loop topology (S fuel) rest layout (out ++ [OpTryTwo op])) /\
  (forall fuel, optimize LinearTopology fuel [CNOT 0 3] = OutOfFuel).
Proof.
  split; [|split].
  - intros fuel remaining op st st' H.
    apply swap_loop_Return in H as [swaps Hx]. split.
    + exact (exit_why Hx).
    + exists swaps. split; [exact (exit_ops Hx)|].
      split; [exact (exit_swaps Hx) | exact (exit_count Hx)].
  - intros fuel op rest layout out pq1 pq2 Hget Hadj Hsel.
    cbn [optimize_loop]. rewrite Hget.
    cbn [swap_loop RouteState.pq1 RouteState.pq2]. rewrite Hadj.
    unfold swap_round. cbn [RouteState.current_layout RouteState.front_layer].
    rewrite Hsel. reflexivity.
  - apply line_never_routed.
Qed.

End NoCeiling.

(** C3 fails as stated.  The line has diameter 2 and the front layer of
    [CNOT(0,3)] has one gate, so the ceiling would be 2 swaps; yet three
    rounds of the inner loop each insert a swap, the operands are still not
    adjacent after the third, and the loop has not stopped. *)
Lemma swaps_beyond_ceiling :
  (diameter (SO := insertion_order) LinearTopology
   * Z.of_nat (List.length (build_front_layer [CNOT 0 3])) = 2)%Z /\
  exists st1 st2 st3,
    swap_round (SO := insertion_order) LinearTopology [CNOT 0 3] gate_0_3
      (RouteState.mk (initialize_layout 4) (PhysicalQubit.mk 0) (PhysicalQubit.mk 3)
                     (build_front_layer [CNOT 0 3]) 0
                     [MARK [(0, 0); (1, 1); (2, 2); (3, 3)]%Z])
    = Return (Some st1) /\
    are_adjacent LinearTopology (PhysicalQubit.str (RouteState.pq1 st1))
                 (PhysicalQubit.str (RouteState.pq2 st1)) = false /\
    swap_round (SO := insertion_order) LinearTopology [CNOT 0 3] gate_0_3 st1
    = Return (Some st2) /\
    are_adjacent LinearTopology (PhysicalQubit.str (RouteState.pq1 st2))
                 (PhysicalQubit.str (RouteState.pq2 st2)) = false /\
    swap_round (SO := insertion_order) LinearTopology [CNOT 0 3] gate_0_3 st2
    = Return (Some st3) /\
    are_adjacent LinearTopology (PhysicalQubit.str (RouteState.pq1 st3))
                 (PhysicalQubit.str (RouteState.pq2 st3)) = false /\
    RouteState.num_swaps_for_gate st3 = 3%nat /\
    List.length (filter is_swap (RouteState.optimized_ops st3)) = 3%nat /\
    swap_loop (SO := insertion_order) LinearTopology 3 [CNOT 0 3] gate_0_3
      (RouteState.mk (initialize_layout 4) (PhysicalQubit.mk 0) (PhysicalQubit.mk 3)
                     (build_front_layer [CNOT 0 3]) 0
                     [MARK [(0, 0); (1, 1); (2, 2); (3, 3)]%Z])
    = OutOfFuel.
Proof.
  split; [vm_compute; reflexivity|].
  do 3 eexists.
  split; [vm_compute; reflexivity|].
  split; [vm_compute; reflexivity|].
  split; [vm_compute; reflexivity|].
  split; [vm_compute; reflexivity|].
  split; [vm_compute; reflexivity|].
  repeat split; vm_compute; reflexivity.
Qed.

(* ------------------------------------------------------------------ *)
(** ** Candidate swaps on the heavy-hex device *)

Definition gate_11_13 : TryTwoQubitOp.t :=
  TryTwoQubitOp.mk "CNOT" (LogicalQubit.mk 11) (LogicalQubit.mk 13).

Section HeavyHexCandidates.
Context {SO : SetOrder}.

Lemma heavy_front_qubits (pq : PhysicalQubit.t) :
  In pq (physical_qubits_in_front (initialize_layout 14) [gate_11_13]) <->
  pq = PhysicalQubit.mk 11 \/ pq = PhysicalQubit.mk 13.
Proof.
  rewrite physical_qubits_in_front_In. split.
  - intros (lq & Hlq & Hget).
    apply logical_qubits_in_front_In in Hlq as (g & [<-|[]] & [-> | ->]);
      vm_compute in Hget; injection Hget as <-; auto.
  - intros [-> | ->].
    + exists (LogicalQubit.mk 11). split; [|reflexivity].
      apply logical_qubits_in_front_In. exists gate_11_13. simpl. auto.
    + exists (LogicalQubit.mk 13). split; [|reflexivity].
      apply logical_qubits_in_front_In. exists gate_11_13. simpl. auto.
Qed.

(** C4 at a failing input.  With the identity layout on the heavy-hex
    device and the front layer [CNOT(11,13)], the physical qubits of the
    front are P11 (neighbours P9, P12) and P13 (neighbour P12).  The router
    reads the neighbour P12 as physical qubit 1, so its candidates are
    (9,11), (1,11) and (1,13), where the pairs of the specification are
    (9,11), (11,12) and (12,13).  P1 is adjacent to neither P11 nor P13. *)
Theorem heavy_hex_candidates_misread :
  exists cands,
    get_candidate_swaps HeavyHexTopology (initialize_layout 14) [gate_11_13]
    = Return cands /\
    (forall pq1 pq2,
       In (pq1, pq2) cands <->
       (pq1, pq2) = (PhysicalQubit.mk 9, PhysicalQubit.mk 11) \/
       (pq1, pq2) = (PhysicalQubit.mk 1, PhysicalQubit.mk 11) \/
       (pq1, pq2) = (PhysicalQubit.mk 1, PhysicalQubit.mk 13)) /\
    get_neighbors HeavyHexTopology (PhysicalQubit.str (PhysicalQubit.mk 11))
    = ["P9"; "P12"]%string /\
    get_neighbors HeavyHexTopology (PhysicalQubit.str (PhysicalQubit.mk 13))
    = ["P12"]%string /\
    are_adjacent HeavyHexTopology "P1" "P11" = false /\
    are_adjacent HeavyHexTopology "P1" "P13" = false.
Proof.
  destruct (@candidate_swaps_defined SO HeavyHexTopology (initialize_layout 14)
              [gate_11_13]) as [cs Hcs].
  { intros pq n Hpq Hn. apply heavy_front_qubits in Hpq as [-> | ->];
      vm_compute in Hn;
      repeat (destruct Hn as [<-|Hn]; [eexists; reflexivity|]); destruct Hn. }
  exists (map (fun ab => (PhysicalQubit.mk (fst ab), PhysicalQubit.mk (snd ab)))
              (set_iter swap_tuple_dec cs)).
  assert (Hcands : get_candidate_swaps HeavyHexTopology (initialize_layout 14) [gate_11_13]
                   = Return (map (fun ab => (PhysicalQubit.mk (fst ab),
                                             PhysicalQubit.mk (snd ab)))
                                 (set_iter swap_tuple_dec cs))).
  { unfold get_candidate_swaps. now rewrite Hcs. }
  split; [exact Hcands|]. split; [|repeat split; reflexivity].
  intros [x] [y].
  rewrite (proj2 (get_candidate_swaps_In _ _ _ Hcands)). simpl. split.
  - intros (pq & n & k & Hpq & Hn & Hk & E).
    apply heavy_front_qubits in Hpq as [-> | ->]; vm_compute in Hn;
      repeat (destruct Hn as [<-|Hn];
              [vm_compute in Hk; injection Hk as <-; vm_compute in E;
               injection E as -> ->; auto|]);
      destruct Hn.
  - intros [[= -> ->]|[[= -> ->]|[= -> ->]]].
    + exists (PhysicalQubit.mk 11), "P9"%string, 9%Z.
      repeat split; [apply heavy_front_qubits; auto | vm_compute; auto].
    + exists (PhysicalQubit.mk 11), "P12"%string, 1%Z.
      repeat split; [apply heavy_front_qubits; auto | vm_compute; auto].
    + exists (PhysicalQubit.mk 13), "P12"%string, 1%Z.
      repeat split; [apply heavy_front_qubits; auto | vm_compute; auto].
Qed.

End HeavyHexCandidates.

(* ------------------------------------------------------------------ *)
(** ** Candidate swaps on devices with one-digit labels *)

Lemma to_int_proper (n : Z) : Z.to_int n <> Decimal.Pos Decimal.Nil /\
                              Z.to_int n <> Decimal.Neg Decimal.Nil.
Proof.
  destruct n as [|p|p]; simpl; split; try discriminate;
    intros [= H]; now apply DecimalPos.Unsigned.to_uint_nonnil in H.
Qed.

(** [str] tells integers apart, and so the labels of physical qubits. *)
Lemma str_of_int_inj (n m : Z) : str_of_int n = str_of_int m -> n = m.
Proof.
  unfold str_of_int. intros H.
  apply (f_equal NilZero.int_of_string) in H.
  destruct (to_int_proper n) as [Hn1 Hn2], (to_int_proper m) as [Hm1 Hm2].
  rewrite !NilZero.isi in H by assumption.
  injection H as H. now apply DecimalZ.to_int_inj.
Qed.

Lemma PhysicalQubit_str_inj (p q : PhysicalQubit.t) :
  PhysicalQubit.str p = PhysicalQubit.str q -> p = q.
Proof.
  destruct p as [n], q as [m]. unfold PhysicalQubit.str. simpl.
  intros [= H]. f_equal. now apply str_of_int_inj.
Qed.

Lemma neighbor_id_one_digit (k : Z) :
  (0 <= k <= 9)%Z -> neighbor_id (PhysicalQubit.str (PhysicalQubit.mk k)) = Return k.
Proof.
  intros H.
  assert (Hk : (k = 0 \/ k = 1 \/ k = 2 \/ k = 3 \/ k = 4 \/ k = 5 \/ k = 6 \/ k = 7
                \/ k = 8 \/ k = 9)%Z) by lia.
  repeat (destruct Hk as [->|Hk]; [reflexivity|]). now subst.
Qed.

Section OneDigit.
Context {SO : SetOrder}.
Variable topology : Topology.

(** X1.  Where every neighbour label is [P0] to [P9], the router enumerates the
    candidate set of the specification: the pairs of a physical qubit of
    the front layer with one of its neighbours, each unordered pair once,
    written smaller id first. *)
Theorem candidate_swaps_one_digit (layout : Layout) (front_layer : list TryTwoQubitOp.t) :
  (forall q n, In n (get_neighbors topology q) ->
     exists k, (0 <= k <= 9)%Z /\ n = PhysicalQubit.str (PhysicalQubit.mk k)) ->
  exists cands,
    get_candidate_swaps topology layout front_layer = Return cands /\
    NoDup cands /\
    (forall pq1 pq2, In (pq1, pq2) cands ->
                     (PhysicalQubit.id pq1 <= PhysicalQubit.id pq2)%Z) /\
    (forall pq1 pq2,
       In (pq1, pq2) cands <->
       exists p n,
         In p (physical_qubits_in_front layout front_layer) /\
         In (PhysicalQubit.str n) (get_neighbors topology (PhysicalQubit.str p)) /\
         (PhysicalQubit.id pq1, PhysicalQubit.id pq2)
         = sorted_pair (PhysicalQubit.id p) (PhysicalQubit.id n)).
Proof.
  intros Hlabels.
  destruct (@candidate_swaps_defined SO topology layout front_layer) as [cs Hcs].
  { intros pq n _ Hn. destruct (Hlabels _ _ Hn) as (k & Hk & ->).
    exists k. now apply neighbor_id_one_digit. }
  assert (Hcands : get_candidate_swaps topology layout front_layer
                   = Return (map (fun ab => (PhysicalQubit.mk (fst ab),
                                             PhysicalQubit.mk (snd ab)))
                                 (set_iter swap_tuple_dec cs))).
  { unfold get_candidate_swaps. now rewrite Hcs. }
  eexists. split; [exact Hcands|].
  destruct (get_candidate_swaps_In _ _ _ Hcands) as [Hnd Hin].
  split; [exact Hnd|]. split.
  - intros pq1 pq2 H. apply Hin in H as (pq & n & k & _ & _ & _ & E).
    unfold sorted_pair in E. injection E as -> ->. lia.
  - intros pq1 pq2. rewrite Hin. split.
    + intros (pq & n & k & Hpq & Hn & Hk & E).
      destruct (Hlabels _ _ Hn) as (k' & Hk' & ->).
      rewrite (neighbor_id_one_digit Hk') in Hk. injection Hk as <-.
      exists pq, (PhysicalQubit.mk k'). auto.
    + intros (p & n & Hp & Hn & E).
      destruct (Hlabels _ _ Hn) as (k' & Hk' & Heq).
      apply PhysicalQubit_str_inj in Heq. subst n.
      exists p, (PhysicalQubit.str (PhysicalQubit.mk k')), k'.
      repeat split; auto. now apply neighbor_id_one_digit.
Qed.

End OneDigit.

Lemma candidate_swaps_one_digit_witness :
  exists cands,
    get_candidate_swaps (SO := insertion_order) Grid2x2Topology (initialize_layout 4)
      [TryTwoQubitOp.mk "CNOT" (LogicalQubit.mk 0) (LogicalQubit.mk 3)] = Return cands /\
    NoDup cands /\
    (forall pq1 pq2, In (pq1, pq2) cands ->
                     (PhysicalQubit.id pq1 <= PhysicalQubit.id pq2)%Z) /\
    (forall pq1 pq2,
       In (pq1, pq2) cands <->
       exists p n,
         In p (physical_qubits_in_front (SO := insertion_order) (initialize_layout 4)
                 [TryTwoQubitOp.mk "CNOT" (LogicalQubit.mk 0) (LogicalQubit.mk 3)]) /\
         In (PhysicalQubit.str n) (get_neighbors Grid2x2Topology (PhysicalQubit.str p)) /\
         (PhysicalQubit.id pq1, PhysicalQubit.id pq2)
         = sorted_pair (PhysicalQubit.id p) (PhysicalQubit.id n)).
Proof.
  apply (@candidate_swaps_one_digit insertion_order Grid2x2Topology).
  intros q n H. unfold get_neighbors, dict_get_default in H. simpl in H.
  repeat (destruct (String.eqb q _);
          [simpl in H;
           repeat (destruct H as [<-|H];
                   [(exists 0%Z + exists 1%Z + exists 2%Z + exists 3%Z);
                    split; [lia | reflexivity]|]);
           destruct H|]).
  destruct H.
Defined.

(* ------------------------------------------------------------------ *)
(** ** Swaps on one-to-one layouts *)

Lemma PhysicalQubit_eqb_refl (p : PhysicalQubit.t) : PhysicalQubit.eqb p p = true.
Proof. now apply PhysicalQubit_eqb_eq. Qed.

Lemma PhysicalQubit_eqb_neq (p q : PhysicalQubit.t) :
  PhysicalQubit.eqb p q = false <-> p <> q.
Proof.
  split.
  - intros H E. apply PhysicalQubit_eqb_eq in E. congruence.
  - intros H. destruct (PhysicalQubit.eqb p q) eqn:E; [|reflexivity].
    apply PhysicalQubit_eqb_eq in E. contradiction.
Qed.

Lemma LogicalQubit_eqb_refl (p : LogicalQubit.t) : LogicalQubit.eqb p p = true.
Proof. now apply LogicalQubit_eqb_eq. Qed.

Lemma LogicalQubit_eqb_neq (p q : LogicalQubit.t) :
  LogicalQubit.eqb p q = false <-> p <> q.
Proof.
  split.
  - intros H E. apply LogicalQubit_eqb_eq in E. congruence.
  - intros H. destruct (LogicalQubit.eqb p q) eqn:E; [|reflexivity].
    apply LogicalQubit_eqb_eq in E. contradiction.
Qed.

(** The scan of [_apply_swap] finds the last occupant of [pq1] and, when
    [pq2] is another qubit, the last occupant of [pq2]. *)
Lemma find_occupants_last (l : Layout) (pq1 pq2 : PhysicalQubit.t) :
  find_occupants l pq1 pq2
  = (last_on l pq1, if PhysicalQubit.eqb pq2 pq1 then None else last_on l pq2).
Proof.
  unfold find_occupants.
  assert (G : forall items found,
    fold_left (fun found item =>
                 if PhysicalQubit.eqb (snd item) pq1 then (Some (fst item), snd found)
                 else if PhysicalQubit.eqb (snd item) pq2 then (fst found, Some (fst item))
                 else found) items found
    = (match last_on items pq1 with Some x => Some x | None => fst found end,
       if PhysicalQubit.eqb pq2 pq1 then snd found
       else match last_on items pq2 with Some x => Some x | None => snd found end)).
  { induction items as [|[lq pq] items IH]; intros [f1 f2]; simpl.
    - now destruct (PhysicalQubit.eqb pq2 pq1).
    - rewrite IH. destruct (PhysicalQubit.eqb pq pq1) eqn:E1; simpl.
      + apply PhysicalQubit_eqb_eq in E1. subst pq.
        destruct (PhysicalQubit.eqb pq2 pq1) eqn:E2.
        * now destruct (last_on items pq1).
        * assert (E3 : PhysicalQubit.eqb pq1 pq2 = false).
          { apply PhysicalQubit_eqb_neq. apply PhysicalQubit_eqb_neq in E2. congruence. }
          rewrite E3. now destruct (last_on items pq1), (last_on items pq2).
      + destruct (PhysicalQubit.eqb pq pq2) eqn:E2; simpl.
        * apply PhysicalQubit_eqb_eq in E2. subst pq. rewrite E1.
          now destruct (last_on items pq1), (last_on items pq2).
        * now destruct (last_on items pq1), (last_on items pq2),
            (PhysicalQubit.eqb pq2 pq1). }
  rewrite G. simpl. destruct (last_on l pq1), (PhysicalQubit.eqb pq2 pq1), (last_on l pq2);
    reflexivity.
Qed.

Lemma last_on_absent (l : Layout) (p : PhysicalQubit.t) :
  ~ In p (map snd l) -> last_on l p = None.
Proof.
  induction l as [|[lq pq] l IH]; simpl; [reflexivity|]. intros H.
  rewrite IH by tauto.
  destruct (PhysicalQubit.eqb pq p) eqn:E; [|reflexivity].
  apply PhysicalQubit_eqb_eq in E. tauto.
Qed.

Lemma last_on_present (l : Layout) (lq : LogicalQubit.t) (p : PhysicalQubit.t) :
  NoDup (map snd l) -> In (lq, p) l -> last_on l p = Some lq.
Proof.
  induction l as [|[lq' pq] l IH]; simpl; [contradiction|].
  intros Hnd [[= -> ->]|Hin]; inversion Hnd as [|x xs Hx Hxs]; subst.
  - rewrite last_on_absent by assumption. now rewrite PhysicalQubit_eqb_refl.
  - now rewrite IH.
Qed.

Lemma first_on_absent (l : Layout) (p : PhysicalQubit.t) :
  ~ In p (map snd l) -> CurrentLayoutOp.first_on l p = None.
Proof.
  induction l as [|[lq pq] l IH]; simpl; [reflexivity|]. intros H.
  destruct (PhysicalQubit.eqb pq p) eqn:E.
  - apply PhysicalQubit_eqb_eq in E. tauto.
  - apply IH. tauto.
Qed.

Lemma first_on_present (l : Layout) (lq : LogicalQubit.t) (p : PhysicalQubit.t) :
  NoDup (map snd l) -> In (lq, p) l -> CurrentLayoutOp.first_on l p = Some lq.
Proof.
  induction l as [|[lq' pq] l IH]; simpl; [contradiction|].
  intros Hnd [[= -> ->]|Hin]; inversion Hnd as [|x xs Hx Hxs]; subst.
  - now rewrite PhysicalQubit_eqb_refl.
  - destruct (PhysicalQubit.eqb pq p) eqn:E; [|now apply IH].
    apply PhysicalQubit_eqb_eq in E. subst pq. exfalso. apply Hx.
    apply in_map_iff. now exists (lq, p).
Qed.

(** On a one-to-one layout the first and the last occupant are the same. *)
Lemma first_on_last_on (l : Layout) (p : PhysicalQubit.t) :
  NoDup (map snd l) -> CurrentLayoutOp.first_on l p = last_on l p.
Proof.
  intros Hnd. destruct (in_dec PhysicalQubit_dec p (map snd l)) as [Hin|Hout].
  - apply in_map_iff in Hin as [[lq pq] [E Hin]]. simpl in E. subst pq.
    now rewrite (first_on_present _ _ _ Hnd Hin), (last_on_present _ _ _ Hnd Hin).
  - now rewrite first_on_absent, last_on_absent.
Qed.

Lemma last_on_In (l : Layout) (lq : LogicalQubit.t) (p : PhysicalQubit.t) :
  last_on l p = Some lq -> In (lq, p) l.
Proof.
  induction l as [|[lq' pq] l IH]; simpl; [discriminate|].
  destruct (last_on l p) as [x|].
  - intros [= ->]. right. now apply IH.
  - destruct (PhysicalQubit.eqb pq p) eqn:E; [|discriminate].
    apply PhysicalQubit_eqb_eq in E. intros [= ->]. left. congruence.
Qed.

Lemma layout_get_In (l : Layout) (lq : LogicalQubit.t) (pq : PhysicalQubit.t) :
  NoDup (dict_keys l) -> In (lq, pq) l <-> layout_get l lq = Some pq.
Proof.
  intros Hnd. split.
  - induction l as [|[k v] l IH]; simpl; [contradiction|].
    inversion Hnd as [|x xs Hx Hxs]; subst.
    intros [[= -> ->]|Hin].
    + unfold layout_get. simpl. now rewrite LogicalQubit_eqb_refl.
    + unfold layout_get. simpl. destruct (LogicalQubit.eqb lq k) eqn:E.
      * apply LogicalQubit_eqb_eq in E. subst k. exfalso. apply Hx.
        unfold dict_keys. apply in_map_iff. now exists (lq, pq).
      * now apply IH.
  - intros H. eapply dict_get_In; [apply LogicalQubit_eqb_eq | exact H].
Qed.

(** Writing a key the dictionary holds rewrites its one item. *)
Lemma dict_set_present_map (l : Layout) (k : LogicalQubit.t) (v : PhysicalQubit.t) :
  NoDup (dict_keys l) -> In k (dict_keys l) ->
  dict_set LogicalQubit.eqb l k v
  = map (fun item => if LogicalQubit.eqb k (fst item) then (fst item, v) else item) l.
Proof.
  induction l as [|[k' v'] l IH]; simpl; [contradiction|].
  intros Hnd Hin. inversion Hnd as [|x xs Hx Hxs]; subst.
  destruct (LogicalQubit.eqb k k') eqn:E.
  - apply LogicalQubit_eqb_eq in E. subst k'. f_equal.
    rewrite <- (map_id l) at 1. apply map_ext_in. intros [k2 v2] H2. simpl.
    destruct (LogicalQubit.eqb k k2) eqn:E2; [|reflexivity].
    apply LogicalQubit_eqb_eq in E2. subst k2. exfalso. apply Hx.
    unfold dict_keys. apply in_map_iff. now exists (k, v2).
  - f_equal. apply IH; [assumption|]. destruct Hin as [->|Hin]; [|assumption].
    now rewrite LogicalQubit_eqb_refl in E.
Qed.

Lemma one_to_one_fst (l : Layout) (k k' : LogicalQubit.t) (v : PhysicalQubit.t) :
  NoDup (map snd l) -> In (k, v) l -> In (k', v) l -> k = k'.
Proof.
  intros Hnd H1 H2. pose proof (last_on_present _ _ _ Hnd H1) as E1.
  pose proof (last_on_present _ _ _ Hnd H2) as E2. congruence.
Qed.

Lemma one_to_one_snd (l : Layout) (k : LogicalQubit.t) (v v' : PhysicalQubit.t) :
  NoDup (dict_keys l) -> In (k, v) l -> In (k, v') l -> v = v'.
Proof.
  intros Hnd H1 H2. apply (layout_get_In _ _ _ Hnd) in H1, H2. congruence.
Qed.

(** A swap on a one-to-one layout renames the physical qubits: what was on
    [pq1] is on [pq2], what was on [pq2] is on [pq1], the rest stays. *)
Lemma apply_swap_map (l : Layout) (pq1 pq2 : PhysicalQubit.t) :
  one_to_one l ->
  apply_swap l pq1 pq2 = map (fun item => (fst item, exchange pq1 pq2 (snd item))) l.
Proof.
  intros [Hk Hv]. unfold apply_swap. rewrite find_occupants_last. simpl.
  assert (Hkeys : forall lq pq, In (lq, pq) l -> In lq (dict_keys l)).
  { intros lq pq H. unfold dict_keys. apply in_map_iff. now exists (lq, pq). }
  destruct (last_on l pq1) as [lq1|] eqn:E1.
  - apply last_on_In in E1.
    destruct (PhysicalQubit.eqb pq2 pq1) eqn:E.
    + apply PhysicalQubit_eqb_eq in E. subst pq2.
      rewrite dict_set_present_map by eauto.
      apply map_ext_in. intros [k v] Hin. simpl. unfold exchange.
      destruct (LogicalQubit.eqb lq1 k) eqn:Ek.
      * apply LogicalQubit_eqb_eq in Ek. subst k.
        rewrite (one_to_one_snd _ _ _ _ Hk Hin E1). now rewrite PhysicalQubit_eqb_refl.
      * destruct (PhysicalQubit.eqb v pq1) eqn:Ev; [|reflexivity].
        apply PhysicalQubit_eqb_eq in Ev. now subst v.
    + apply PhysicalQubit_eqb_neq in E.
      destruct (last_on l pq2) as [lq2|] eqn:E2.
      * apply last_on_In in E2.
        assert (Hne : lq1 <> lq2).
        { intros ->. apply E. eapply one_to_one_snd; eassumption. }
        rewrite (dict_set_present_map l) by eauto.
        rewrite dict_set_present_map.
        -- rewrite map_map. apply map_ext_in. intros [k v] Hin. simpl. unfold exchange.
           destruct (LogicalQubit.eqb lq1 k) eqn:Ek; simpl.
           ++ apply LogicalQubit_eqb_eq in Ek. subst k.
              rewrite (one_to_one_snd _ _ _ _ Hk Hin E1).
              rewrite PhysicalQubit_eqb_refl.
              apply LogicalQubit_eqb_neq in Hne.
              destruct (LogicalQubit.eqb lq2 lq1) eqn:E3; [|reflexivity].
              apply LogicalQubit_eqb_eq in E3. subst lq2.
              now rewrite LogicalQubit_eqb_refl in Hne.
           ++ destruct (LogicalQubit.eqb lq2 k) eqn:Ek2.
              ** apply LogicalQubit_eqb_eq in Ek2. subst k.
                 rewrite (one_to_one_snd _ _ _ _ Hk Hin E2).
                 rewrite PhysicalQubit_eqb_refl.
                 apply PhysicalQubit_eqb_neq in E. now rewrite E.
              ** assert (N1 : PhysicalQubit.eqb v pq1 = false).
                 { apply PhysicalQubit_eqb_neq. intros ->.
                   apply LogicalQubit_eqb_neq in Ek. apply Ek.
                   eapply one_to_one_fst; eassumption. }
                 assert (N2 : PhysicalQubit.eqb v pq2 = false).
                 { apply PhysicalQubit_eqb_neq. intros ->.
                   apply LogicalQubit_eqb_neq in Ek2. apply Ek2.
                   eapply one_to_one_fst; eassumption. }
                 now rewrite N1, N2.
        -- unfold dict_keys. rewrite map_map.
           erewrite map_ext; [exact Hk|].
           intros [k v]. simpl. now destruct (LogicalQubit.eqb lq1 k).
        -- unfold dict_keys. rewrite map_map.
           erewrite map_ext; [exact (Hkeys _ _ E2)|].
           intros [k v]. simpl. now destruct (LogicalQubit.eqb lq1 k).
      * rewrite dict_set_present_map by eauto.
        apply map_ext_in. intros [k v] Hin. simpl. unfold exchange.
        destruct (LogicalQubit.eqb lq1 k) eqn:Ek.
        -- apply LogicalQubit_eqb_eq in Ek. subst k.
           rewrite (one_to_one_snd _ _ _ _ Hk Hin E1). now rewrite PhysicalQubit_eqb_refl.
        -- assert (N1 : PhysicalQubit.eqb v pq1 = false).
           { apply PhysicalQubit_eqb_neq. intros ->.
             apply LogicalQubit_eqb_neq in Ek. apply Ek.
             eapply one_to_one_fst; eassumption. }
           rewrite N1.
           destruct (PhysicalQubit.eqb v pq2) eqn:N2; [|reflexivity].
           apply PhysicalQubit_eqb_eq in N2. subst v.
           rewrite (last_on_present _ _ _ Hv Hin) in E2. discriminate.
  - assert (A1 : forall k v, In (k, v) l -> PhysicalQubit.eqb v pq1 = false).
    { intros k v Hin. apply PhysicalQubit_eqb_neq. intros ->.
      rewrite (last_on_present _ _ _ Hv Hin) in E1. discriminate. }
    destruct (PhysicalQubit.eqb pq2 pq1) eqn:E.
    + rewrite <- (map_id l) at 1. apply map_ext_in. intros [k v] Hin. simpl.
      unfold exchange. rewrite (A1 _ _ Hin).
      apply PhysicalQubit_eqb_eq in E. subst pq2. now rewrite (A1 _ _ Hin).
    + destruct (last_on l pq2) as [lq2|] eqn:E2.
      * apply last_on_In in E2. rewrite dict_set_present_map by eauto.
        apply map_ext_in. intros [k v] Hin. simpl. unfold exchange.
        rewrite (A1 _ _ Hin).
        destruct (LogicalQubit.eqb lq2 k) eqn:Ek.
        -- apply LogicalQubit_eqb_eq in Ek. subst k.
           rewrite (one_to_one_snd _ _ _ _ Hk Hin E2). now rewrite PhysicalQubit_eqb_refl.
        -- destruct (PhysicalQubit.eqb v pq2) eqn:N2; [|reflexivity].
           apply PhysicalQubit_eqb_eq in N2. subst v.
           apply LogicalQubit_eqb_neq in Ek. exfalso. apply Ek.
           eapply one_to_one_fst; eassumption.
      * rewrite <- (map_id l) at 1. apply map_ext_in. intros [k v] Hin. simpl.
        unfold exchange. rewrite (A1 _ _ Hin).
        destruct (PhysicalQubit.eqb v pq2) eqn:N2; [|reflexivity].
        apply PhysicalQubit_eqb_eq in N2. subst v.
        rewrite (last_on_present _ _ _ Hv Hin) in E2. discriminate.
Qed.

Lemma exchange_involutive (pq1 pq2 x : PhysicalQubit.t) :
  exchange pq1 pq2 (exchange pq1 pq2 x) = x.
Proof.
  unfold exchange.
  destruct (PhysicalQubit.eqb x pq1) eqn:E1.
  - apply PhysicalQubit_eqb_eq in E1. subst x.
    destruct (PhysicalQubit.eqb pq2 pq1) eqn:E2.
    + now apply PhysicalQubit_eqb_eq in E2.
    + now rewrite PhysicalQubit_eqb_refl.
  - destruct (PhysicalQubit.eqb x pq2) eqn:E2.
    + apply PhysicalQubit_eqb_eq in E2. subst x. now rewrite PhysicalQubit_eqb_refl.
    + now rewrite E1, E2.
Qed.

Lemma exchange_comm (pq1 pq2 x : PhysicalQubit.t) :
  exchange pq1 pq2 x = exchange pq2 pq1 x.
Proof.
  unfold exchange.
  destruct (PhysicalQubit.eqb x pq1) eqn:E1, (PhysicalQubit.eqb x pq2) eqn:E2;
    try reflexivity.
  apply PhysicalQubit_eqb_eq in E1, E2. congruence.
Qed.

Lemma layout_get_map (f : PhysicalQubit.t -> PhysicalQubit.t) (l : Layout)
  (lq : LogicalQubit.t) :
  layout_get (map (fun item => (fst item, f (snd item))) l) lq
  = option_map f (layout_get l lq).
Proof.
  unfold layout_get. induction l as [|[k v] l IH]; simpl; [reflexivity|].
  now destruct (LogicalQubit.eqb lq k).
Qed.

Lemma apply_swap_one_to_one (l : Layout) (pq1 pq2 : PhysicalQubit.t) :
  one_to_one l -> one_to_one (apply_swap l pq1 pq2).
Proof.
  intros H. split.
  - rewrite apply_swap_keys. apply H.
  - rewrite (apply_swap_map _ _ H), map_map. simpl.
    rewrite <- (map_map snd (exchange pq1 pq2)).
    apply Finite.Injective_map_NoDup; [|apply H].
    intros x y E. apply (f_equal (exchange pq1 pq2)) in E.
    now rewrite !exchange_involutive in E.
Qed.

Lemma initialize_layout_one_to_one (n : Z) : one_to_one (initialize_layout n).
Proof.
  assert (Hr : NoDup (range n)).
  { unfold range. apply Finite.Injective_map_NoDup; [|apply seq_NoDup].
    intros x y. lia. }
  split.
  - rewrite initialize_layout_keys. apply Finite.Injective_map_NoDup; [|exact Hr].
    intros x y [= E]. exact E.
  - unfold initialize_layout. rewrite map_map. simpl.
    apply Finite.Injective_map_NoDup; [|exact Hr].
    intros x y [= E]. exact E.
Qed.

(** X3.  On a layout that is one-to-one, [_apply_swap] is a transposition of
    the physical qubits: every logical qubit keeps its place in the
    dictionary, the one on [pq1] moves to [pq2], the one on [pq2] moves to
    [pq1], every other one stays; and the layout is one-to-one again. *)
Theorem apply_swap_exchanges (l : Layout) (pq1 pq2 : PhysicalQubit.t) :
  one_to_one l ->
  one_to_one (apply_swap l pq1 pq2) /\
  dict_keys (apply_swap l pq1 pq2) = dict_keys l /\
  forall lq, layout_get (apply_swap l pq1 pq2) lq
             = option_map (exchange pq1 pq2) (layout_get l lq).
Proof.
  intros H. split; [now apply apply_swap_one_to_one|].
  split; [apply apply_swap_keys|].
  intros lq. rewrite (apply_swap_map _ _ H). apply layout_get_map.
Qed.

Lemma map_exchange_id (pq1 pq2 : PhysicalQubit.t) (l : Layout) :
  map (fun item => (fst item, exchange pq1 pq2 (snd item)))
      (map (fun item => (fst item, exchange pq1 pq2 (snd item))) l) = l.
Proof.
  rewrite map_map. rewrite <- (map_id l) at 2. apply map_ext.
  intros [k v]. simpl. now rewrite exchange_involutive.
Qed.

(** X4.  On a one-to-one layout a swap undoes itself, and the order in which
    its two qubits are given does not matter. *)
Theorem apply_swap_twice (l : Layout) (pq1 pq2 : PhysicalQubit.t) :
  one_to_one l ->
  apply_swap (apply_swap l pq1 pq2) pq1 pq2 = l /\
  apply_swap l pq2 pq1 = apply_swap l pq1 pq2.
Proof.
  intros H. split.
  - rewrite (apply_swap_map _ _ (apply_swap_one_to_one pq1 pq2 H)).
    rewrite (apply_swap_map _ _ H). apply map_exchange_id.
  - rewrite !(apply_swap_map _ _ H). apply map_ext.
    intros [k v]. simpl. now rewrite exchange_comm.
Qed.

Lemma dict_set_same_value (l : Layout) (k : LogicalQubit.t) (v : PhysicalQubit.t) :
  NoDup (dict_keys l) -> In (k, v) l -> dict_set LogicalQubit.eqb l k v = l.
Proof.
  intros Hnd Hin. rewrite dict_set_present_map; [|assumption|].
  - rewrite <- (map_id l) at 2. apply map_ext_in. intros [k' v'] Hin'. simpl.
    destruct (LogicalQubit.eqb k k') eqn:E; [|reflexivity].
    apply LogicalQubit_eqb_eq in E. subst k'.
    now rewrite (one_to_one_snd _ _ _ _ Hnd Hin Hin').
  - unfold dict_keys. apply in_map_iff. now exists (k, v).
Qed.

(** X5.  On a one-to-one layout the annotation's own
    [swap_physical_qubits] does what the router's [_apply_swap] does, and
    its two lookups are inverse to each other. *)
Theorem swap_physical_qubits_agrees (m : CurrentLayoutOp.t) (p1 p2 : PhysicalQubit.t) :
  one_to_one (CurrentLayoutOp.layout m) ->
  CurrentLayoutOp.layout (CurrentLayoutOp.swap_physical_qubits m p1 p2)
  = apply_swap (CurrentLayoutOp.layout m) p1 p2 /\
  forall lq pq,
    CurrentLayoutOp.get_physical_qubit m lq = Some pq <->
    CurrentLayoutOp.get_logical_qubit m pq = Some lq.
Proof.
  destruct m as [l]. simpl. intros H. pose proof H as [Hk Hv]. split.
  - unfold CurrentLayoutOp.swap_physical_qubits, CurrentLayoutOp.get_logical_qubit.
    simpl. rewrite !(first_on_last_on _ _ Hv).
    destruct (PhysicalQubit.eqb p2 p1) eqn:E.
    + apply PhysicalQubit_eqb_eq in E. subst p2.
      rewrite (apply_swap_map _ _ H).
      assert (Hid : map (fun item : LogicalQubit.t * PhysicalQubit.t =>
                           (fst item, exchange p1 p1 (snd item))) l = l).
      { rewrite <- (map_id l) at 2. apply map_ext. intros [k v]. simpl.
        unfold exchange. destruct (PhysicalQubit.eqb v p1) eqn:E; [|reflexivity].
        apply PhysicalQubit_eqb_eq in E. now subst v. }
      rewrite Hid. destruct (last_on l p1) as [lq1|] eqn:E1; [|reflexivity].
      apply last_on_In in E1. now rewrite !(dict_set_same_value _ _ _ Hk E1).
    + unfold apply_swap. rewrite find_occupants_last, E. reflexivity.
  - intros lq pq. unfold CurrentLayoutOp.get_physical_qubit,
      CurrentLayoutOp.get_logical_qubit. simpl.
    change (dict_get LogicalQubit.eqb l lq) with (layout_get l lq).
    rewrite <- (layout_get_In _ _ _ Hk), (first_on_last_on _ _ Hv). split.
    + now apply last_on_present.
    + apply last_on_In.
Qed.

(* ------------------------------------------------------------------ *)
(** ** The front layer is the longest independent prefix *)

Lemma ForallOrdPairs_snoc (A : Type) (R : A -> A -> Prop) (l : list A) (x : A) :
  ForallOrdPairs R l -> Forall (fun y => R y x) l -> ForallOrdPairs R (l ++ [x]).
Proof.
  induction 1 as [|a l Ha Hl IH]; intros Hx; simpl.
  - constructor; constructor.
  - inversion Hx; subst. constructor; [|now apply IH].
    apply Forall_app. split; [assumption | now constructor].
Qed.

Lemma build_front_layer_loop_independent (ops : list Operation) :
  forall F U,
  (forall lq, In lq U <->
     exists g, In g F /\ (lq = TryTwoQubitOp.control g \/ lq = TryTwoQubitOp.target g)) ->
  ForallOrdPairs (fun g h => ~ shares_qubit g h) F ->
  exists rest,
    F ++ two_qubit_gates ops = build_front_layer_loop ops F U ++ rest /\
    ForallOrdPairs (fun g h => ~ shares_qubit g h) (build_front_layer_loop ops F U) /\
    (forall h rest', rest = h :: rest' ->
       exists g, In g (build_front_layer_loop ops F U) /\ shares_qubit g h).
Proof.
  induction ops as [|op ops IH]; intros F U HU HF.
  - exists []. simpl. repeat split; auto. discriminate.
  - destruct op as [x|g|x|x]; try (apply IH; assumption).
    cbn [build_front_layer_loop].
    destruct (set_mem LogicalQubit.eqb (TryTwoQubitOp.control g) U) eqn:Ec;
      [|destruct (set_mem LogicalQubit.eqb (TryTwoQubitOp.target g) U) eqn:Et]; simpl.
    + exists (g :: two_qubit_gates ops). repeat split; auto.
      intros h rest' [= <- _]. apply set_mem_LogicalQubit, HU in Ec as (f & Hf & Hq).
      exists f. split; [assumption|]. unfold shares_qubit. destruct Hq as [->| ->]; auto.
    + exists (g :: two_qubit_gates ops). repeat split; auto.
      intros h rest' [= <- _]. apply set_mem_LogicalQubit, HU in Et as (f & Hf & Hq).
      exists f. split; [assumption|]. unfold shares_qubit. destruct Hq as [->| ->]; auto.
    + assert (Nc : ~ In (TryTwoQubitOp.control g) U).
      { intros H. apply set_mem_LogicalQubit in H. congruence. }
      assert (Nt : ~ In (TryTwoQubitOp.target g) U).
      { intros H. apply set_mem_LogicalQubit in H. congruence. }
      destruct (IH (F ++ [g]) (set_add (set_add U (TryTwoQubitOp.control g))
                                       (TryTwoQubitOp.target g)))
        as (rest & E & Hind & Hstop).
      * intros lq. unfold set_add. rewrite !in_app_iff, HU. simpl. split.
        -- intros [[(f & Hf & Hq)|[<-|[]]]|[<-|[]]].
           ++ exists f. rewrite in_app_iff. auto.
           ++ exists g. rewrite in_app_iff. simpl. auto.
           ++ exists g. rewrite in_app_iff. simpl. auto.
        -- intros (f & Hf & Hq). apply in_app_iff in Hf as [Hf|[<-|[]]].
           ++ left; left. now exists f.
           ++ destruct Hq as [->| ->]; auto.
      * apply ForallOrdPairs_snoc; [assumption|].
        apply Forall_forall. intros f Hf Hs.
        assert (Hfc : In (TryTwoQubitOp.control f) U) by (apply HU; exists f; auto).
        assert (Hft : In (TryTwoQubitOp.target f) U) by (apply HU; exists f; auto).
        destruct Hs as [E|[E|[E|E]]]; rewrite E in *; contradiction.
      * exists rest. rewrite <- E, <- app_assoc. repeat split; auto.
Qed.

(** X12.  The front layer is the longest prefix of the two-qubit gates of
    the remaining program in which no two gates share a logical qubit: it is
    a prefix of these gates, its gates are pairwise disjoint, and the
    two-qubit gate that follows it, when there is one, shares a qubit with
    one of its gates.  Single-qubit gates and router operations in between
    do not end it. *)
Theorem front_layer_longest_independent_prefix (remaining_ops : list Operation) :
  exists rest,
    two_qubit_gates remaining_ops = build_front_layer remaining_ops ++ rest /\
    ForallOrdPairs (fun g h => ~ shares_qubit g h) (build_front_layer remaining_ops) /\
    (forall h rest', rest = h :: rest' ->
       exists g, In g (build_front_layer remaining_ops) /\ shares_qubit g h).
Proof.
  apply (@build_front_layer_loop_independent remaining_ops [] []).
  - intros lq. split; [intros [] | intros (g & [] & _)].
  - constructor.
Qed.

(* ------------------------------------------------------------------ *)
(** ** The routed IR, operation by operation *)

Lemma each_position_nil Q out : each_position Q out [].
Proof. intros pre op post E. destruct pre; discriminate. Qed.

Lemma each_position_cons Q out op rest :
  Q out op -> each_position Q (out ++ [op]) rest -> each_position Q out (op :: rest).
Proof.
  intros H1 H2 pre op' post E. destruct pre as [|x pre]; simpl in E.
  - injection E as <- <-. now rewrite app_nil_r.
  - injection E as <- E. specialize (H2 pre op' post E).
    now rewrite <- app_assoc in H2.
Qed.

Lemma each_position_app Q out a b :
  each_position Q out a -> each_position Q (out ++ a) b -> each_position Q out (a ++ b).
Proof.
  revert out. induction a as [|x a IH]; intros out Ha Hb; simpl.
  - now rewrite app_nil_r in Hb.
  - apply each_position_cons.
    + specialize (Ha [] x a eq_refl). now rewrite app_nil_r in Ha.
    + apply IH.
      * intros pre op post E. specialize (Ha (x :: pre) op post).
        rewrite <- app_assoc. apply Ha. simpl. now rewrite E.
      * now rewrite <- app_assoc.
Qed.

Section Trace.
Context {SO : SetOrder}.
Variable topology : Topology.

(** The swaps of one run of the inner loop on the front layer [F]: each is
    the selection made on the layout the swaps before it have left. *)
Inductive swap_chain (F : list TryTwoQubitOp.t) :
  Layout -> list Operation -> Layout -> Prop :=
| chain_done l : swap_chain F l [] l
| chain_swap l swap swaps l' :
    select_best_swap topology l F = Return (Some swap) ->
    swap_chain F (apply_swap l (InsertSwapOp.qubit1 swap) (InsertSwapOp.qubit2 swap))
               swaps l' ->
    swap_chain F l (OpSwap swap :: swaps) l'.

(** What the outer loop emits for the operations [remaining] from the
    layout [l], and the layout it ends with. *)
Inductive routed : list Operation -> Layout -> list Operation -> Layout -> Prop :=
| routed_done l : routed [] l [] l
| routed_gate g rest l swaps l1 emitted l2 :
    In (TryTwoQubitOp.control g) (dict_keys l) ->
    In (TryTwoQubitOp.target g) (dict_keys l) ->
    swap_chain (build_front_layer (OpTryTwo g :: rest)) l swaps l1 ->
    routed rest l1 emitted l2 ->
    routed (OpTryTwo g :: rest) l
           (swaps ++ annotation swaps l1 ++ OpTryTwo g :: emitted) l2
| routed_other op rest l emitted l2 :
    (forall g, op <> OpTryTwo g) ->
    routed rest l emitted l2 ->
    routed (op :: rest) l (op :: emitted) l2.

Lemma swap_loop_chain remaining op fuel :
  forall st st',
  RouteState.front_layer st = build_front_layer remaining ->
  swap_loop topology fuel remaining op st = Return st' ->
  exists swaps,
    RouteState.optimized_ops st' = RouteState.optimized_ops st ++ swaps /\
    RouteState.num_swaps_for_gate st'
    = (RouteState.num_swaps_for_gate st + List.length swaps)%nat /\
    swap_chain (build_front_layer remaining) (RouteState.current_layout st) swaps
               (RouteState.current_layout st').
Proof.
  assert (Hnow : forall st, exists swaps,
            RouteState.optimized_ops st = RouteState.optimized_ops st ++ swaps /\
            RouteState.num_swaps_for_gate st
            = (RouteState.num_swaps_for_gate st + List.length swaps)%nat /\
            swap_chain (build_front_layer remaining) (RouteState.current_layout st) swaps
                       (RouteState.current_layout st)).
  { intros st. exists []. rewrite app_nil_r. simpl. repeat split; [lia | constructor]. }
  induction fuel as [|fuel IH]; intros st st' Hf; simpl;
    destruct (are_adjacent topology _ _) eqn:Eadj; try discriminate.
  - intros [= <-]. apply Hnow.
  - intros [= <-]. apply Hnow.
  - destruct (swap_round topology remaining op st) as [[st1|]| |] eqn:Er; try discriminate.
    + intros H.
      apply swap_round_Some in Er as (swap & Hsel & Hl & Ho & Hn & Hf1 & _).
      apply (IH _ _ Hf1) in H as (swaps & Hops & Hcount & Hchain).
      exists (OpSwap swap :: swaps). split; [|split].
      * rewrite Hops, Ho. now rewrite <- app_assoc.
      * rewrite Hcount, Hn. simpl. lia.
      * rewrite Hf in Hsel. rewrite Hl in Hchain. econstructor; eassumption.
    + intros [= <-]. apply Hnow.
Qed.

Lemma optimize_loop_routed fuel remaining :
  forall layout out res,
  optimize_loop topology fuel remaining layout out = Return res ->
  exists emitted l', res = out ++ emitted /\ routed remaining layout emitted l'.
Proof.
  induction remaining as [|op rest IH]; intros layout out res.
  - simpl. intros [= <-]. exists [], layout. rewrite app_nil_r. split; [reflexivity|].
    constructor.
  - assert (Hother : (forall g, op <> OpTryTwo g) ->
                     optimize_loop topology fuel rest layout (out ++ [op]) = Return res ->
                     exists emitted l',
                       res = out ++ emitted /\ routed (op :: rest) layout emitted l').
    { intros Hop H. apply IH in H as (em & l' & -> & Hr).
      exists (op :: em), l'. rewrite <- app_assoc. split; [reflexivity|].
      now constructor. }
    destruct op as [g|g|g|g]; try (apply Hother; discriminate). clear Hother. simpl.
    destruct (get_physical_qubits layout _ _) as [[p1 p2]| |] eqn:Eq; try discriminate.
    apply get_physical_qubits_Return in Eq as [Hc Ht].
    destruct (swap_loop topology fuel _ g _) as [st| |] eqn:El; try discriminate.
    apply swap_loop_chain in El as (swaps & Hops & Hcount & Hchain); [|reflexivity].
    simpl in Hops, Hcount, Hchain.
    intros H. apply IH in H as (em & l' & -> & Hr).
    exists (swaps ++ annotation swaps (RouteState.current_layout st) ++ OpTryTwo g :: em), l'.
    split.
    + unfold emit_gate. rewrite Hops, Hcount.
      destruct swaps as [|s swaps]; simpl.
      * now rewrite app_nil_r, <- app_assoc.
      * rewrite <- !app_assoc. reflexivity.
    + constructor; try assumption.
      * apply layout_get_Some_iff. eauto.
      * apply layout_get_Some_iff. eauto.
Qed.

Lemma swap_chain_swaps F l swaps l' :
  swap_chain F l swaps l' -> forall o, In o swaps -> is_swap o = true.
Proof.
  induction 1 as [|l swap swaps l' Hsel Hc IH]; intros o; [intros []|].
  intros [<-|Hin]; [reflexivity | now apply IH].
Qed.

Lemma swap_chain_one_to_one F l swaps l' :
  swap_chain F l swaps l' -> one_to_one l ->
  one_to_one l' /\ dict_keys l' = dict_keys l.
Proof.
  induction 1 as [|l swap swaps l' Hsel Hc IH]; intros H; [now split|].
  destruct IH as [H1 H2]; [now apply apply_swap_one_to_one|].
  split; [assumption|]. now rewrite H2, apply_swap_keys.
Qed.

Lemma swap_chain_keys F l swaps l' :
  swap_chain F l swaps l' -> dict_keys l' = dict_keys l.
Proof.
  induction 1 as [|l swap swaps l' Hsel Hc IH]; [reflexivity|].
  now rewrite IH, apply_swap_keys.
Qed.

Lemma replay_app (a b : list Operation) :
  replay (a ++ b) = fold_left replay_step b (replay a).
Proof. unfold replay. apply fold_left_app. Qed.

Lemma swap_chain_replay F l swaps l' :
  swap_chain F l swaps l' -> fold_left replay_step swaps (Some l) = Some l'.
Proof. induction 1 as [|l swap swaps l' Hsel Hc IH]; [reflexivity | exact IH]. Qed.

(** The walk through what the outer loop emits: at each inserted swap the
    reader's layout is the one the swap was selected on; at each inserted
    annotation it already is the annotated layout; at each gate it is the
    most recent annotation. *)
Lemma routed_positions (Q : list Operation -> Operation -> Prop) :
  (forall prefix l F swap,
     replay prefix = Some l ->
     select_best_swap topology l F = Return (Some swap) ->
     Q prefix (OpSwap swap)) ->
  (forall prefix l,
     prefix <> [] -> replay prefix = Some l ->
     Q prefix (OpLayout (CurrentLayoutOp.mk l))) ->
  (forall prefix l op,
     replay prefix = Some l -> last_layout prefix = Some l ->
     is_router_op op = false -> Q prefix op) ->
  forall remaining l emitted l',
  routed remaining l emitted l' ->
  only_gates remaining ->
  forall out, out <> [] -> replay out = Some l -> last_layout out = Some l ->
  each_position Q out emitted /\
  replay (out ++ emitted) = Some l' /\ last_layout (out ++ emitted) = Some l'.
Proof.
  intros Hswap Hmark Hgate remaining l emitted l' Hr.
  induction Hr as [l | g rest l swaps l1 em l2 Hc Ht Hchain Hr IH
                     | op rest l em l2 Hop Hr IH];
    intros Hg out Hne Hrep Hlast.
  - rewrite app_nil_r. split; [apply each_position_nil | now split].
  - apply only_gates_cons in Hg as [_ Hg].
    assert (Hs : each_position Q out swaps /\ replay (out ++ swaps) = Some l1).
    { clear Hr IH Hlast Hc Ht. revert out Hne Hrep.
      induction Hchain as [l|l swap swaps l' Hsel Hch IHc]; intros out Hne Hrep.
      - rewrite app_nil_r. split; [apply each_position_nil | assumption].
      - destruct (IHc (out ++ [OpSwap swap])) as [H1 H2].
        + destruct out; discriminate.
        + rewrite replay_app, Hrep. reflexivity.
        + split.
          * apply each_position_cons; [|assumption]. eapply Hswap; eassumption.
          * now rewrite <- app_assoc in H2. }
    destruct Hs as [Hs1 Hs2].
    assert (Hls : last_layout (out ++ swaps) = Some l).
    { rewrite last_layout_app, (last_layout_swaps _ (swap_chain_swaps Hchain)).
      assumption. }
    assert (Ha : each_position Q (out ++ swaps) (annotation swaps l1) /\
                 replay ((out ++ swaps) ++ annotation swaps l1) = Some l1 /\
                 last_layout ((out ++ swaps) ++ annotation swaps l1) = Some l1).
    { destruct swaps as [|s swaps]; simpl.
      - rewrite !app_nil_r in *. inversion Hchain; subst.
        split; [apply each_position_nil | now split].
      - split; [|split].
        + apply each_position_cons; [|apply each_position_nil].
          apply Hmark; [|assumption]. destruct out; discriminate.
        + rewrite replay_app. reflexivity.
        + rewrite last_layout_app. reflexivity. }
    destruct Ha as (Ha1 & Ha2 & Ha3).
    destruct (IH Hg (((out ++ swaps) ++ annotation swaps l1) ++ [OpTryTwo g]))
      as (Hi1 & Hi2 & Hi3).
    + destruct ((out ++ swaps) ++ annotation swaps l1); discriminate.
    + rewrite replay_app, Ha2. reflexivity.
    + rewrite last_layout_app. simpl. assumption.
    + rewrite <- !app_assoc in Hi2, Hi3. simpl in Hi2, Hi3.
      split; [|now split].
      apply each_position_app; [assumption|].
      apply each_position_app; [assumption|].
      apply each_position_cons; [|assumption].
      eapply Hgate; eauto.
  - apply only_gates_cons in Hg as [Hg1 Hg].
    destruct (IH Hg (out ++ [op])) as (Hi1 & Hi2 & Hi3).
    + destruct out; discriminate.
    + rewrite replay_app, Hrep. destruct op; simpl in *; try discriminate; reflexivity.
    + rewrite last_layout_app. destruct op; simpl in *; try discriminate; assumption.
    + rewrite <- !app_assoc in Hi2, Hi3. simpl in Hi2, Hi3.
      split; [|now split].
      apply each_position_cons; [|assumption]. eapply Hgate; eauto.
Qed.

End Trace.

(* ------------------------------------------------------------------ *)
(** ** What the pass adds to a circuit *)

Lemma count_swaps_app (a b : QMapIR) : count_swaps (a ++ b) = (count_swaps a + count_swaps b)%Z.
Proof.
  unfold count_swaps. rewrite filter_app, map_app.
  induction (map (fun _ => 1%Z) (filter _ a)) as [|x xs IH]; cbn [app fold_right]; lia.
Qed.

Lemma count_swaps_swaps (swaps : list Operation) :
  (forall o, In o swaps -> is_swap o = true) ->
  count_swaps swaps = Z.of_nat (List.length swaps).
Proof.
  induction swaps as [|o swaps IH]; intros H; [reflexivity|].
  assert (Ho : is_swap o = true) by (apply H; now left).
  assert (IH' : count_swaps swaps = Z.of_nat (List.length swaps)).
  { apply IH. intros o' Hin. apply H. now right. }
  destruct o; simpl in Ho; try discriminate.
  unfold count_swaps in *. cbn [filter map fold_right List.length].
  rewrite Nat2Z.inj_succ, IH'. lia.
Qed.

Lemma count_swaps_nonneg (ir : QMapIR) : (0 <= count_swaps ir)%Z.
Proof.
  unfold count_swaps. induction (filter _ ir) as [|x xs IH]; cbn [map fold_right]; lia.
Qed.

Lemma count_swaps_only_gates (ir : QMapIR) : only_gates ir -> count_swaps ir = 0%Z.
Proof.
  induction ir as [|op ir IH]; intros H; [reflexivity|].
  apply only_gates_cons in H as [Hop Hir].
  change (op :: ir) with ([op] ++ ir). rewrite count_swaps_app, IH by assumption.
  destruct op; simpl in Hop; try discriminate; reflexivity.
Qed.

Section RoutedIR.
Context {SO : SetOrder}.
Variable topology : Topology.

Lemma optimize_routed (fuel : nat) (ir out : QMapIR) :
  optimize topology fuel ir = Return out ->
  exists n emitted l',
    count_qubits (referenced_qubits ir) = Return n /\
    out = OpLayout (CurrentLayoutOp.mk (initialize_layout n)) :: emitted /\
    routed topology ir (initialize_layout n) emitted l'.
Proof.
  intros H. apply optimize_Return in H as (n & Hn & H).
  apply optimize_loop_routed in H as (em & l' & -> & Hr).
  now exists n, em, l'.
Qed.

Lemma routed_layouts remaining l emitted l' :
  routed topology remaining l emitted l' ->
  only_gates remaining -> one_to_one l ->
  (forall m, In (OpLayout m) emitted ->
             one_to_one (CurrentLayoutOp.layout m) /\
             dict_keys (CurrentLayoutOp.layout m) = dict_keys l) /\
  one_to_one l' /\ dict_keys l' = dict_keys l.
Proof.
  induction 1 as [l | g rest l swaps l1 em l2 Hc Ht Hchain Hr IH
                    | op rest l em l2 Hop Hr IH]; intros Hg H1.
  - split; [intros m [] | now split].
  - apply only_gates_cons in Hg as [_ Hg].
    destruct (swap_chain_one_to_one Hchain H1) as [H2 Hk].
    destruct (IH Hg H2) as (Hm & H3 & Hk').
    split; [|split; [assumption | congruence]].
    intros m Hin. apply in_app_or in Hin as [Hin|Hin].
    + apply (swap_chain_swaps Hchain) in Hin. discriminate.
    + apply in_app_or in Hin as [Hin|[Hin|Hin]].
      * destruct swaps; simpl in Hin; [contradiction|].
        destruct Hin as [[= <-]|[]]. now split.
      * discriminate.
      * destruct (Hm m Hin) as [Ha Hb]. split; [assumption | congruence].
  - apply only_gates_cons in Hg as [Hg1 Hg].
    destruct (IH Hg H1) as (Hm & H3 & Hk').
    split; [|now split].
    intros m [->|Hin]; [discriminate | now apply Hm].
Qed.


(** X6.  Every layout annotation of a routed IR is one-to-one on the same
    logical qubits: the pass never puts two logical qubits on one physical
    qubit, and every annotation lists the qubits 0 to n-1 of the initial
    layout, in that order. *)
Theorem annotations_one_to_one (fuel : nat) (ir out : QMapIR) :
  only_gates ir ->
  optimize topology fuel ir = Return out ->
  exists n,
    count_qubits (referenced_qubits ir) = Return n /\
    forall m, In (OpLayout m) out ->
      NoDup (map snd (CurrentLayoutOp.layout m)) /\
      dict_keys (CurrentLayoutOp.layout m) = map LogicalQubit.mk (range n).
Proof.
  intros Hg H. apply optimize_routed in H as (n & em & l' & Hn & -> & Hr).
  exists n. split; [assumption|].
  destruct (routed_layouts Hr Hg (initialize_layout_one_to_one n)) as (Hm & _).
  intros m [[= <-]|Hin]; simpl.
  - split; [apply initialize_layout_one_to_one | apply initialize_layout_keys].
  - destruct (Hm m Hin) as [[_ Ha] Hb]. split; [assumption|].
    now rewrite Hb, initialize_layout_keys.
Qed.

Lemma optimize_positions (Q : list Operation -> Operation -> Prop)
  (fuel : nat) (ir out : QMapIR) :
  (forall prefix l F swap,
     replay prefix = Some l ->
     select_best_swap topology l F = Return (Some swap) ->
     Q prefix (OpSwap swap)) ->
  (forall prefix l,
     prefix <> [] -> replay prefix = Some l ->
     Q prefix (OpLayout (CurrentLayoutOp.mk l))) ->
  (forall prefix l op,
     replay prefix = Some l -> last_layout prefix = Some l ->
     is_router_op op = false -> Q prefix op) ->
  only_gates ir ->
  optimize topology fuel ir = Return out ->
  forall pre op post, out = pre ++ op :: post -> pre <> [] -> Q pre op.
Proof.
  intros Hswap Hmark Hgate Hg H pre op post E Hne.
  apply optimize_routed in H as (n & em & l' & Hn & -> & Hr).
  pose proof (@routed_positions SO topology Q Hswap Hmark Hgate _ _ _ _ Hr Hg
                [OpLayout (CurrentLayoutOp.mk (initialize_layout n))]) as HP.
  destruct HP as (Hpos & _); try reflexivity; try discriminate.
  destruct pre as [|x pre]; [congruence|]. simpl in E. injection E as <- E.
  apply (Hpos pre op post E).
Qed.

(** X7.  The annotations of a routed IR agree with its swaps.  A reader who
    starts from the first annotation and applies every swap it meets holds,
    at each later annotation, the annotated layout already; and at each
    gate, single-qubit or two-qubit, what it holds is the most recent
    annotation: no swap stands between an annotation and the gate that
    follows it. *)
Theorem annotations_replay_swaps (fuel : nat) (ir out : QMapIR) :
  only_gates ir ->
  optimize topology fuel ir = Return out ->
  (forall pre m post,
     out = pre ++ OpLayout m :: post -> pre <> [] ->
     replay pre = Some (CurrentLayoutOp.layout m)) /\
  (forall pre op post,
     out = pre ++ op :: post -> is_router_op op = false ->
     exists l, replay pre = Some l /\ last_layout pre = Some l).
Proof.
  intros Hg H.
  pose (Q := fun (prefix : list Operation) (op : Operation) =>
               (forall m, op = OpLayout m -> replay prefix = Some (CurrentLayoutOp.layout m)) /\
               (is_router_op op = false ->
                exists l, replay prefix = Some l /\ last_layout prefix = Some l)).
  assert (HQ : forall pre op post, out = pre ++ op :: post -> pre <> [] -> Q pre op).
  { apply (@optimize_positions Q fuel ir out); try assumption.
    - intros prefix l F swap _ _. split; [discriminate | discriminate].
    - intros prefix l _ Hrep. split; [|discriminate]. intros m [= <-]. assumption.
    - intros prefix l op Hrep Hlast Hop. split.
      + intros m ->. discriminate.
      + intros _. now exists l. }
  split.
  - intros pre m post E Hne. now apply (HQ pre _ post E Hne).
  - intros pre op post E Hop. apply (HQ pre op post E); [|assumption].
    intros ->. simpl in E. subst out.
    apply optimize_routed in H as (n & em & l' & _ & [= -> _] & _). discriminate.
Qed.

(** X8.  Every swap the pass inserts is written smaller id first, carries
    the cost [1 - fidelity] of its pair, and touches a physical qubit that
    holds a logical qubit at that point of the routed IR. *)
Theorem inserted_swaps (fuel : nat) (ir out : QMapIR) :
  only_gates ir ->
  optimize topology fuel ir = Return out ->
  forall pre s post,
    out = pre ++ OpSwap s :: post ->
    (PhysicalQubit.id (InsertSwapOp.qubit1 s) <= PhysicalQubit.id (InsertSwapOp.qubit2 s))%Z /\
    InsertSwapOp.cost s
    = 1 - get_fidelity topology (PhysicalQubit.str (InsertSwapOp.qubit1 s))
                                (PhysicalQubit.str (InsertSwapOp.qubit2 s)) /\
    exists l lq,
      replay pre = Some l /\
      (layout_get l lq = Some (InsertSwapOp.qubit1 s) \/
       layout_get l lq = Some (InsertSwapOp.qubit2 s)).
Proof.
  intros Hg H pre s post E.
  pose (Q := fun (prefix : list Operation) (op : Operation) =>
    forall s, op = OpSwap s ->
    (PhysicalQubit.id (InsertSwapOp.qubit1 s) <= PhysicalQubit.id (InsertSwapOp.qubit2 s))%Z /\
    InsertSwapOp.cost s
    = 1 - get_fidelity topology (PhysicalQubit.str (InsertSwapOp.qubit1 s))
                                (PhysicalQubit.str (InsertSwapOp.qubit2 s)) /\
    exists l lq,
      replay prefix = Some l /\
      (layout_get l lq = Some (InsertSwapOp.qubit1 s) \/
       layout_get l lq = Some (InsertSwapOp.qubit2 s))).
  assert (HQ : forall pre op post, out = pre ++ op :: post -> pre <> [] -> Q pre op).
  { apply (@optimize_positions Q fuel ir out); try assumption.
    - intros prefix l F swap Hrep Hsel s' [= <-].
      apply select_best_swap_Some in Hsel as (cands & Hc & Hin & Hcost & _).
      apply (proj2 (get_candidate_swaps_In _ _ _ Hc)) in Hin
        as (pq & n & k & Hpq & _ & _ & Hpair).
      apply physical_qubits_in_front_In in Hpq as (lq & _ & Hlq).
      unfold sorted_pair in Hpair. injection Hpair as H1 H2.
      split; [lia|]. split; [exact Hcost|].
      exists l, lq. split; [assumption|].
      destruct (InsertSwapOp.qubit1 swap) as [a], (InsertSwapOp.qubit2 swap) as [b],
        pq as [c]. simpl in *.
      destruct (Z.min_spec c k) as [[_ Hm]|[_ Hm]].
      + left. rewrite Hlq. do 2 f_equal. lia.
      + destruct (Z.max_spec c k) as [[_ Hx]|[_ Hx]].
        * left. rewrite Hlq. do 2 f_equal. lia.
        * right. rewrite Hlq. do 2 f_equal. lia.
    - intros prefix l _ _ s' [=].
    - intros prefix l op _ _ Hop s' ->. discriminate. }
  apply (HQ pre (OpSwap s) post E); [|reflexivity].
  intros ->. simpl in E. subst out.
  apply optimize_routed in H as (n & em & l' & _ & [=] & _).
Qed.

(** X9.  On a device all of whose neighbour labels are [P0] to [P9], every
    swap the pass inserts joins two physical qubits that are neighbours in
    the coupling graph. *)
Theorem inserted_swaps_on_edges (fuel : nat) (ir out : QMapIR) :
  (forall q n, In n (get_neighbors topology q) ->
     exists k, (0 <= k <= 9)%Z /\ n = PhysicalQubit.str (PhysicalQubit.mk k)) ->
  only_gates ir ->
  optimize topology fuel ir = Return out ->
  forall s, In (OpSwap s) out ->
    are_adjacent topology (PhysicalQubit.str (InsertSwapOp.qubit1 s))
                          (PhysicalQubit.str (InsertSwapOp.qubit2 s)) = true \/
    are_adjacent topology (PhysicalQubit.str (InsertSwapOp.qubit2 s))
                          (PhysicalQubit.str (InsertSwapOp.qubit1 s)) = true.
Proof.
  intros Hlabels Hg H s Hin. apply in_split in Hin as (pre & post & E).
  pose (Q := fun (prefix : list Operation) (op : Operation) =>
    forall s, op = OpSwap s ->
    are_adjacent topology (PhysicalQubit.str (InsertSwapOp.qubit1 s))
                          (PhysicalQubit.str (InsertSwapOp.qubit2 s)) = true \/
    are_adjacent topology (PhysicalQubit.str (InsertSwapOp.qubit2 s))
                          (PhysicalQubit.str (InsertSwapOp.qubit1 s)) = true).
  assert (HQ : forall pre op post, out = pre ++ op :: post -> pre <> [] -> Q pre op).
  { apply (@optimize_positions Q fuel ir out); try assumption.
    - intros prefix l F swap Hrep Hsel s' [= <-].
      apply select_best_swap_Some in Hsel as (cands & Hc & Hin & _).
      apply (proj2 (get_candidate_swaps_In _ _ _ Hc)) in Hin
        as (pq & n & k & _ & Hn & Hk & Hpair).
      destruct (Hlabels _ _ Hn) as (k' & Hk' & ->).
      rewrite (neighbor_id_one_digit Hk') in Hk. injection Hk as <-.
      apply are_adjacent_edge in Hn.
      unfold sorted_pair in Hpair. injection Hpair as H1 H2.
      destruct (InsertSwapOp.qubit1 swap) as [a], (InsertSwapOp.qubit2 swap) as [b],
        pq as [c]. simpl in *.
      destruct (Z.le_ge_cases c k') as [Hle|Hge].
      + left. rewrite Z.min_l in H1 by assumption. rewrite Z.max_r in H2 by assumption.
        now subst.
      + right. rewrite Z.min_r in H1 by assumption. rewrite Z.max_l in H2 by assumption.
        now subst.
    - intros prefix l _ _ s' [=].
    - intros prefix l op _ _ Hop s' ->. discriminate. }
  apply (HQ pre (OpSwap s) post E); [|reflexivity].
  intros ->. simpl in E. subst out.
  apply optimize_routed in H as (n & em & l' & _ & [=] & _).
Qed.

Lemma routed_count remaining l emitted l' :
  routed topology remaining l emitted l' ->
  only_gates remaining ->
  (Z.of_nat (List.length remaining) + count_swaps emitted
   <= Z.of_nat (List.length emitted)
   <= Z.of_nat (List.length remaining) + 2 * count_swaps emitted)%Z /\
  (Z.of_nat (List.length emitted)
   <= Z.of_nat (List.length remaining) + count_swaps emitted
      + Z.of_nat (List.length (two_qubit_gates remaining)))%Z.
Proof.
  induction 1 as [l | g rest l swaps l1 em l2 Hc Ht Hchain Hr IH
                    | op rest l em l2 Hop Hr IH]; intros Hg.
  - simpl. unfold count_swaps. simpl. lia.
  - apply only_gates_cons in Hg as [_ Hg]. specialize (IH Hg).
    cbn [two_qubit_gates flat_map]. fold (two_qubit_gates rest).
    rewrite !count_swaps_app, !length_app.
    rewrite (count_swaps_swaps _ (swap_chain_swaps Hchain)).
    change (OpTryTwo g :: em) with ([OpTryTwo g] ++ em).
    rewrite count_swaps_app, length_app.
    assert (Ha : count_swaps (annotation swaps l1) = 0%Z) by (now destruct swaps).
    assert (Hb : count_swaps [OpTryTwo g] = 0%Z) by reflexivity.
    assert (Hl : (List.length (annotation swaps l1) <= 1
                  /\ List.length (annotation swaps l1) <= List.length swaps)%nat).
    { destruct swaps; simpl; lia. }
    rewrite Ha, Hb. simpl List.length. lia.
  - apply only_gates_cons in Hg as [Hg1 Hg]. specialize (IH Hg).
    change (op :: em) with ([op] ++ em). rewrite count_swaps_app.
    assert (Hb : count_swaps [op] = 0%Z).
    { destruct op; simpl in Hg1; try discriminate; reflexivity. }
    assert (Ht : two_qubit_gates (op :: rest) = two_qubit_gates rest).
    { destruct op as [x|x|x|x]; try reflexivity. now contradiction (Hop x). }
    rewrite Ht.
    rewrite Hb. simpl List.length. lia.
Qed.

(** X10.  The overhead [run_benchmark] prints, [total_ops - original_ops],
    lies between [1 + swaps] and [1 + 2 * swaps], [swaps] being what
    [count_swaps] counts in the routed IR, and is at most [1 + swaps] plus
    the number of two-qubit gates of the input: the pass adds the initial
    annotation, the swaps, and one annotation for each two-qubit gate that
    needed a swap. *)
Theorem routing_overhead (fuel : nat) (ir out : QMapIR) :
  only_gates ir ->
  optimize topology fuel ir = Return out ->
  let overhead := (Z.of_nat (List.length out) - Z.of_nat (List.length ir))%Z in
  (1 + count_swaps out <= overhead <= 1 + 2 * count_swaps out)%Z /\
  (overhead <= 1 + count_swaps out + Z.of_nat (List.length (two_qubit_gates ir)))%Z.
Proof.
  intros Hg H overhead. subst overhead.
  apply optimize_routed in H as (n & em & l' & _ & -> & Hr).
  pose proof (routed_count Hr Hg) as Hc.
  change (OpLayout (CurrentLayoutOp.mk (initialize_layout n)) :: em)
    with ([OpLayout (CurrentLayoutOp.mk (initialize_layout n))] ++ em).
  rewrite count_swaps_app, length_app.
  change (count_swaps [OpLayout (CurrentLayoutOp.mk (initialize_layout n))]) with 0%Z.
  simpl List.length. lia.
Qed.

Lemma routed_operands remaining l emitted l' :
  routed topology remaining l emitted l' ->
  dict_keys l' = dict_keys l /\
  forall lq, In lq (two_qubit_operands remaining) -> In lq (dict_keys l).
Proof.
  induction 1 as [l | g rest l swaps l1 em l2 Hc Ht Hchain Hr IH
                    | op rest l em l2 Hop Hr IH].
  - split; [reflexivity | intros lq []].
  - destruct IH as [Hk IH]. pose proof (swap_chain_keys Hchain) as Hk1.
    split; [congruence|]. intros lq. simpl.
    intros [<-|[<-|Hin]]; try assumption. rewrite <- Hk1. now apply IH.
  - destruct IH as [Hk IH]. split; [assumption|]. intros lq Hin. apply IH.
    destruct op as [x|x|x|x]; simpl in Hin; try assumption.
    exfalso. now apply (Hop x).
Qed.

(** X11.  The pass returns only when every operand of every two-qubit gate
    is a key of the initial layout: a two-qubit gate on a negative qubit id
    keeps the pass from returning an IR, whatever else the input holds and
    whatever the fuel. *)
Theorem negative_operand_never_returns (fuel : nat) (ir : QMapIR) (lq : LogicalQubit.t) :
  In lq (two_qubit_operands ir) -> (LogicalQubit.id lq < 0)%Z ->
  ~ exists out, optimize topology fuel ir = Return out.
Proof.
  intros Hin Hneg [out H].
  apply optimize_routed in H as (n & em & l' & _ & _ & Hr).
  apply routed_operands in Hr as [_ Hr]. apply Hr in Hin.
  rewrite initialize_layout_keys in Hin. apply in_map_iff in Hin as (i & <- & Hi).
  apply range_In in Hi. simpl in Hneg. lia.
Qed.

End RoutedIR.

(* ------------------------------------------------------------------ *)
(** ** Devices on which one swap is always enough *)

Lemma last_layout_In (pre : list Operation) (l : Layout) :
  last_layout pre = Some l -> In (OpLayout (CurrentLayoutOp.mk l)) pre.
Proof.
  induction pre as [|op pre IH]; simpl; [discriminate|].
  destruct (last_layout pre) as [l'|].
  - intros [= ->]. right. now apply IH.
  - destruct op as [x|x|x|[l']]; try discriminate. simpl. intros [= ->]. now left.
Qed.

Lemma fold_max_attained (l : list Z) (x : Z) : In (fold_left Z.max l x) (x :: l).
Proof.
  revert x. induction l as [|y l IH]; intros x; simpl; [now left|].
  destruct (IH (Z.max x y)) as [H|H].
  - rewrite <- H. destruct (Z.max_spec x y) as [[_ ->]|[_ ->]]; auto.
  - right; now right.
Qed.

Section CountAttained.
Context {SO : SetOrder}.

Lemma count_qubits_attained (logical_qubits : list LogicalQubit.t) (n : Z) :
  count_qubits logical_qubits = Return n ->
  n = 0%Z \/ exists lq, In lq logical_qubits /\ n = (LogicalQubit.id lq + 1)%Z.
Proof.
  unfold count_qubits. destruct logical_qubits as [|q qs]; [intros [= <-]; now left|].
  destruct (map LogicalQubit.id (set_iter LogicalQubit_dec (q :: qs))) as [|x xs] eqn:E;
    simpl; [discriminate|].
  intros [= <-]. right.
  assert (H : In (fold_left Z.max xs x) (map LogicalQubit.id
                                            (set_iter LogicalQubit_dec (q :: qs)))).
  { rewrite E. apply fold_max_attained. }
  apply in_map_iff in H as (lq & Hid & Hin). exists lq. split.
  - exact (proj1 (set_iter_In LogicalQubit_dec _ _) Hin).
  - now rewrite Hid.
Qed.

End CountAttained.

Section OneSwapDevices.
Context {SO : SetOrder}.
Variable topology : Topology.

(** Every neighbour label is [P0] to [P9]; the coupling graph is symmetric;
    and whenever two distinct qubits of the device are not neighbours, the
    exchange of the two ends of any link makes them neighbours.  The
    three-qubit line and the 2x2 grid are such devices. *)
Hypothesis labels : forall q n, In n (get_neighbors topology q) ->
  exists k, (0 <= k <= 9)%Z /\ n = PhysicalQubit.str (PhysicalQubit.mk k).
Hypothesis symmetric : forall a b, edge topology a b -> edge topology b a.
Hypothesis one_swap : forall u v x y : PhysicalQubit.t,
  u <> v ->
  are_adjacent topology (PhysicalQubit.str u) (PhysicalQubit.str v) = false ->
  get_neighbors topology (PhysicalQubit.str u) <> [] ->
  get_neighbors topology (PhysicalQubit.str v) <> [] ->
  edge topology (PhysicalQubit.str x) (PhysicalQubit.str y) ->
  are_adjacent topology (PhysicalQubit.str (exchange x y u))
                        (PhysicalQubit.str (exchange x y v)) = true.

(** No logical qubit sits on a physical qubit without neighbours. *)
Definition non_isolated (l : Layout) : Prop :=
  forall lq pq, layout_get l lq = Some pq ->
                get_neighbors topology (PhysicalQubit.str pq) <> [].

Lemma edge_non_isolated (a b : string) : edge topology a b -> get_neighbors topology a <> [].
Proof. unfold edge. intros H E. rewrite E in H. destruct H. Qed.

Lemma select_on_one_swap_device (l : Layout) (F : list TryTwoQubitOp.t)
  (g : TryTwoQubitOp.t) (pc pt : PhysicalQubit.t) :
  one_to_one l -> non_isolated l -> In g F ->
  layout_get l (TryTwoQubitOp.control g) = Some pc ->
  layout_get l (TryTwoQubitOp.target g) = Some pt ->
  TryTwoQubitOp.control g <> TryTwoQubitOp.target g ->
  are_adjacent topology (PhysicalQubit.str pc) (PhysicalQubit.str pt) = false ->
  exists swap,
    select_best_swap topology l F = Return (Some swap) /\
    non_isolated (apply_swap l (InsertSwapOp.qubit1 swap) (InsertSwapOp.qubit2 swap)) /\
    are_adjacent topology
      (PhysicalQubit.str (exchange (InsertSwapOp.qubit1 swap) (InsertSwapOp.qubit2 swap) pc))
      (PhysicalQubit.str (exchange (InsertSwapOp.qubit1 swap) (InsertSwapOp.qubit2 swap) pt))
    = true.
Proof.
  intros H11 Hiso Hg Hc Ht Hne Hadj.
  assert (Hdef : forall pq n, In pq (physical_qubits_in_front l F) ->
                   In n (get_neighbors topology (PhysicalQubit.str pq)) ->
                   exists k, neighbor_id n = Return k).
  { intros pq n _ Hn. destruct (labels _ _ Hn) as (k & Hk & ->).
    exists k. now apply neighbor_id_one_digit. }
  destruct (candidate_swaps_defined topology l F Hdef) as [cs Hcs].
  assert (Hcands : get_candidate_swaps topology l F
                   = Return (map (fun ab => (PhysicalQubit.mk (fst ab),
                                             PhysicalQubit.mk (snd ab)))
                                 (set_iter swap_tuple_dec cs))).
  { unfold get_candidate_swaps. now rewrite Hcs. }
  destruct (get_candidate_swaps_In _ _ _ Hcands) as [_ Hin].
  assert (Hfront : In pc (physical_qubits_in_front l F)).
  { apply physical_qubits_in_front_In. exists (TryTwoQubitOp.control g).
    split; [|assumption]. apply logical_qubits_in_front_In. exists g. auto. }
  assert (Hnonempty : map (fun ab => (PhysicalQubit.mk (fst ab), PhysicalQubit.mk (snd ab)))
                          (set_iter swap_tuple_dec cs) <> []).
  { pose proof (Hiso _ _ Hc) as Hn.
    destruct (get_neighbors topology (PhysicalQubit.str pc)) as [|n ns] eqn:En;
      [congruence|].
    assert (Hn' : In n (get_neighbors topology (PhysicalQubit.str pc)))
      by (rewrite En; now left).
    destruct (labels _ _ Hn') as (k & Hk & ->).
    assert (Hx : In (PhysicalQubit.mk (Z.min (PhysicalQubit.id pc) k),
                     PhysicalQubit.mk (Z.max (PhysicalQubit.id pc) k))
                    (map (fun ab => (PhysicalQubit.mk (fst ab), PhysicalQubit.mk (snd ab)))
                         (set_iter swap_tuple_dec cs))).
    { apply Hin. exists pc, (PhysicalQubit.str (PhysicalQubit.mk k)), k.
      repeat split; auto. now apply neighbor_id_one_digit. }
    intros E. rewrite E in Hx. destruct Hx. }
  assert (Hex : exists swap, select_best_swap topology l F = Return (Some swap)).
  { eapply select_best_swap_exists; [| |exact Hcands];
      [intros ->; destruct Hg | exact Hnonempty]. }
  destruct Hex as [swap Hsel].
  exists swap. split; [assumption|].
  apply select_best_swap_Some in Hsel as (cands & Hc' & Hsw & _).
  rewrite Hcands in Hc'. injection Hc' as <-.
  apply Hin in Hsw as (pq & n & k & Hpq & Hn & Hk & Hpair).
  destruct (labels _ _ Hn) as (k' & Hk' & ->).
  rewrite (neighbor_id_one_digit Hk') in Hk. injection Hk as <-.
  apply physical_qubits_in_front_In in Hpq as (lq & _ & Hlq).
  assert (Hedge : edge topology (PhysicalQubit.str (InsertSwapOp.qubit1 swap))
                       (PhysicalQubit.str (InsertSwapOp.qubit2 swap))).
  { unfold sorted_pair in Hpair. injection Hpair as H1 H2.
    destruct (InsertSwapOp.qubit1 swap) as [a], (InsertSwapOp.qubit2 swap) as [b],
      pq as [c]. simpl in H1, H2.
    destruct (Z.le_ge_cases c k') as [Hle|Hge].
    - rewrite Z.min_l in H1 by assumption. rewrite Z.max_r in H2 by assumption.
      now subst.
    - rewrite Z.min_r in H1 by assumption. rewrite Z.max_l in H2 by assumption.
      subst. now apply symmetric. }
  split.
  - intros lq' pq'. rewrite (apply_swap_map _ _ H11), layout_get_map.
    destruct (layout_get l lq') as [x|] eqn:Ex; [|discriminate].
    simpl. intros [= <-]. unfold exchange.
    destruct (PhysicalQubit.eqb x (InsertSwapOp.qubit1 swap)).
    + apply edge_non_isolated with (PhysicalQubit.str (InsertSwapOp.qubit1 swap)).
      now apply symmetric.
    + destruct (PhysicalQubit.eqb x (InsertSwapOp.qubit2 swap)).
      * eapply edge_non_isolated; eassumption.
      * eapply Hiso; eassumption.
  - apply one_swap; eauto.
    intros ->. apply Hne. destruct H11 as [Hk1 Hv].
    apply (layout_get_In _ _ _ Hk1) in Hc, Ht.
    eapply one_to_one_fst; eassumption.
Qed.

Lemma swap_loop_one_swap (fuel : nat) (g : TryTwoQubitOp.t) (rest : list Operation)
  (st : RouteState.t) :
  one_to_one (RouteState.current_layout st) ->
  non_isolated (RouteState.current_layout st) ->
  tracks g st ->
  RouteState.front_layer st = build_front_layer (OpTryTwo g :: rest) ->
  TryTwoQubitOp.control g <> TryTwoQubitOp.target g ->
  exists st' swaps,
    swap_loop topology (S fuel) (OpTryTwo g :: rest) g st = Return st' /\
    RouteState.optimized_ops st' = RouteState.optimized_ops st ++ swaps /\
    RouteState.num_swaps_for_gate st'
    = (RouteState.num_swaps_for_gate st + List.length swaps)%nat /\
    (List.length swaps <= 1)%nat /\
    (forall o, In o swaps -> is_swap o = true) /\
    one_to_one (RouteState.current_layout st') /\
    non_isolated (RouteState.current_layout st') /\
    dict_keys (RouteState.current_layout st') = dict_keys (RouteState.current_layout st).
Proof.
  intros H11 Hiso [Hc Ht] Hf Hne.
  destruct (are_adjacent topology (PhysicalQubit.str (RouteState.pq1 st))
                         (PhysicalQubit.str (RouteState.pq2 st))) eqn:Eadj.
  - exists st, []. rewrite swap_loop_adjacent by assumption.
    rewrite app_nil_r. simpl.
    repeat split; auto; try lia; try (intros o []); apply H11.
  - destruct (build_front_layer_head g rest) as [more Hfront].
    assert (HgF : In g (RouteState.front_layer st)) by (rewrite Hf, Hfront; now left).
    destruct (@select_on_one_swap_device (RouteState.current_layout st)
                (RouteState.front_layer st) g (RouteState.pq1 st) (RouteState.pq2 st)
                H11 Hiso HgF Hc Ht Hne Eadj)
      as (swap & Hsel & Hiso' & Hadj').
    pose proof (apply_swap_map (InsertSwapOp.qubit1 swap) (InsertSwapOp.qubit2 swap) H11)
      as Hmap.
    assert (Hq : get_physical_qubits
                   (apply_swap (RouteState.current_layout st) (InsertSwapOp.qubit1 swap)
                               (InsertSwapOp.qubit2 swap))
                   (TryTwoQubitOp.control g) (TryTwoQubitOp.target g)
                 = Return (exchange (InsertSwapOp.qubit1 swap) (InsertSwapOp.qubit2 swap)
                                    (RouteState.pq1 st),
                           exchange (InsertSwapOp.qubit1 swap) (InsertSwapOp.qubit2 swap)
                                    (RouteState.pq2 st))).
    { apply get_physical_qubits_Return. rewrite Hmap, !layout_get_map, Hc, Ht. now split. }
    eexists. exists [OpSwap swap].
    split; [|split; [|split; [|split; [|split; [|split; [|split]]]]]].
    + cbn [swap_loop]. rewrite Eadj. unfold swap_round. rewrite Hsel. cbn [bind].
      rewrite Hq. cbn [bind fst snd].
      apply swap_loop_adjacent. exact Hadj'.
    + reflexivity.
    + simpl. lia.
    + simpl. lia.
    + intros o [<-|[]]. reflexivity.
    + simpl. now apply apply_swap_one_to_one.
    + exact Hiso'.
    + simpl. apply apply_swap_keys.
Qed.

Lemma optimize_loop_one_swap (fuel : nat) (remaining : list Operation) :
  forall l out,
  only_gates remaining ->
  (forall g, In (OpTryTwo g) remaining ->
             TryTwoQubitOp.control g <> TryTwoQubitOp.target g) ->
  (forall lq, In lq (two_qubit_operands remaining) -> In lq (dict_keys l)) ->
  one_to_one l -> non_isolated l ->
  exists emitted,
    optimize_loop topology (S fuel) remaining l out = Return (out ++ emitted) /\
    (count_swaps emitted <= Z.of_nat (List.length (two_qubit_gates remaining)))%Z /\
    (forall m, In (OpLayout m) emitted -> non_isolated (CurrentLayoutOp.layout m)).
Proof.
  induction remaining as [|op rest IH]; intros l out Hg Hd Hk H11 Hiso.
  - exists []. rewrite app_nil_r. simpl. repeat split; [reflexivity | intros m []].
  - apply only_gates_cons in Hg as [Hop Hg].
    assert (Hd' : forall g, In (OpTryTwo g) rest ->
                            TryTwoQubitOp.control g <> TryTwoQubitOp.target g).
    { intros g Hin. apply Hd. now right. }
    destruct op as [x|g|x|x]; simpl in Hop; try discriminate.
    + destruct (IH l (out ++ [OpSingle x]) Hg Hd' Hk H11 Hiso) as (em & E & Hcount & Hm).
      exists (OpSingle x :: em). split; [|split].
      * cbn [optimize_loop]. rewrite E. now rewrite <- app_assoc.
      * change (OpSingle x :: em) with ([OpSingle x] ++ em).
        rewrite count_swaps_app. exact Hcount.
      * intros m [[=]|Hin]. now apply Hm.
    + assert (Hc : In (TryTwoQubitOp.control g) (dict_keys l)) by (apply Hk; simpl; auto).
      assert (Ht : In (TryTwoQubitOp.target g) (dict_keys l)) by (apply Hk; simpl; auto).
      apply layout_get_Some_iff in Hc as [pc Hc], Ht as [pt Ht].
      destruct (@swap_loop_one_swap fuel g rest
                  (RouteState.mk l pc pt (build_front_layer (OpTryTwo g :: rest)) 0 out))
        as (st' & swaps & Hloop & Hops & Hnum & Hlen & Hsw & H11' & Hiso' & Hkeys);
        try assumption; try reflexivity.
      { now split. }
      { apply Hd. now left. }
      simpl in Hops, Hnum, Hkeys.
      destruct (IH (RouteState.current_layout st') (emit_gate g st') Hg Hd')
        as (em & E & Hcount & Hm); try assumption.
      { intros lq Hin. rewrite Hkeys. apply Hk. simpl. auto. }
      exists (swaps ++ annotation swaps (RouteState.current_layout st') ++ OpTryTwo g :: em).
      assert (Hemit : emit_gate g st'
                      = out ++ swaps ++ annotation swaps (RouteState.current_layout st')
                            ++ [OpTryTwo g]).
      { unfold emit_gate. rewrite Hops, Hnum. destruct swaps as [|s swaps]; simpl.
        - now rewrite app_nil_r.
        - rewrite <- !app_assoc. reflexivity. }
      split; [|split].
      * cbn [optimize_loop].
        rewrite (proj2 (get_physical_qubits_Return l _ _ pc pt) (conj Hc Ht)).
        rewrite Hloop, E, Hemit. rewrite <- !app_assoc. reflexivity.
      * rewrite !count_swaps_app. rewrite (count_swaps_swaps _ Hsw).
        change (OpTryTwo g :: em) with ([OpTryTwo g] ++ em). rewrite count_swaps_app.
        assert (Ha : count_swaps (annotation swaps (RouteState.current_layout st')) = 0%Z)
          by (now destruct swaps).
        rewrite Ha. change (count_swaps [OpTryTwo g]) with 0%Z.
        cbn [two_qubit_gates flat_map]. fold (two_qubit_gates rest).
        rewrite length_app. simpl List.length. lia.
      * intros m Hin. apply in_app_or in Hin as [Hin|Hin].
        -- apply Hsw in Hin. discriminate.
        -- apply in_app_or in Hin as [Hin|[Hin|Hin]].
           ++ destruct swaps; simpl in Hin; [contradiction|].
              destruct Hin as [[= <-]|[]]. exact Hiso'.
           ++ discriminate.
           ++ now apply Hm.
Qed.

(** X13.  On such a device the pass terminates: for every input of gates
    whose two-qubit gates have two different operands and whose qubits are
    0 to m-1, [P0] to [P(m-1)] being qubits with a neighbour, it returns a
    routed IR with any fuel of at least one round, inserts at most one swap
    for each two-qubit gate, and every two-qubit gate of the routed IR sits
    on two neighbours under the most recent annotation. *)
Theorem one_swap_devices_route (fuel : nat) (ir : QMapIR) (m : Z) :
  only_gates ir ->
  (forall g, In (OpTryTwo g) ir -> TryTwoQubitOp.control g <> TryTwoQubitOp.target g) ->
  (forall lq, In lq (gate_operands ir) -> (0 <= LogicalQubit.id lq < m)%Z) ->
  (forall i, (0 <= i < m)%Z -> get_neighbors topology (P_label i) <> []) ->
  exists out,
    optimize topology (S fuel) ir = Return out /\
    (count_swaps out <= Z.of_nat (List.length (two_qubit_gates ir)))%Z /\
    forall pre g post,
      out = pre ++ OpTryTwo g :: post ->
      exists l pq1 pq2,
        last_layout pre = Some l /\
        layout_get l (TryTwoQubitOp.control g) = Some pq1 /\
        layout_get l (TryTwoQubitOp.target g) = Some pq2 /\
        are_adjacent topology (PhysicalQubit.str pq1) (PhysicalQubit.str pq2) = true.
Proof.
  intros Hg Hd Hops Hdev.
  destruct (count_qubits_covers (referenced_qubits ir)) as (n & Hn & Hcover).
  assert (Hnm : (n = 0 \/ n <= m)%Z).
  { destruct (count_qubits_attained _ Hn) as [->|(lq & Hin & ->)]; [now left | right].
    rewrite referenced_qubits_operands in Hin. apply Hops in Hin. lia. }
  assert (Hiso : non_isolated (initialize_layout n)).
  { intros lq pq H. apply initialize_layout_get_inv in H as [Hr ->].
    apply (Hdev (LogicalQubit.id lq)). lia. }
  destruct (@optimize_loop_one_swap fuel ir (initialize_layout n)
              [OpLayout (CurrentLayoutOp.mk (initialize_layout n))] Hg Hd)
    as (em & E & Hcount & Hm); try assumption.
  { intros lq Hin. rewrite initialize_layout_keys. apply in_map_iff.
    exists (LogicalQubit.id lq). split; [now destruct lq|].
    apply two_qubit_operands_incl in Hin. apply range_In. split.
    - now apply Hops.
    - apply Hcover. now rewrite referenced_qubits_operands. }
  { apply initialize_layout_one_to_one. }
  eexists. split; [|split].
  - unfold optimize. rewrite Hn. cbn [bind]. exact E.
  - change (count_swaps ([OpLayout (CurrentLayoutOp.mk (initialize_layout n))] ++ em))
      with (count_swaps em). exact Hcount.
  - intros pre g post Eout.
    assert (Hp : placed_by_marks topology
                   ([OpLayout (CurrentLayoutOp.mk (initialize_layout n))] ++ em)).
    { eapply optimize_loop_placed; try eassumption; [|reflexivity].
      intros pre' g' post' E'. destruct pre' as [|o [|o' pre']]; simpl in E'; discriminate. }
    destruct (Hp pre g post Eout) as (l & Hl & pq1 & pq2 & H1 & H2 & [H3|[H3 _]]).
    + now exists l, pq1, pq2.
    + exfalso. apply last_layout_In in Hl.
      assert (Hin : In (OpLayout (CurrentLayoutOp.mk l))
                       ([OpLayout (CurrentLayoutOp.mk (initialize_layout n))] ++ em)).
      { rewrite Eout. apply in_or_app. now left. }
      destruct Hin as [[= <-]|Hin].
      * exact (Hiso _ _ H1 H3).
      * exact (Hm _ Hin _ _ H1 H3).
Qed.

End OneSwapDevices.

(** The line and the grid are devices on which one swap is enough. *)

Lemma neighbors_key (topo : Topology) (a : string) :
  get_neighbors topo a <> [] -> In a (dict_keys (coupling_graph topo)).
Proof.
  unfold get_neighbors, dict_get_default. intros H.
  apply (@dict_get_Some_iff _ _ String.eqb String.eqb_eq).
  destruct (dict_get String.eqb (coupling_graph topo) a) as [s|]; [now exists s | congruence].
Qed.

Ltac qubit_of_label H :=
  simpl in H;
  repeat (destruct H as [H|H];
          [match type of H with
           | _ = PhysicalQubit.str ?q =>
               first [ assert (PhysicalQubit.mk 0 = q)
                         by (apply PhysicalQubit_str_inj; exact H)
                     | assert (PhysicalQubit.mk 1 = q)
                         by (apply PhysicalQubit_str_inj; exact H)
                     | assert (PhysicalQubit.mk 2 = q)
                         by (apply PhysicalQubit_str_inj; exact H)
                     | assert (PhysicalQubit.mk 3 = q)
                         by (apply PhysicalQubit_str_inj; exact H) ]
           end; clear H; subst|]);
  try contradiction.

Ltac neighbour_labels :=
  let q := fresh "q" in
  let n := fresh "n" in
  let H := fresh "H" in
  intros q n H; unfold get_neighbors, dict_get_default in H; simpl in H;
  repeat (destruct (String.eqb q _);
          [simpl in H;
           repeat (destruct H as [<-|H];
                   [(exists 0%Z + exists 1%Z + exists 2%Z + exists 3%Z);
                    split; [lia | reflexivity]|]);
           destruct H|]);
  destruct H.

Ltac symmetric_graph :=
  let a := fresh "a" in
  let b := fresh "b" in
  let H := fresh "H" in
  intros a b H; unfold edge, get_neighbors, dict_get_default in H; simpl in H;
  repeat match type of H with
         | context [String.eqb a ?k] =>
             destruct (String.eqb_spec a k) as [->|_];
             [simpl in H; repeat (destruct H as [<-|H]; [unfold edge; simpl; tauto|]); destruct H|]
         end;
  destruct H.

Ltac one_swap_enough :=
  let u := fresh "u" in
  let v := fresh "v" in
  let x := fresh "x" in
  let y := fresh "y" in
  let Hne := fresh "Hne" in
  let Hadj := fresh "Hadj" in
  let Hu := fresh "Hu" in
  let Hv := fresh "Hv" in
  let He := fresh "He" in
  let Hx := fresh "Hx" in
  intros u v x y Hne Hadj Hu Hv He;
  assert (Hx := edge_non_isolated _ _ _ He);
  apply neighbors_key in Hu, Hv, Hx;
  qubit_of_label Hu; qubit_of_label Hv; qubit_of_label Hx;
  unfold edge in He; qubit_of_label He;
  first [ congruence | (vm_compute in Hadj; discriminate) | (vm_compute; reflexivity) ].

Lemma line_labels :
  forall q n, In n (get_neighbors LinearTopology q) ->
  exists k, (0 <= k <= 9)%Z /\ n = PhysicalQubit.str (PhysicalQubit.mk k).
Proof. neighbour_labels. Qed.

Lemma line_symmetric : forall a b, edge LinearTopology a b -> edge LinearTopology b a.
Proof. symmetric_graph. Qed.

Lemma line_one_swap : forall u v x y : PhysicalQubit.t,
  u <> v ->
  are_adjacent LinearTopology (PhysicalQubit.str u) (PhysicalQubit.str v) = false ->
  get_neighbors LinearTopology (PhysicalQubit.str u) <> [] ->
  get_neighbors LinearTopology (PhysicalQubit.str v) <> [] ->
  edge LinearTopology (PhysicalQubit.str x) (PhysicalQubit.str y) ->
  are_adjacent LinearTopology (PhysicalQubit.str (exchange x y u))
                              (PhysicalQubit.str (exchange x y v)) = true.
Proof. one_swap_enough. Qed.

Lemma grid_labels :
  forall q n, In n (get_neighbors Grid2x2Topology q) ->
  exists k, (0 <= k <= 9)%Z /\ n = PhysicalQubit.str (PhysicalQubit.mk k).
Proof. neighbour_labels. Qed.

Lemma grid_symmetric : forall a b, edge Grid2x2Topology a b -> edge Grid2x2Topology b a.
Proof. symmetric_graph. Qed.

Lemma grid_one_swap : forall u v x y : PhysicalQubit.t,
  u <> v ->
  are_adjacent Grid2x2Topology (PhysicalQubit.str u) (PhysicalQubit.str v) = false ->
  get_neighbors Grid2x2Topology (PhysicalQubit.str u) <> [] ->
  get_neighbors Grid2x2Topology (PhysicalQubit.str v) <> [] ->
  edge Grid2x2Topology (PhysicalQubit.str x) (PhysicalQubit.str y) ->
  are_adjacent Grid2x2Topology (PhysicalQubit.str (exchange x y u))
                               (PhysicalQubit.str (exchange x y v)) = true.
Proof. one_swap_enough. Qed.

(* ------------------------------------------------------------------ *)
(** ** The exporter *)

Lemma record_layout_get (items : Layout) :
  forall self,
  NoDup (dict_keys items) ->
  (forall lq pq, In (lq, pq) items ->
     dict_get Z.eqb (OpenQASMExporter.logical_to_physical (record_layout self items))
              (LogicalQubit.id lq) = Some (PhysicalQubit.id pq)) /\
  (forall k, ~ In (LogicalQubit.mk k) (dict_keys items) ->
     dict_get Z.eqb (OpenQASMExporter.logical_to_physical (record_layout self items)) k
     = dict_get Z.eqb (OpenQASMExporter.logical_to_physical self) k) /\
  OpenQASMExporter.qasm_lines (record_layout self items) = OpenQASMExporter.qasm_lines self /\
  OpenQASMExporter.num_physical_qubits (record_layout self items)
  = OpenQASMExporter.num_physical_qubits self.
Proof.
  induction items as [|[k v] items IH]; intros self Hnd; simpl.
  - repeat split; auto. intros lq pq [].
  - inversion Hnd as [|x xs Hx Hxs]; subst.
    match goal with
    | |- context [record_layout ?s items] => destruct (IH s Hxs) as (H1 & H2 & H3 & H4)
    end.
    fold (record_layout) in *.
    split; [|split; [|split]].
    + intros lq pq [[= -> ->]|Hin]; [|now apply H1].
      rewrite H2 by (now destruct lq). simpl.
      apply dict_get_set_same, Z.eqb_eq.
    + intros k' Hk'. rewrite H2 by tauto. simpl.
      apply dict_get_set_other; [apply Z.eqb_eq|].
      intros ->. apply Hk'. left. now destruct k.
    + rewrite H3. reflexivity.
    + rewrite H4. reflexivity.
Qed.

Lemma process_operation_mapping (self : OpenQASMExporter.t) (op : Operation) :
  (forall m, op <> OpLayout m) ->
  OpenQASMExporter.logical_to_physical (OpenQASMExporter.process_operation self op)
  = OpenQASMExporter.logical_to_physical self.
Proof. intros H. destruct op as [g|g|g|m]; try reflexivity. now contradiction (H m). Qed.

Lemma process_operations_mapping (ops : list Operation) :
  forall self,
  last_layout ops = None ->
  OpenQASMExporter.logical_to_physical (fold_left OpenQASMExporter.process_operation ops self)
  = OpenQASMExporter.logical_to_physical self.
Proof.
  induction ops as [|op ops IH]; intros self H; [reflexivity|]. simpl in *.
  destruct (last_layout ops); [discriminate|]. rewrite IH by reflexivity.
  apply process_operation_mapping. intros m ->. discriminate.
Qed.

Lemma process_operations_agree (ops : list Operation) :
  forall self l,
  (forall m, In (OpLayout m) ops -> NoDup (dict_keys (CurrentLayoutOp.layout m))) ->
  last_layout ops = Some l ->
  forall lq pq, layout_get l lq = Some pq ->
    dict_get Z.eqb
      (OpenQASMExporter.logical_to_physical
         (fold_left OpenQASMExporter.process_operation ops self))
      (LogicalQubit.id lq) = Some (PhysicalQubit.id pq).
Proof.
  induction ops as [|op ops IH]; intros self l Hnd Hl lq pq Hget; [discriminate|].
  simpl in *. destruct (last_layout ops) as [l'|] eqn:E.
  - injection Hl as ->. eapply IH; eauto.
  - rewrite process_operations_mapping by assumption.
    destruct op as [g|g|g|m]; try discriminate. injection Hl as <-.
    assert (Hm : NoDup (dict_keys (CurrentLayoutOp.layout m))) by (apply Hnd; now left).
    simpl. apply (record_layout_get _ self Hm). now apply layout_get_In.
Qed.

(** X14.  The exporter reads every logical qubit through the most recent
    annotation: after the operations [ops], a qubit that annotation places
    is printed as the physical qubit it is placed on, whatever the exporter
    held before. *)
Theorem export_reads_last_annotation (self : OpenQASMExporter.t) (ops : QMapIR)
  (l : Layout) :
  (forall m, In (OpLayout m) ops -> NoDup (dict_keys (CurrentLayoutOp.layout m))) ->
  last_layout ops = Some l ->
  forall lq pq, layout_get l lq = Some pq ->
    OpenQASMExporter.physical_of (snd (OpenQASMExporter.export self ops)) (LogicalQubit.id lq)
    = PhysicalQubit.id pq.
Proof.
  intros Hnd Hl lq pq Hget. unfold OpenQASMExporter.export, OpenQASMExporter.physical_of,
    dict_get_default. simpl.
  now rewrite (process_operations_agree _ _ Hnd Hl _ Hget).
Qed.


Section ExportRouted.
Context {SO : SetOrder}.
Variable topology : Topology.


End ExportRouted.

(* ------------------------------------------------------------------ *)
(** ** Exporting twice *)

Lemma dict_set_same_mapping (m1 m2 : list (Z * Z)) (k v : Z) :
  (forall k', dict_get Z.eqb m1 k' = dict_get Z.eqb m2 k') ->
  forall k', dict_get Z.eqb (dict_set Z.eqb m1 k v) k'
             = dict_get Z.eqb (dict_set Z.eqb m2 k v) k'.
Proof.
  intros H k'. destruct (Z.eq_dec k' k) as [->|Hne].
  - now rewrite !dict_get_set_same by apply Z.eqb_eq.
  - rewrite !dict_get_set_other; auto using Z.eqb_eq.
Qed.

Lemma record_layout_same (items : Layout) :
  forall s1 s2, same_mapping s1 s2 ->
                same_mapping (record_layout s1 items) (record_layout s2 items).
Proof.
  induction items as [|item items IH]; intros s1 s2 H; [assumption|].
  simpl. apply IH. intros k. simpl. now apply dict_set_same_mapping.
Qed.

Lemma record_layout_lines (items : Layout) :
  forall s, OpenQASMExporter.qasm_lines (record_layout s items)
            = OpenQASMExporter.qasm_lines s.
Proof. induction items as [|item items IH]; intros s; [reflexivity|]. simpl. now rewrite IH. Qed.

(** From exporters that print every qubit alike, one operation adds the
    same lines and leaves exporters that print every qubit alike. *)
Lemma process_operation_same (s1 s2 : OpenQASMExporter.t) (op : Operation) :
  same_mapping s1 s2 ->
  same_mapping (OpenQASMExporter.process_operation s1 op)
               (OpenQASMExporter.process_operation s2 op) /\
  exists new,
    OpenQASMExporter.qasm_lines (OpenQASMExporter.process_operation s1 op)
    = OpenQASMExporter.qasm_lines s1 ++ new /\
    OpenQASMExporter.qasm_lines (OpenQASMExporter.process_operation s2 op)
    = OpenQASMExporter.qasm_lines s2 ++ new.
Proof.
  intros H. destruct op as [g|g|s|m]; simpl.
  - split; [exact H|]. unfold OpenQASMExporter.physical_of, dict_get_default.
    rewrite (H (LogicalQubit.id (SingleQubitGateOp.qubit g))). eauto.
  - split; [exact H|]. unfold OpenQASMExporter.physical_of, dict_get_default.
    rewrite (H (LogicalQubit.id (TryTwoQubitOp.control g))),
            (H (LogicalQubit.id (TryTwoQubitOp.target g))). eauto.
  - split; [exact H|]. eauto.
  - split; [now apply record_layout_same|]. exists [].
    fold (record_layout s1 (CurrentLayoutOp.layout m)).
    fold (record_layout s2 (CurrentLayoutOp.layout m)).
    now rewrite !record_layout_lines, !app_nil_r.
Qed.

Lemma process_operations_same (ops : list Operation) :
  forall s1 s2, same_mapping s1 s2 ->
  exists new,
    OpenQASMExporter.qasm_lines (fold_left OpenQASMExporter.process_operation ops s1)
    = OpenQASMExporter.qasm_lines s1 ++ new /\
    OpenQASMExporter.qasm_lines (fold_left OpenQASMExporter.process_operation ops s2)
    = OpenQASMExporter.qasm_lines s2 ++ new.
Proof.
  induction ops as [|op ops IH]; intros s1 s2 H.
  - exists []. now rewrite !app_nil_r.
  - simpl. destruct (process_operation_same op H) as (H' & new & E1 & E2).
    destruct (IH _ _ H') as (new' & E1' & E2').
    exists (new ++ new'). rewrite E1', E2', E1, E2. now rewrite <- !app_assoc.
Qed.

(** Operations whose annotations leave [k] out do not change how [k] is
    printed. *)
Lemma process_operations_untouched (ops : list Operation) (k : Z) :
  (forall m, In (OpLayout m) ops ->
             ~ In (LogicalQubit.mk k) (dict_keys (CurrentLayoutOp.layout m))) ->
  forall s,
  dict_get Z.eqb (OpenQASMExporter.logical_to_physical
                    (fold_left OpenQASMExporter.process_operation ops s)) k
  = dict_get Z.eqb (OpenQASMExporter.logical_to_physical s) k.
Proof.
  induction ops as [|op ops IH]; intros Hm s; [reflexivity|].
  simpl. rewrite IH by (intros m Hin; apply Hm; now right).
  destruct op as [g|g|x|m]; try reflexivity. simpl.
  fold (record_layout s (CurrentLayoutOp.layout m)).
  assert (Hk : ~ In (LogicalQubit.mk k) (dict_keys (CurrentLayoutOp.layout m)))
    by (apply Hm; now left).
  clear Hm IH. revert s. induction (CurrentLayoutOp.layout m) as [|[lq pq] items IH];
    intros s; [reflexivity|].
  simpl. rewrite IH by (intros H; apply Hk; now right). simpl.
  apply dict_get_set_other; [apply Z.eqb_eq|].
  intros E. apply Hk. left. simpl. destruct lq. simpl in E. now subst.
Qed.

Lemma process_operations_num (ops : list Operation) :
  forall s, OpenQASMExporter.num_physical_qubits
              (fold_left OpenQASMExporter.process_operation ops s)
            = OpenQASMExporter.num_physical_qubits s.
Proof.
  induction ops as [|op ops IH]; intros s; [reflexivity|]. simpl. rewrite IH.
  destruct op as [g|g|x|m]; try reflexivity. simpl.
  fold (record_layout s (CurrentLayoutOp.layout m)).
  generalize (CurrentLayoutOp.layout m). intros items. revert s.
  induction items as [|item items IHi]; intros s; [reflexivity|].
  simpl. now rewrite IHi.
Qed.

Section ExportTwice.
Context {SO : SetOrder}.
Variable topology : Topology.

(** X16.  [export] does not clear what an exporter has learnt from earlier
    calls, yet on a routed IR this does not show: an exporter that has
    already exported the routed IR, in whatever state it was before, exports
    it again to the same text. *)
Theorem export_twice (fuel : nat) (ir out : QMapIR) (self : OpenQASMExporter.t) :
  only_gates ir ->
  optimize topology fuel ir = Return out ->
  fst (OpenQASMExporter.export (snd (OpenQASMExporter.export self out)) out)
  = fst (OpenQASMExporter.export self out).
Proof.
  intros Hg H.
  apply optimize_routed in H as (n & em & l' & Hn & -> & Hr).
  destruct (routed_layouts Hr Hg (initialize_layout_one_to_one n)) as (Hm & _).
  set (mark := OpLayout (CurrentLayoutOp.mk (initialize_layout n))).
  unfold OpenQASMExporter.export. cbn [fst snd]. f_equal.
  set (s0 := OpenQASMExporter.mk (OpenQASMExporter.num_physical_qubits self)
               (OpenQASMExporter.header self)
               (OpenQASMExporter.logical_to_physical self)).
  set (F := fold_left OpenQASMExporter.process_operation (mark :: em) s0).
  assert (Hh : OpenQASMExporter.header F = OpenQASMExporter.header self).
  { unfold OpenQASMExporter.header, F. now rewrite process_operations_num. }
  rewrite Hh.
  set (s0' := OpenQASMExporter.mk (OpenQASMExporter.num_physical_qubits F)
                (OpenQASMExporter.header self)
                (OpenQASMExporter.logical_to_physical F)).
  assert (Hkeys : forall m k, In (OpLayout m) (mark :: em) ->
                    ~ In (LogicalQubit.mk k) (dict_keys (initialize_layout n)) ->
                    ~ In (LogicalQubit.mk k) (dict_keys (CurrentLayoutOp.layout m))).
  { intros m k [[= <-]|Hin] Hk; [exact Hk|].
    destruct (Hm m Hin) as [_ E]. now rewrite E. }
  assert (Hsame : same_mapping (OpenQASMExporter.process_operation s0 mark)
                               (OpenQASMExporter.process_operation s0' mark)).
  { intros k.
    change (OpenQASMExporter.process_operation s0 mark)
      with (record_layout s0 (initialize_layout n)).
    change (OpenQASMExporter.process_operation s0' mark)
      with (record_layout s0' (initialize_layout n)).
    pose proof (initialize_layout_one_to_one n) as [Hnd _].
    destruct (record_layout_get _ s0 Hnd) as (A1 & A2 & _).
    destruct (record_layout_get _ s0' Hnd) as (B1 & B2 & _).
    destruct (in_dec LogicalQubit_dec (LogicalQubit.mk k) (dict_keys (initialize_layout n)))
      as [Hin|Hout].
    - apply layout_get_Some_iff in Hin as [pq Hpq].
      apply (layout_get_In _ _ _ Hnd) in Hpq.
      pose proof (A1 _ _ Hpq) as Ea. pose proof (B1 _ _ Hpq) as Eb.
      simpl in Ea, Eb. now rewrite Ea, Eb.
    - rewrite (A2 _ Hout), (B2 _ Hout).
      change (OpenQASMExporter.logical_to_physical s0')
        with (OpenQASMExporter.logical_to_physical F).
      unfold F.
      rewrite (@process_operations_untouched (mark :: em) k); [reflexivity|].
      intros m Hin. now apply Hkeys. }
  cbn [fold_left].
  destruct (process_operations_same em Hsame) as (new & E1 & E2).
  unfold F at 1. cbn [fold_left]. rewrite E1, E2. f_equal.
  change (OpenQASMExporter.process_operation s0 mark)
    with (record_layout s0 (initialize_layout n)).
  change (OpenQASMExporter.process_operation s0' mark)
    with (record_layout s0' (initialize_layout n)).
  now rewrite !record_layout_lines.
Qed.

End ExportTwice.

(* ------------------------------------------------------------------ *)
(** ** Counting swaps by their text *)

Lemma has_char_append (c : ascii) (a b : string) :
  has_char c (a ++ b) = has_char c a || has_char c b.
Proof. induction a as [|x a IH]; simpl; [reflexivity|]. now rewrite IH, orb_assoc. Qed.

Lemma has_char_concat (c : ascii) (sep : string) (l : list string) :
  has_char c sep = false -> (forall s, In s l -> has_char c s = false) ->
  has_char c (String.concat sep l) = false.
Proof.
  intros Hsep. induction l as [|s l IH]; intros H; [reflexivity|].
  simpl. destruct l as [|s' l].
  - apply H. now left.
  - rewrite !has_char_append, Hsep, (H s (or_introl eq_refl)). simpl.
    apply IH. intros x Hx. apply H. now right.
Qed.

Lemma prefix_no_char (c : ascii) (sub s : string) :
  has_char c s = false -> String.prefix (String c sub) s = false.
Proof.
  destruct s as [|x s]; simpl; [reflexivity|]. intros H.
  apply orb_false_iff in H as [H _].
  destruct (ascii_dec c x) as [->|]; [|reflexivity].
  now rewrite Ascii.eqb_refl in H.
Qed.

(** A string that lacks the first character of [sub] does not hold [sub]. *)
Lemma str_in_no_char (c : ascii) (sub s : string) :
  has_char c s = false -> str_in (String c sub) s = false.
Proof.
  induction s as [|x s IH]; intros H.
  - reflexivity.
  - cbn [str_in]. rewrite prefix_no_char by exact H. simpl in H.
    apply orb_false_iff in H as [_ H]. now apply IH.
Qed.

Lemma prefix_sep (sep : ascii) (sub a b : string) :
  has_char sep sub = false ->
  String.prefix sub (a ++ String sep b) = String.prefix sub a.
Proof.
  revert a. induction sub as [|x sub IH]; intros a H; [now destruct a|].
  simpl in H. apply orb_false_iff in H as [Hx H].
  destruct a as [|y a]; simpl.
  - destruct (ascii_dec x sep) as [->|]; [|reflexivity].
    now rewrite Ascii.eqb_refl in Hx.
  - destruct (ascii_dec x y); [now apply IH | reflexivity].
Qed.

(** An occurrence of [sub] does not cross a character [sub] lacks. *)
Lemma str_in_sep (sep : ascii) (sub a b : string) :
  has_char sep sub = false ->
  str_in sub (a ++ String sep b) = str_in sub a || str_in sub b.
Proof.
  intros H. induction a as [|y a IH].
  - pose proof (@prefix_sep sep sub EmptyString b H) as P.
    cbn [append] in *. cbn [str_in]. rewrite P. now rewrite orb_false_r.
  - change ((String y a ++ String sep b)%string) with (String y (a ++ String sep b)).
    cbn [str_in]. rewrite IH.
    change (String y (a ++ String sep b)) with ((String y a ++ String sep b)%string).
    rewrite (@prefix_sep sep sub (String y a) b H). now rewrite orb_assoc.
Qed.

Lemma has_char_uint (d : Decimal.uint) : has_char "i" (NilEmpty.string_of_uint d) = false.
Proof. induction d; simpl; auto. Qed.

(** [str(n)] is made of digits and a sign. *)
Lemma has_char_str_of_int (n : Z) : has_char "i" (str_of_int n) = false.
Proof.
  unfold str_of_int, NilZero.string_of_int, NilZero.string_of_uint.
  destruct (Z.to_int n) as [d|d]; destruct d; simpl; auto using has_char_uint.
Qed.

Lemma has_char_LogicalQubit (q : LogicalQubit.t) : has_char "i" (LogicalQubit.str q) = false.
Proof. unfold LogicalQubit.str. simpl. apply has_char_str_of_int. Qed.

Lemma has_char_PhysicalQubit (q : PhysicalQubit.t) : has_char "i" (PhysicalQubit.str q) = false.
Proof. unfold PhysicalQubit.str. simpl. apply has_char_str_of_int. Qed.

Section TextCount.
Variable format_2f : Q -> string.

Lemma to_mlir_single (g : SingleQubitGateOp.t) :
  str_in "insert_swap" (to_mlir format_2f (OpSingle g))
  = str_in "insert_swap" (SingleQubitGateOp.gate g).
Proof.
  unfold to_mlir, SingleQubitGateOp.to_mlir.
  change ((SingleQubitGateOp.gate g ++ " " ++ LogicalQubit.str (SingleQubitGateOp.qubit g))%string)
    with ((SingleQubitGateOp.gate g
           ++ String " " (LogicalQubit.str (SingleQubitGateOp.qubit g)))%string).
  rewrite str_in_sep by reflexivity.
  rewrite (@str_in_no_char "i"%char "nsert_swap" _
             (has_char_LogicalQubit (SingleQubitGateOp.qubit g))).
  apply orb_false_r.
Qed.

Lemma to_mlir_two (g : TryTwoQubitOp.t) :
  str_in "insert_swap" (to_mlir format_2f (OpTryTwo g))
  = str_in "insert_swap" (TryTwoQubitOp.gate g).
Proof.
  unfold to_mlir, TryTwoQubitOp.to_mlir.
  set (r := (LogicalQubit.str (TryTwoQubitOp.control g) ++ ", %"
             ++ LogicalQubit.str (TryTwoQubitOp.target g) ++ ")")%string).
  change (("qmap.try_two_qubit @" ++ TryTwoQubitOp.gate g ++ "(%" ++ r)%string)
    with (("qmap.try_two_qubit "
           ++ String "@" (TryTwoQubitOp.gate g ++ String "(" ("%" ++ r)))%string).
  rewrite !str_in_sep by reflexivity.
  assert (Hr : has_char "i" ("%" ++ r) = false).
  { unfold r. rewrite !has_char_append, !has_char_LogicalQubit. reflexivity. }
  rewrite (@str_in_no_char "i"%char "nsert_swap" _ Hr). simpl. apply orb_false_r.
Qed.

Lemma to_mlir_layout (m : CurrentLayoutOp.t) :
  str_in "insert_swap" (to_mlir format_2f (OpLayout m)) = false.
Proof.
  apply str_in_no_char. unfold to_mlir, CurrentLayoutOp.to_mlir.
  rewrite !has_char_append. rewrite has_char_concat; [reflexivity | reflexivity |].
  intros s Hs. apply in_map_iff in Hs as (x & <- & _).
  now rewrite !has_char_append, has_char_LogicalQubit, has_char_PhysicalQubit.
Qed.

Lemma to_mlir_swap (s : InsertSwapOp.t) :
  str_in "insert_swap" (to_mlir format_2f (OpSwap s)) = true.
Proof.
  unfold to_mlir, InsertSwapOp.to_mlir.
  destruct (negb (Qle_bool (InsertSwapOp.cost s) 0)); reflexivity.
Qed.

(** X17.  The count of swaps [main] prints, which looks for the text
    [insert_swap] in what each operation prints, is the count of
    [InsertSwapOp] operations that [count_swaps] makes, on every IR none of
    whose gate names holds that text; the count does not depend on how the
    cost of a swap is printed. *)
Theorem swaps_counted_by_text (ir : QMapIR) :
  (forall g, In (OpSingle g) ir -> str_in "insert_swap" (SingleQubitGateOp.gate g) = false) ->
  (forall g, In (OpTryTwo g) ir -> str_in "insert_swap" (TryTwoQubitOp.gate g) = false) ->
  swaps_inserted format_2f ir = count_swaps ir.
Proof.
  intros H1 H2. unfold swaps_inserted, count_swaps. do 2 f_equal.
  apply filter_ext_in. intros op Hin. destruct op as [g|g|s|m].
  - rewrite to_mlir_single. now apply H1.
  - rewrite to_mlir_two. now apply H2.
  - apply to_mlir_swap.
  - apply to_mlir_layout.
Qed.

End TextCount.

(* ------------------------------------------------------------------ *)
(** ** The distance of the score is a metric *)

Lemma path_cons (topo : Topology) (a b c : string) (q : list string) :
  edge topo c b -> path topo b a q -> path topo c a (c :: q).
Proof.
  intros He Hp. induction Hp as [|x y q Hp IH Hxy].
  - apply (@path_step topo c c b [c]); [constructor | exact He].
  - apply (@path_step topo c x y (c :: q)); assumption.
Qed.

Lemma path_rev (topo : Topology) (a b : string) (p : list string) :
  (forall x y, edge topo x y -> edge topo y x) ->
  path topo a b p -> path topo b a (rev p).
Proof.
  intros Hsym Hp. induction Hp as [|x y p Hp IH Hxy].
  - constructor.
  - rewrite rev_app_distr. simpl. eapply path_cons; eauto.
Qed.

Lemma path_app (topo : Topology) (a b c : string) (p q : list string) :
  path topo a b p -> path topo b c q -> path topo a c (p ++ tl q).
Proof.
  intros Hp Hq. induction Hq as [|x y q Hq IH Hxy].
  - simpl. now rewrite app_nil_r.
  - pose proof (path_nonempty Hq) as Hne.
    destruct q as [|z q]; [congruence|]. simpl in *.
    rewrite app_assoc. apply (@path_step topo a x y (p ++ q)); assumption.
Qed.

Lemma path_singleton (topo : Topology) (a b x : string) :
  path topo a b [x] -> a = b.
Proof.
  intros H. inversion H as [|y c p Hp He E]; [reflexivity|].
  apply path_nonempty in Hp. destruct p as [|z [|z' p]]; try discriminate. congruence.
Qed.

Section Metric.
Context {SO : SetOrder}.
Variable topo : Topology.

Lemma path_distance_length (p : list string) :
  p <> [] -> path_distance p = (Z.of_nat (List.length p) - 1)%Z.
Proof. destruct p; [congruence | reflexivity]. Qed.

Lemma shortest_path_length_le (a b : string) (p : list string) :
  path topo a b p ->
  (0 <= shortest_path_length topo a b <= Z.of_nat (List.length p) - 1)%Z.
Proof.
  intros Hp. destruct (proj2 (shortest_path_minimal topo a b) p Hp) as [Hsp Hle].
  unfold shortest_path_length. rewrite path_distance_length by (now apply path_nonempty in Hsp).
  apply path_nonempty in Hsp. destruct (shortest_path topo a b); [congruence|].
  simpl List.length in *. lia.
Qed.

Lemma shortest_path_length_path (a b : string) :
  connected topo a b ->
  exists p, path topo a b p /\
            shortest_path_length topo a b = (Z.of_nat (List.length p) - 1)%Z.
Proof.
  intros [p Hp]. destruct (proj2 (shortest_path_minimal topo a b) p Hp) as [Hsp _].
  exists (shortest_path topo a b). split; [assumption|].
  apply path_distance_length. now apply path_nonempty in Hsp.
Qed.

(** X18.  The distance [_calculate_score] adds up, the number of edges of
    the path [shortest_path] returns (0 when it returns none), is 0 exactly
    between a qubit and itself and between qubits that no path joins, is
    never negative, is the same in both directions when the coupling graph
    is symmetric, and obeys the triangle inequality along connected
    qubits. *)
Theorem distance_is_a_metric :
  (forall a b, shortest_path_length topo a b = 0%Z <-> a = b \/ ~ connected topo a b) /\
  (forall a b, (0 <= shortest_path_length topo a b)%Z) /\
  ((forall x y, edge topo x y -> edge topo y x) ->
   forall a b, shortest_path_length topo a b = shortest_path_length topo b a) /\
  (forall a b c, connected topo a b -> connected topo b c ->
     (shortest_path_length topo a c
      <= shortest_path_length topo a b + shortest_path_length topo b c)%Z).
Proof.
  split; [|split; [|split]].
  - intros a b. unfold shortest_path_length. split.
    + intros H. destruct (shortest_path topo a b) as [|x r] eqn:E.
      * right. now apply (proj1 (shortest_path_minimal topo a b)).
      * left. assert (Hp : path topo a b (shortest_path topo a b)).
        { apply shortest_path_sound. rewrite E. discriminate. }
        rewrite E in Hp. destruct r as [|y r]; [now apply path_singleton in Hp|].
        cbn [path_distance List.length] in H. lia.
    + intros [->|Hn].
      * now rewrite shortest_path_same.
      * now rewrite shortest_path_disconnected.
  - intros a b. unfold shortest_path_length, path_distance.
    destruct (shortest_path topo a b); simpl List.length; lia.
  - intros Hsym.
    assert (Hle : forall a b, (shortest_path_length topo a b
                               <= shortest_path_length topo b a)%Z).
    { intros a b.
      destruct (shortest_path topo b a) as [|x r] eqn:E.
      - assert (Hn : ~ connected topo a b).
        { intros [p Hp]. apply (proj1 (proj1 (shortest_path_minimal topo b a)) E).
          exists (rev p). now apply path_rev. }
        apply (proj2 (proj1 (shortest_path_minimal topo a b))) in Hn.
        unfold shortest_path_length. rewrite Hn, E. simpl. lia.
      - assert (Hp : path topo b a (shortest_path topo b a)).
        { apply shortest_path_sound. rewrite E. discriminate. }
        pose proof (shortest_path_length_le (path_rev Hsym Hp)) as H.
        rewrite length_rev in H.
        unfold shortest_path_length at 2. rewrite path_distance_length; [lia|].
        rewrite E. discriminate. }
    intros a b. apply Z.le_antisymm; apply Hle.
  - intros a b c Hab Hbc.
    destruct (shortest_path_length_path Hab) as (p & Hp & ->).
    destruct (shortest_path_length_path Hbc) as (q & Hq & ->).
    pose proof (shortest_path_length_le (path_app Hp Hq)) as H.
    rewrite length_app in H. pose proof (path_nonempty Hq) as Hne.
    destruct q as [|z q]; [congruence|]. cbn [tl List.length] in *. lia.
Qed.

End Metric.

(* ------------------------------------------------------------------ *)
(** ** The path found visits no qubit twice *)

Lemma path_prefix_to (topo : Topology) (a b x : string) (p : list string) :
  path topo a b p -> In x p ->
  exists p1, path topo a x p1 /\ (List.length p1 <= List.length p)%nat.
Proof.
  intros Hp. induction Hp as [|b c p Hp IH He]; intros Hin.
  - destruct Hin as [<-|[]]. exists [a]. split; [constructor | lia].
  - apply in_app_or in Hin as [Hin|[<-|[]]].
    + destruct (IH Hin) as (p1 & H1 & H2). exists p1. split; [assumption|].
      rewrite length_app. simpl. lia.
    + exists (p ++ [c]). split; [|lia]. econstructor; eassumption.
Qed.

Lemma path_shorten (topo : Topology) (a b : string) (p : list string) :
  path topo a b p -> ~ NoDup p ->
  exists p', path topo a b p' /\ (List.length p' < List.length p)%nat.
Proof.
  intros Hp. induction Hp as [|b c p Hp IH He]; intros Hnd.
  - exfalso. apply Hnd. constructor; [intros [] | constructor].
  - destruct (in_dec string_dec c p) as [Hin|Hout].
    + destruct (@path_prefix_to topo a b c p Hp Hin) as (p1 & H1 & H2). exists p1.
      split; [assumption|]. rewrite length_app. simpl. lia.
    + destruct (NoDup_dec string_dec p) as [Hp'|Hp'].
      * exfalso. apply Hnd. apply NoDup_app; [assumption | | ].
        -- constructor; [intros [] | constructor].
        -- intros x Hx [<-|[]]. contradiction.
      * destruct (IH Hp') as (p' & H1 & H2). exists (p' ++ [c]).
        split; [econstructor; eassumption|]. rewrite !length_app. simpl. lia.
Qed.

Section SimplePath.
Context {SO : SetOrder}.
Variable topo : Topology.

(** X19.  The path [shortest_path] returns visits no qubit twice, and when
    it is not empty it starts at [start] and ends at [end]. *)
Theorem shortest_path_simple (a b : string) :
  NoDup (shortest_path topo a b) /\
  (shortest_path topo a b <> [] ->
   hd_error (shortest_path topo a b) = Some a /\
   last (shortest_path topo a b) a = b).
Proof.
  split.
  - destruct (NoDup_dec string_dec (shortest_path topo a b)) as [H|H]; [assumption|].
    exfalso.
    assert (Hne : shortest_path topo a b <> []).
    { intros E. apply H. rewrite E. constructor. }
    pose proof (shortest_path_sound topo a b Hne) as Hp.
    destruct (@path_shorten topo a b _ Hp H) as (p' & Hp' & Hlt).
    destruct (proj2 (shortest_path_minimal topo a b) p' Hp') as [_ Hle]. lia.
  - intros Hne. pose proof (shortest_path_sound topo a b Hne) as Hp.
    clear Hne. induction Hp as [|x c p Hp IH He]; [now split|].
    destruct IH as [H1 H2]. split.
    + destruct p; [discriminate | exact H1].
    + apply last_last.
Qed.

End SimplePath.

(* ------------------------------------------------------------------ *)
(** ** The fidelities of the heavy-hex device *)

Lemma pair_eqb_neq (a b : string * string) : pair_eqb a b = false <-> a <> b.
Proof.
  split.
  - intros H E. apply pair_eqb_eq in E. congruence.
  - intros H. destruct (pair_eqb a b) eqn:E; [|reflexivity].
    apply pair_eqb_eq in E. contradiction.
Qed.

(** A dictionary comprehension with one value for every key. *)
Lemma fold_dict_set_const (c : Q) (keys : list (string * string)) :
  forall d k,
  dict_get pair_eqb (fold_left (fun d uv => dict_set pair_eqb d uv c) keys d) k
  = if existsb (pair_eqb k) keys then Some c else dict_get pair_eqb d k.
Proof.
  induction keys as [|x keys IH]; intros d k; simpl; [reflexivity|].
  rewrite IH. destruct (existsb (pair_eqb k) keys); [now rewrite orb_true_r|].
  rewrite orb_false_r. destruct (pair_eqb k x) eqn:E.
  - apply pair_eqb_eq in E. subst x. apply dict_get_set_same, pair_eqb_eq.
  - apply dict_get_set_other; [apply pair_eqb_eq|]. now apply pair_eqb_neq.
Qed.

Section HeavyHexFidelity.
Context {SO : SetOrder}.

Lemma heavy_hex_symmetric_true (a b : string) :
  are_adjacent HeavyHexTopology a b = true -> are_adjacent HeavyHexTopology b a = true.
Proof.
  intros H. apply are_adjacent_edge in H. unfold edge, get_neighbors, dict_get_default in H.
  simpl in H.
  repeat match type of H with
         | context [String.eqb a ?k] =>
             destruct (String.eqb_spec a k) as [->|_];
             [simpl in H; repeat (destruct H as [<-|H]; [reflexivity|]); destruct H|]
         end.
  destruct H.
Qed.

Lemma heavy_hex_symmetric (a b : string) :
  are_adjacent HeavyHexTopology a b = are_adjacent HeavyHexTopology b a.
Proof.
  destruct (are_adjacent HeavyHexTopology a b) eqn:E1,
           (are_adjacent HeavyHexTopology b a) eqn:E2; try reflexivity.
  - apply heavy_hex_symmetric_true in E1. congruence.
  - apply heavy_hex_symmetric_true in E2. congruence.
Qed.

Lemma uniform_fidelities_get (a b : string) :
  dict_get pair_eqb (uniform_fidelities heavy_hex_graph) (a, b)
  = if are_adjacent HeavyHexTopology a b then Some (99 # 100) else None.
Proof.
  unfold uniform_fidelities. rewrite fold_dict_set_const. simpl dict_get.
  destruct (are_adjacent HeavyHexTopology a b) eqn:E.
  - assert (H : existsb (pair_eqb (a, b))
                  (flat_map (fun us => map (fun v => (fst us, v))
                                           (set_iter string_dec (snd us))) heavy_hex_graph)
                = true); [|now rewrite H].
    apply existsb_exists. exists (a, b). split; [|now apply pair_eqb_eq].
    unfold are_adjacent, graph_get in E. simpl coupling_graph in E.
    destruct (dict_get String.eqb heavy_hex_graph a) as [s|] eqn:Es; [|discriminate].
    apply dict_get_In in Es; [|apply String.eqb_eq].
    apply in_flat_map. exists (a, s). split; [assumption|].
    apply in_map_iff. exists b. split; [reflexivity|].
    apply set_iter_In. now apply set_mem_string.
  - destruct (existsb _ _) eqn:H; [|reflexivity].
    apply existsb_exists in H as ([u v] & Hin & Heq).
    apply pair_eqb_eq in Heq. injection Heq as <- <-.
    apply in_flat_map in Hin as ([u' ns] & Hu & Hin).
    apply in_map_iff in Hin as (v' & [= <- <-] & Hv). simpl in Hv.
    apply set_iter_In in Hv.
    rewrite (@heavy_hex_adjacent SO _ _ _ Hu Hv) in E. discriminate.
Qed.

(** X20.  The fidelity table of the heavy-hex device, whatever the order in
    which its constructor meets the neighbours of a qubit: 0.92 on the link
    P4-P5, 0.95 on the link P9-P11, 0.99 on every other link, 0 between
    qubits that are not neighbours; the same in both directions. *)
Theorem heavy_hex_fidelity_table (a b : string) :
  get_fidelity HeavyHexTopology a b
  = (if are_adjacent HeavyHexTopology a b
     then if pair_eqb (a, b) ("P4", "P5")%string || pair_eqb (a, b) ("P5", "P4")%string
          then 92 # 100
          else if pair_eqb (a, b) ("P9", "P11")%string
                  || pair_eqb (a, b) ("P11", "P9")%string
               then 95 # 100
               else 99 # 100
     else 0) /\
  get_fidelity HeavyHexTopology a b = get_fidelity HeavyHexTopology b a.
Proof.
  assert (T : forall a b,
    get_fidelity HeavyHexTopology a b
    = (if are_adjacent HeavyHexTopology a b
       then if pair_eqb (a, b) ("P4", "P5")%string || pair_eqb (a, b) ("P5", "P4")%string
            then 92 # 100
            else if pair_eqb (a, b) ("P9", "P11")%string
                    || pair_eqb (a, b) ("P11", "P9")%string
                 then 95 # 100
                 else 99 # 100
       else 0)).
  { clear a b. intros a b. cbn [get_fidelity HeavyHexTopology].
    unfold dict_get_default, heavy_hex_fidelities.
    destruct (pair_eqb (a, b) ("P11", "P9")%string) eqn:E4.
    { apply pair_eqb_eq in E4. injection E4 as -> ->.
      rewrite dict_get_set_same by apply pair_eqb_eq. reflexivity. }
    rewrite dict_get_set_other by (try apply pair_eqb_eq; now apply pair_eqb_neq).
    destruct (pair_eqb (a, b) ("P9", "P11")%string) eqn:E3.
    { apply pair_eqb_eq in E3. injection E3 as -> ->.
      rewrite dict_get_set_same by apply pair_eqb_eq. reflexivity. }
    rewrite dict_get_set_other by (try apply pair_eqb_eq; now apply pair_eqb_neq).
    destruct (pair_eqb (a, b) ("P5", "P4")%string) eqn:E2.
    { apply pair_eqb_eq in E2. injection E2 as -> ->.
      rewrite dict_get_set_same by apply pair_eqb_eq. reflexivity. }
    rewrite dict_get_set_other by (try apply pair_eqb_eq; now apply pair_eqb_neq).
    destruct (pair_eqb (a, b) ("P4", "P5")%string) eqn:E1.
    { apply pair_eqb_eq in E1. injection E1 as -> ->.
      rewrite dict_get_set_same by apply pair_eqb_eq. reflexivity. }
    rewrite dict_get_set_other by (try apply pair_eqb_eq; now apply pair_eqb_neq).
    rewrite uniform_fidelities_get.
    now destruct (are_adjacent HeavyHexTopology a b). }
  split; [apply T|].
  rewrite (T a b), (T b a), (heavy_hex_symmetric a b).
  unfold pair_eqb. simpl fst. simpl snd.
  destruct (are_adjacent HeavyHexTopology b a); [|reflexivity].
  destruct (String.eqb_spec a "P4"), (String.eqb_spec b "P5"),
           (String.eqb_spec a "P5"), (String.eqb_spec b "P4"),
           (String.eqb_spec a "P9"), (String.eqb_spec b "P11"),
           (String.eqb_spec a "P11"), (String.eqb_spec b "P9");
    subst; try discriminate; reflexivity.
Qed.

End HeavyHexFidelity.

(* ------------------------------------------------------------------ *)
(** ** The adder circuit of the interactive test *)

Lemma string_length_append (a b : string) :
  String.length (a ++ b) = (String.length a + String.length b)%nat.
Proof. induction a as [|x a IH]; simpl; [reflexivity | now rewrite IH]. Qed.

Lemma string_append_assoc (a b c : string) : ((a ++ b) ++ c = a ++ (b ++ c))%string.
Proof. induction a as [|x a IH]; simpl; [reflexivity | now rewrite IH]. Qed.

Lemma zeros_snoc (n : nat) : (zeros n ++ "0")%string = String "0" (zeros n).
Proof. induction n as [|n IH]; simpl; [reflexivity | now rewrite IH]. Qed.

Lemma bits_msb_zero (n : nat) : bits_msb n 0 = zeros n.
Proof.
  induction n as [|n IH]; [reflexivity|].
  cbn [bits_msb]. change (Z.div2 0) with 0%Z. rewrite IH. apply zeros_snoc.
Qed.

Lemma pow2_succ (n : nat) : (2 ^ Z.of_nat (S n) = 2 * 2 ^ Z.of_nat n)%Z.
Proof. rewrite Nat2Z.inj_succ. apply Z.pow_succ_r. lia. Qed.

Lemma bin_of_pos_padded (p : positive) :
  forall n, (Zpos p < 2 ^ Z.of_nat n)%Z ->
  (zeros (n - String.length (bin_of_pos p)) ++ bin_of_pos p)%string = bits_msb n (Zpos p).
Proof.
  induction p as [p IH|p IH|]; intros [|n] H;
    try (change (2 ^ Z.of_nat 0)%Z with 1%Z in H; lia);
    rewrite pow2_succ in H; cbn [bits_msb bin_of_pos].
  - change (Z.div2 (Zpos p~1)) with (Zpos p). change (Z.odd (Zpos p~1)) with true.
    rewrite <- IH by lia. rewrite string_length_append. simpl String.length.
    replace (S n - (String.length (bin_of_pos p) + 1))%nat
      with (n - String.length (bin_of_pos p))%nat by lia.
    now rewrite string_append_assoc.
  - change (Z.div2 (Zpos p~0)) with (Zpos p). change (Z.odd (Zpos p~0)) with false.
    rewrite <- IH by lia. rewrite string_length_append. simpl String.length.
    replace (S n - (String.length (bin_of_pos p) + 1))%nat
      with (n - String.length (bin_of_pos p))%nat by lia.
    now rewrite string_append_assoc.
  - change (Z.div2 1) with 0%Z. change (Z.odd 1) with true.
    rewrite bits_msb_zero. simpl String.length.
    now replace (S n - 1)%nat with n by lia.
Qed.

Lemma format_0b_bits (v : Z) (n : nat) :
  (0 <= v < 2 ^ Z.of_nat n)%Z -> (1 <= n)%nat -> format_0b v n = bits_msb n v.
Proof.
  intros Hv Hn. unfold format_0b. destruct v as [|p|p]; try lia.
  - simpl. rewrite bits_msb_zero. destruct n as [|n]; [lia|].
    simpl. rewrite Nat.sub_0_r. apply zeros_snoc.
  - simpl. rewrite Nat.sub_0_r. apply bin_of_pos_padded. lia.
Qed.

Lemma bits_msb_length (n : nat) : forall v, String.length (bits_msb n v) = n.
Proof.
  induction n as [|n IH]; intros v; [reflexivity|].
  cbn [bits_msb]. rewrite string_length_append, IH. destruct (Z.odd v); simpl; lia.
Qed.

Lemma bits_msb_get (n : nat) :
  forall v i, (i < n)%nat ->
  String.get i (bits_msb n v)
  = Some (if Z.testbit v (Z.of_nat n - 1 - Z.of_nat i) then "1"%char else "0"%char).
Proof.
  induction n as [|n IH]; intros v i Hi; [lia|]. cbn [bits_msb].
  destruct (Nat.eq_dec i n) as [->|Hne].
  - pose proof (append_correct2 (bits_msb n (Z.div2 v))
                  (if Z.odd v then "1" else "0")%string 0) as E.
    rewrite bits_msb_length in E. simpl plus in E. rewrite <- E.
    replace (Z.of_nat (S n) - 1 - Z.of_nat n)%Z with 0%Z by lia.
    rewrite Z.bit0_odd. now destruct (Z.odd v).
  - rewrite <- append_correct1 by (rewrite bits_msb_length; lia).
    rewrite IH by lia. rewrite Z.div2_spec, Z.shiftr_spec by lia.
    now replace (Z.of_nat n - 1 - Z.of_nat i + 1)%Z
      with (Z.of_nat (S n) - 1 - Z.of_nat i)%Z by lia.
Qed.

(** X21.  [int_to_bin_qubits] writes a value that fits in [num_bits] bits
    as exactly [num_bits] characters, the most significant bit first: the
    character at index [i] is ['1'] exactly when bit [num_bits - 1 - i] of
    the value is set. *)
Theorem int_to_bin_qubits_bits (value num_bits : Z) :
  (1 <= num_bits)%Z -> (0 <= value < 2 ^ num_bits)%Z ->
  exists s,
    int_to_bin_qubits value num_bits = Return s /\
    String.length s = Z.to_nat num_bits /\
    forall i, (i < Z.to_nat num_bits)%nat ->
      String.get i s
      = Some (if Z.testbit value (num_bits - 1 - Z.of_nat i) then "1"%char else "0"%char).
Proof.
  intros Hn Hv. unfold int_to_bin_qubits.
  destruct (Z.ltb_spec num_bits 0) as [|_]; [lia|].
  eexists. split; [reflexivity|].
  rewrite format_0b_bits by (rewrite ?Z2Nat.id; lia).
  split; [apply bits_msb_length|].
  intros i Hi. rewrite bits_msb_get by assumption. now rewrite Z2Nat.id by lia.
Qed.

(** X22.  [generate_adder_circuit] never fails and depends on [a] and [b]
    only through their two low bits: an X gate on q0 for bit 1 of [a], on q1
    for bit 0 of [a], on q2 for bit 1 of [b], on q3 for bit 0 of [b], then
    the four gates of the adder. *)
Theorem generate_adder_circuit_gates (a b : Z) :
  generate_adder_circuit a b
  = Return ((if Z.testbit a 1 then [gate1 "X" 0] else [])
            ++ (if Z.testbit a 0 then [gate1 "X" 1] else [])
            ++ (if Z.testbit b 1 then [gate1 "X" 2] else [])
            ++ (if Z.testbit b 0 then [gate1 "X" 3] else [])
            ++ [CNOT 0 2; CNOT 1 3; gate1 "H" 0; CNOT 0 3]).
Proof.
  assert (Hbit : forall x i, (0 <= i < 2)%Z -> Z.testbit x i = Z.testbit (x mod 4) i).
  { intros x i Hi. change 4%Z with (2 ^ 2)%Z. symmetry. apply Z.mod_pow2_bits_low. lia. }
  rewrite (Hbit a 1%Z), (Hbit a 0%Z), (Hbit b 1%Z), (Hbit b 0%Z) by lia.
  unfold generate_adder_circuit.
  pose proof (Z.mod_pos_bound a 4 eq_refl) as Ha.
  pose proof (Z.mod_pos_bound b 4 eq_refl) as Hb.
  assert (Ca : (a mod 4 = 0 \/ a mod 4 = 1 \/ a mod 4 = 2 \/ a mod 4 = 3)%Z) by lia.
  assert (Cb : (b mod 4 = 0 \/ b mod 4 = 1 \/ b mod 4 = 2 \/ b mod 4 = 3)%Z) by lia.
  destruct Ca as [->|[->|[->| ->]]], Cb as [->|[->|[->| ->]]]; reflexivity.
Qed.

(* ------------------------------------------------------------------ *)
(** ** The further properties on concrete circuits *)

(** A circuit for the three-qubit line and what the pass returns for it:
    one swap for [CNOT(0,2)], none for [CNOT(0,1)]. *)
Definition line_circuit : QMapIR := [CNOT 0 2; gate1 "H" 1; CNOT 0 1].

Definition line_routed : QMapIR :=
  [MARK [(0, 0); (1, 1); (2, 2)]; SWAP 0 1 0; MARK [(0, 1); (1, 0); (2, 2)];
   CNOT 0 2; gate1 "H" 1; CNOT 0 1]%Z.

Lemma line_circuit_routed :
  optimize (SO := insertion_order) LinearTopology 1 line_circuit = Return line_routed.
Proof. vm_compute. reflexivity. Qed.

Lemma line_circuit_gates : only_gates line_circuit.
Proof. unfold line_circuit. only_gates_now. Qed.

(** On the four-qubit line of the benchmark, [CNOT(0,3)] takes two swaps. *)
Definition line4_routed : QMapIR :=
  [MARK [(0, 0); (1, 1); (2, 2); (3, 3)]; SWAP 0 1 0; SWAP 1 2 0;
   MARK [(0, 2); (1, 0); (2, 1); (3, 3)]; CNOT 0 3]%Z.

Lemma line4_circuit_routed :
  optimize (SO := insertion_order) Linear4Qubit 2 [CNOT 0 3] = Return line4_routed.
Proof. vm_compute. reflexivity. Qed.

Lemma line4_labels :
  forall q n, In n (get_neighbors Linear4Qubit q) ->
  exists k, (0 <= k <= 9)%Z /\ n = PhysicalQubit.str (PhysicalQubit.mk k).
Proof. neighbour_labels. Qed.

Ltac one_to_one_now :=
  split; vm_compute; repeat (constructor; [simpl; intuition discriminate|]); constructor.

Lemma apply_swap_exchanges_witness :
  one_to_one (apply_swap (initialize_layout 3) (PhysicalQubit.mk 0) (PhysicalQubit.mk 1)) /\
  dict_keys (apply_swap (initialize_layout 3) (PhysicalQubit.mk 0) (PhysicalQubit.mk 1))
  = dict_keys (initialize_layout 3) /\
  forall lq,
    layout_get (apply_swap (initialize_layout 3) (PhysicalQubit.mk 0) (PhysicalQubit.mk 1)) lq
    = option_map (exchange (PhysicalQubit.mk 0) (PhysicalQubit.mk 1))
                 (layout_get (initialize_layout 3) lq).
Proof. apply apply_swap_exchanges. one_to_one_now. Defined.

Lemma apply_swap_twice_witness :
  apply_swap (apply_swap (initialize_layout 3) (PhysicalQubit.mk 0) (PhysicalQubit.mk 1))
             (PhysicalQubit.mk 0) (PhysicalQubit.mk 1)
  = initialize_layout 3 /\
  apply_swap (initialize_layout 3) (PhysicalQubit.mk 1) (PhysicalQubit.mk 0)
  = apply_swap (initialize_layout 3) (PhysicalQubit.mk 0) (PhysicalQubit.mk 1).
Proof. apply apply_swap_twice. one_to_one_now. Defined.

Lemma swap_physical_qubits_agrees_witness :
  CurrentLayoutOp.layout
    (CurrentLayoutOp.swap_physical_qubits
       (CurrentLayoutOp.mk (layout_of [(0, 1); (1, 0); (2, 2)]%Z))
       (PhysicalQubit.mk 0) (PhysicalQubit.mk 2))
  = apply_swap (CurrentLayoutOp.layout
                  (CurrentLayoutOp.mk (layout_of [(0, 1); (1, 0); (2, 2)]%Z)))
               (PhysicalQubit.mk 0) (PhysicalQubit.mk 2) /\
  forall lq pq,
    CurrentLayoutOp.get_physical_qubit
      (CurrentLayoutOp.mk (layout_of [(0, 1); (1, 0); (2, 2)]%Z)) lq = Some pq <->
    CurrentLayoutOp.get_logical_qubit
      (CurrentLayoutOp.mk (layout_of [(0, 1); (1, 0); (2, 2)]%Z)) pq = Some lq.
Proof. apply swap_physical_qubits_agrees. one_to_one_now. Defined.

Lemma annotations_one_to_one_witness :
  exists n,
    count_qubits (SO := insertion_order) (referenced_qubits line_circuit) = Return n /\
    forall m, In (OpLayout m) line_routed ->
      NoDup (map snd (CurrentLayoutOp.layout m)) /\
      dict_keys (CurrentLayoutOp.layout m) = map LogicalQubit.mk (range n).
Proof.
  apply (@annotations_one_to_one insertion_order LinearTopology 1 line_circuit line_routed
           line_circuit_gates line_circuit_routed).
Defined.

Lemma annotations_replay_swaps_witness :
  (forall pre m post,
     line_routed = pre ++ OpLayout m :: post -> pre <> [] ->
     replay pre = Some (CurrentLayoutOp.layout m)) /\
  (forall pre op post,
     line_routed = pre ++ op :: post -> is_router_op op = false ->
     exists l, replay pre = Some l /\ last_layout pre = Some l).
Proof.
  apply (@annotations_replay_swaps insertion_order LinearTopology 1 line_circuit line_routed
           line_circuit_gates line_circuit_routed).
Defined.

Lemma inserted_swaps_witness :
  (PhysicalQubit.id (PhysicalQubit.mk 0) <= PhysicalQubit.id (PhysicalQubit.mk 1))%Z /\
  0 = 1 - get_fidelity LinearTopology (PhysicalQubit.str (PhysicalQubit.mk 0))
                                      (PhysicalQubit.str (PhysicalQubit.mk 1)) /\
  exists l lq,
    replay [MARK [(0, 0); (1, 1); (2, 2)]%Z] = Some l /\
    (layout_get l lq = Some (PhysicalQubit.mk 0) \/
     layout_get l lq = Some (PhysicalQubit.mk 1)).
Proof.
  apply (@inserted_swaps insertion_order LinearTopology 1 line_circuit line_routed
           line_circuit_gates line_circuit_routed
           [MARK [(0, 0); (1, 1); (2, 2)]%Z]
           (InsertSwapOp.mk (PhysicalQubit.mk 0) (PhysicalQubit.mk 1) 0)
           [MARK [(0, 1); (1, 0); (2, 2)]; CNOT 0 2; gate1 "H" 1; CNOT 0 1]%Z).
  reflexivity.
Defined.

Lemma inserted_swaps_on_edges_witness :
  are_adjacent Linear4Qubit (PhysicalQubit.str (PhysicalQubit.mk 1))
               (PhysicalQubit.str (PhysicalQubit.mk 2)) = true \/
  are_adjacent Linear4Qubit (PhysicalQubit.str (PhysicalQubit.mk 2))
               (PhysicalQubit.str (PhysicalQubit.mk 1)) = true.
Proof.
  apply (@inserted_swaps_on_edges insertion_order Linear4Qubit 2 [CNOT 0 3] line4_routed
           line4_labels ltac:(only_gates_now) line4_circuit_routed
           (InsertSwapOp.mk (PhysicalQubit.mk 1) (PhysicalQubit.mk 2) 0)).
  simpl. auto.
Defined.

Lemma routing_overhead_witness :
  (1 + count_swaps line4_routed
   <= Z.of_nat (List.length line4_routed) - Z.of_nat (List.length [CNOT 0 3])
   <= 1 + 2 * count_swaps line4_routed)%Z /\
  (Z.of_nat (List.length line4_routed) - Z.of_nat (List.length [CNOT 0 3])
   <= 1 + count_swaps line4_routed
      + Z.of_nat (List.length (two_qubit_gates [CNOT 0 3])))%Z.
Proof.
  apply (@routing_overhead insertion_order Linear4Qubit 2 [CNOT 0 3] line4_routed
           ltac:(only_gates_now) line4_circuit_routed).
Defined.

Lemma negative_operand_never_returns_witness :
  ~ exists out, optimize (SO := insertion_order) LinearTopology 1 [CNOT (-1) 0] = Return out.
Proof.
  apply (@negative_operand_never_returns insertion_order LinearTopology 1 [CNOT (-1) 0]
           (LogicalQubit.mk (-1))).
  - simpl. auto.
  - simpl. lia.
Defined.

Lemma one_swap_devices_route_witness :
  exists out,
    optimize (SO := insertion_order) LinearTopology 1 line_circuit = Return out /\
    (count_swaps out <= Z.of_nat (List.length (two_qubit_gates line_circuit)))%Z /\
    forall pre g post,
      out = pre ++ OpTryTwo g :: post ->
      exists l pq1 pq2,
        last_layout pre = Some l /\
        layout_get l (TryTwoQubitOp.control g) = Some pq1 /\
        layout_get l (TryTwoQubitOp.target g) = Some pq2 /\
        are_adjacent LinearTopology (PhysicalQubit.str pq1) (PhysicalQubit.str pq2) = true.
Proof.
  apply (@one_swap_devices_route insertion_order LinearTopology
           line_labels line_symmetric line_one_swap 0 line_circuit 3).
  - exact line_circuit_gates.
  - intros g H. simpl in H.
    destruct H as [[= <-]|[[=]|[[= <-]|[]]]]; discriminate.
  - intros lq H. simpl in H.
    repeat (destruct H as [<-|H]; [simpl; lia|]). destruct H.
  - intros i Hi. assert (C : (i = 0 \/ i = 1 \/ i = 2)%Z) by lia.
    destruct C as [->|[->| ->]]; discriminate.
Defined.

Lemma export_reads_last_annotation_witness :
  OpenQASMExporter.physical_of
    (snd (OpenQASMExporter.export OpenQASMExporter.default
            [gate1 "H" 0; MARK [(0, 1); (1, 0)]%Z]))
    (LogicalQubit.id (LogicalQubit.mk 0))
  = PhysicalQubit.id (PhysicalQubit.mk 1).
Proof.
  apply (@export_reads_last_annotation OpenQASMExporter.default
           [gate1 "H" 0; MARK [(0, 1); (1, 0)]%Z] (layout_of [(0, 1); (1, 0)]%Z)).
  - intros m [[=]|[[= <-]|[]]]. vm_compute.
    repeat (constructor; [simpl; intuition discriminate|]). constructor.
  - reflexivity.
  - reflexivity.
Defined.


Lemma export_twice_witness :
  fst (OpenQASMExporter.export
         (snd (OpenQASMExporter.export OpenQASMExporter.default line_routed)) line_routed)
  = fst (OpenQASMExporter.export OpenQASMExporter.default line_routed).
Proof.
  apply (@export_twice insertion_order LinearTopology 1 line_circuit line_routed
           OpenQASMExporter.default line_circuit_gates line_circuit_routed).
Defined.

Lemma swaps_counted_by_text_witness :
  swaps_inserted (fun _ => "0.01"%string) [gate1 "H" 0; SWAP 0 1 (1 # 100); CNOT 0 1]
  = count_swaps [gate1 "H" 0; SWAP 0 1 (1 # 100); CNOT 0 1].
Proof.
  apply swaps_counted_by_text.
  - intros g [[= <-]|[[=]|[[=]|[]]]]. reflexivity.
  - intros g [[=]|[[=]|[[= <-]|[]]]]. reflexivity.
Defined.

Lemma int_to_bin_qubits_bits_witness :
  exists s,
    int_to_bin_qubits 2 2 = Return s /\
    String.length s = Z.to_nat 2 /\
    forall i, (i < Z.to_nat 2)%nat ->
      String.get i s
      = Some (if Z.testbit 2 (2 - 1 - Z.of_nat i) then "1"%char else "0"%char).
Proof. apply int_to_bin_qubits_bits; [lia | split; [lia | reflexivity]]. Defined.
